(** * Micro Tetris (src/tetris.c): board, shape catalog, line clearing, scoring

    A shallow embedding of the simulation core of [tetris.c] and the
    properties of its specification.

    Conventions of the embedding
    - C [int] and [long] values are integers in [Z]; where the program's
      arithmetic can leave the machine range ([level++], [++clears],
      [points += ...]) the two's-complement wrap-around is written out
      ([wrap_int], [wrap_long]).  Index arithmetic stays far below the
      machine range and is plain [Z] arithmetic.
    - The array [board] is a [list Z] of [B_SIZE] cells.  Accesses whose index
      is computed from run-time data ([fits_in], [place]) are checked: an
      index outside the array is the fault [OutOfBounds] (undefined behaviour
      in C).  The row loops of the line-clear code use indices that their loop
      bounds keep inside the array ([row_cell_in_bounds]).
    - A pointer into the array [shapes] is its element offset: the catalog
      entry number [k] is the pointer [5 * k].
    - [getchar] and [rand] read from two input lists kept in the state. *)

From Stdlib Require Import ZArith Lia List Bool Ascii String DecimalString.
From stdpp Require Import base tactics list numbers.
Import ListNotations.

#[local] Open Scope Z_scope.

(** ** Faults and the error monad *)

Inductive fault : Set :=
| OutOfBounds   (* an array access outside its array *)
| Diverges.     (* a loop of the program that does not end *)

Inductive res (A : Type) : Type :=
| Ok (a : A)
| Err (f : fault).

Arguments Ok {A} a.
Arguments Err {A} f.

Definition rbind {A B : Type} (m : res A) (k : A -> res B) : res B :=
  match m with
  | Ok a => k a
  | Err f => Err f
  end.

Notation "'let*' x := m 'in' k" := (rbind m (fun x => k))
  (at level 10, x name, m at level 100, k at level 200).

(** ** Machine integers *)

Definition wrap (w : Z) (x : Z) : Z :=
  (x + 2 ^ (w - 1)) mod 2 ^ w - 2 ^ (w - 1).

Definition INT_MAX : Z := 2 ^ 31 - 1.
Definition INT_MIN : Z := - 2 ^ 31.
Definition LONG_MAX : Z := 2 ^ 63 - 1.
Definition LONG_MIN : Z := - 2 ^ 63.

Definition wrap_int (x : Z) : Z := wrap 32 x.
Definition wrap_long (x : Z) : Z := wrap 64 x.

(** ** The board and the shape catalog *)

Definition B_COLS : Z := 12.
Definition B_ROWS : Z := 23.
Definition B_SIZE : Z := B_ROWS * B_COLS.

Definition TL : Z := - B_COLS - 1.
Definition TC : Z := - B_COLS.
Definition TR : Z := - B_COLS + 1.
Definition ML : Z := -1.
Definition MR : Z := 1.
Definition BL : Z := B_COLS - 1.
Definition BC : Z := B_COLS.
Definition BR : Z := B_COLS + 1.

Definition shapes : list Z :=
  [  7; TL; TC; MR; 2;
     8; TR; TC; ML; 3;
     9; ML; MR; BC; 1;
     3; TL; TC; ML; 4;
    12; ML; BL; MR; 5;
    15; ML; BR; MR; 6;
    18; ML; MR;  2; 7;
     0; TC; ML; BL; 2;
     1; TC; MR; BR; 3;
    10; TC; MR; BC; 1;
    11; TC; ML; MR; 1;
     2; TC; ML; BC; 1;
    13; TC; BC; BR; 5;
    14; TR; ML; MR; 5;
     4; TL; TC; BC; 5;
    16; TR; TC; BC; 6;
    17; TL; MR; ML; 6;
     5; TC; BC; BL; 6;
     6; TC; BC; 2 * B_COLS; 7 ].

(** Number of catalog entries (the bound of the search loop in [main]). *)
Definition N_SHAPES : Z := 19.

(** [sh s k] is [s[k]] for a pointer [s] into [shapes]. *)
Definition sh (s k : Z) : Z := nth (Z.to_nat (s + k)) shapes 0.

(** [s] points at the first field of a catalog entry. *)
Definition shape_ptr (s : Z) : Prop :=
  exists k, 0 <= k < N_SHAPES /\ s = 5 * k.

(** The array [board]. *)
Abbreviation Board := (list Z).

(** Checked read and write of one cell. *)
Definition rd (b : Board) (i : Z) : res Z :=
  if 0 <=? i then
    match b !! Z.to_nat i with
    | Some v => Ok v
    | None => Err OutOfBounds
    end
  else Err OutOfBounds.

Definition wr (b : Board) (i : Z) (v : Z) : res Board :=
  if (0 <=? i) && (i <? Z.of_nat (length b)) then Ok (<[Z.to_nat i := v]> b)
  else Err OutOfBounds.

(** Reads and writes of the row loops, whose indices are inside the array. *)
Definition get (b : Board) (i : Z) : Z := default 0 (b !! Z.to_nat i).
Definition set (b : Board) (i : Z) (v : Z) : Board := <[Z.to_nat i := v]> b.

(** The C truth value of a cell: [board[i]] used as a condition. *)
Definition occupied (b : Board) (i : Z) : res bool :=
  let* v := rd b i in Ok (negb (v =? 0)).

(** [a || b] of C: [b] is evaluated only when [a] is false. *)
Definition orelse (a b : res bool) : res bool :=
  let* x := a in if x then Ok true else b.

(** [fits_in] (tetris.c:227). *)
Definition fits_in (b : Board) (s pos : Z) : res bool :=
  let* hit := orelse (occupied b pos)
             (orelse (occupied b (pos + sh s 1))
             (orelse (occupied b (pos + sh s 2))
                     (occupied b (pos + sh s 3)))) in
  if hit then Ok false else Ok true.

(** [place] (tetris.c:236). *)
Definition place (b : Board) (s pos c : Z) : res Board :=
  let* b1 := wr b pos c in
  let* b2 := wr b1 (pos + sh s 1) c in
  let* b3 := wr b2 (pos + sh s 2) c in
  wr b3 (pos + sh s 3) c.

(** The colour of the frame written by [init]. *)
Definition BORDER : Z := 60.

(** The board loop of [init] (tetris.c:407): [i] counts down from [B_SIZE]
    to 1 while the pointer walks up from cell 0. *)
Definition init_cell (i : Z) : Z :=
  if (i <? 25) || (Z.rem i B_COLS <? 2) then BORDER else 0.

Definition init_board : Board :=
  map init_cell (rev (seqZ 1 B_SIZE)).

(** The four absolute cells of shape [s] anchored at [pos]. *)
Definition cells (s pos : Z) : list Z :=
  [pos; pos + sh s 1; pos + sh s 2; pos + sh s 3].

Definition in_board (i : Z) : Prop := 0 <= i < B_SIZE.

(** ** Line clearing: the three row loops of [main] (tetris.c:443-460) *)

(** The columns [x = 1 .. B_COLS-2] visited by [for (x = 1; x < B_COLS-1; ++x)]. *)
Definition COLS : list Z := seqZ 1 (B_COLS - 2).

(** The test loop: [full] stays 1 iff no cell of row [i] is 0. *)
Definition row_full (b : Board) (i : Z) : bool :=
  forallb (fun x => negb (get b (i * B_COLS + x) =? 0)) COLS.

(** [board[i * B_COLS + x] = 0] for every column. *)
Definition clear_row (b : Board) (i : Z) : Board :=
  foldl (fun b' x => set b' (i * B_COLS + x) 0) b COLS.

(** [board[y * B_COLS + x] = board[(y-1) * B_COLS + x]] for every column. *)
Definition copy_row (b : Board) (y : Z) : Board :=
  foldl (fun b' x => set b' (y * B_COLS + x) (get b' ((y - 1) * B_COLS + x)))
        b COLS.

(** [for (y = i; y > 0; --y)]: rows [i], [i-1], ..., 1 in this order. *)
Definition shift_down (b : Board) (i : Z) : Board :=
  foldl copy_row b (rev (seqZ 1 i)).

(** ** Scoring (tetris.c:467-487) *)

Definition score_table : list Z := [0; 40; 100; 300; 1200].

(** Conversion of a [long] to [double]: round to the nearest value with a
    53-bit significand, ties to even.  Every such value is an integer, so it
    is represented in [Z]. *)
Definition double_of_long (x : Z) : Z :=
  let a := Z.abs x in
  if a <? 2 ^ 53 then x
  else
    let e := Z.log2 a - 52 in
    let q := a / 2 ^ e in
    let r := a mod 2 ^ e in
    let half := 2 ^ (e - 1) in
    let q' := if r <? half then q
              else if half <? r then q + 1
              else if Z.even q then q else q + 1 in
    Z.sgn x * (q' * 2 ^ e).

(** ** The program state *)

(** The globals of tetris.c that the simulation uses, the locals [c] and [pos]
    of [main], and the two input sources. *)
Record game : Type := Game {
  board : Board;
  shape : Z;                   (* int *shape, as an offset into shapes *)
  color : Z;
  peek_shape : option Z;       (* int *peek_shape; None is NULL *)
  pcolor : Z;
  level : Z;
  points : Z;
  lines_cleared : Z;
  c : Z;
  pos : Z;
  stdin : list Z;              (* what getchar() will return *)
  rand_src : list nat          (* what rand() will return *)
}.

Definition set_board (v : Board) (g : game) : game :=
  Game v (shape g) (color g) (peek_shape g) (pcolor g) (level g) (points g)
       (lines_cleared g) (c g) (pos g) (stdin g) (rand_src g).
Definition set_shape (v : Z) (g : game) : game :=
  Game (board g) v (color g) (peek_shape g) (pcolor g) (level g) (points g)
       (lines_cleared g) (c g) (pos g) (stdin g) (rand_src g).
Definition set_color (v : Z) (g : game) : game :=
  Game (board g) (shape g) v (peek_shape g) (pcolor g) (level g) (points g)
       (lines_cleared g) (c g) (pos g) (stdin g) (rand_src g).
Definition set_peek (v : Z) (pc : Z) (g : game) : game :=
  Game (board g) (shape g) (color g) (Some v) pc (level g) (points g)
       (lines_cleared g) (c g) (pos g) (stdin g) (rand_src g).
Definition set_score (lv pts lc : Z) (g : game) : game :=
  Game (board g) (shape g) (color g) (peek_shape g) (pcolor g) lv pts lc
       (c g) (pos g) (stdin g) (rand_src g).
Definition set_c (v : Z) (g : game) : game :=
  Game (board g) (shape g) (color g) (peek_shape g) (pcolor g) (level g)
       (points g) (lines_cleared g) v (pos g) (stdin g) (rand_src g).
Definition set_pos (v : Z) (g : game) : game :=
  Game (board g) (shape g) (color g) (peek_shape g) (pcolor g) (level g)
       (points g) (lines_cleared g) (c g) v (stdin g) (rand_src g).
Definition set_stdin (v : list Z) (g : game) : game :=
  Game (board g) (shape g) (color g) (peek_shape g) (pcolor g) (level g)
       (points g) (lines_cleared g) (c g) (pos g) v (rand_src g).
Definition set_rand_src (v : list nat) (g : game) : game :=
  Game (board g) (shape g) (color g) (peek_shape g) (pcolor g) (level g)
       (points g) (lines_cleared g) (c g) (pos g) (stdin g) v.

(** ** Input *)

Definition EOF : Z := -1.

(** [getchar()]: the next character, or [EOF] at the end of the input (also
    what an alarm signal interrupting the read returns: the gravity tick). *)
Definition getchar (g : game) : Z * game :=
  match stdin g with
  | [] => (EOF, g)
  | k :: ks => (k, set_stdin ks g)
  end.

(** [rand()]: a non-negative number. *)
Definition rand (g : game) : Z * game :=
  match rand_src g with
  | [] => (0, g)
  | r :: rs => (Z.of_nat r, set_rand_src rs g)
  end.

Definition DEFAULT_KEYS : string := "hjkl pqr".
Definition KEY_LEFT : nat := 0.
Definition KEY_RROTATE : nat := 1.
Definition KEY_ROTATE : nat := 2.
Definition KEY_RIGHT : nat := 3.
Definition KEY_DROP : nat := 4.
Definition KEY_PAUSE : nat := 5.
Definition KEY_QUIT : nat := 6.
Definition KEY_RESTART : nat := 7.

(** [keys[k]] *)
Definition keys (k : nat) : Z :=
  Z.of_nat (nat_of_ascii (nth k (list_ascii_of_string DEFAULT_KEYS) zero)).

(** ** [update] (tetris.c:164): level progression and the next input *)

(** [while (lines_cleared >= 10) { lines_cleared -= 10; level++; }] *)
Fixpoint level_loop (fuel : nat) (lv lc : Z) : res (Z * Z) :=
  if lc <? 10 then Ok (lv, lc)
  else match fuel with
       | O => Err Diverges
       | S fuel' => level_loop fuel' (wrap_int (lv + 1)) (lc - 10)
       end.

Definition update (g : game) : res (Z * game) :=
  let* l := level_loop (Z.to_nat (lines_cleared g)) (level g)
                       (lines_cleared g) in
  Ok (getchar (set_score (fst l) (points g) (snd l) g)).

(** ** [next_shape] (tetris.c:244) *)

(** The first three statements: draw the new preview shape.  Returns the
    pointer stored in [peek_shape]. *)
Definition draw_peek (g : game) : Z * game :=
  let '(r, g1) := rand g in
  let p := Z.rem r 7 * 5 in
  (p, set_peek p (sh p 4) g1).

Definition next_shape (g : game) : Z * game :=
  let '(p1, g1) := draw_peek g in
  match peek_shape g with
  | Some next => (next, set_color (sh next 4) g1)
  | None =>
      (* return next_shape(): its [next] is the pointer just stored *)
      let '(_, g2) := draw_peek g1 in
      (p1, set_color (sh p1 4) g2)
  end.

(** ** [init] (tetris.c:395) *)
Definition init (g : game) : game :=
  let g1 := set_board init_board
              (set_pos 17 (set_c 0 (set_score 1 0 0 g))) in
  let '(s, g2) := next_shape g1 in
  set_shape s g2.

(** ** The line-clear loop of [main] (tetris.c:441-465) *)

(** [clear_loop fuel i clears g] runs [for (...; i < B_ROWS-2; ++i)] from the
    test of its condition, with the current values of [i] and [clears].
    After a clear and a shift the body ends with [--i], which the loop's
    [++i] undoes: the same row is examined again. *)
Fixpoint clear_loop (fuel : nat) (i clears : Z) (g : game) : res (Z * game) :=
  if i <? B_ROWS - 2 then
    match fuel with
    | O => Err Diverges
    | S fuel' =>
        if row_full (board g) i then
          let g1 := set_board (clear_row (board g) i) g in
          let* u1 := update g1 in
          let g2 := set_c (fst u1) (snd u1) in
          let g3 := set_board (shift_down (board g2) i) g2 in
          let* u2 := update g3 in
          let g4 := set_c (fst u2) (snd u2) in
          clear_loop fuel' i (wrap_int (clears + 1)) g4
        else clear_loop fuel' (i + 1) clears g
    end
  else Ok (clears, g).

(** ** Control flow of one iteration of [while (running)] *)

Inductive flow : Type :=
| Next (g : game)        (* fall through to the next statement *)
| Continue (g : game)    (* continue *)
| Break (g : game).      (* break *)

(** The block [if (clears > 0) { ... }] (tetris.c:467-487). *)
Definition score (clears : Z) (g : game) : res flow :=
  if 0 <? clears then
    match score_table !! Z.to_nat clears with
    | None => Err OutOfBounds
    | Some base =>
        let award := wrap_int (base * level g) in
        let ofcheck := double_of_long (wrap_long (points g + award)) in
        if double_of_long LONG_MAX <? ofcheck then Ok (Break g)
        else Ok (Next (set_score (level g)
                                 (wrap_long (points g + award))
                                 (wrap_int (lines_cleared g + clears)) g))
    end
  else Ok (Next g).

(** [while ((c = getchar())) if (c == keys[KEY_QUIT] || c == keys[KEY_RESTART]) break;]
    At the end of the input [getchar] returns [EOF] for ever. *)
Fixpoint wait_replay (input : list Z) : res (Z * list Z) :=
  match input with
  | [] => Err Diverges
  | k :: rest =>
      if k =? 0 then Ok (k, rest)
      else if (k =? keys KEY_QUIT) || (k =? keys KEY_RESTART) then Ok (k, rest)
      else wait_replay rest
  end.

(** [while (getchar() - keys[KEY_PAUSE]);] *)
Fixpoint wait_pause (input : list Z) : res (list Z) :=
  match input with
  | [] => Err Diverges
  | k :: rest => if k - keys KEY_PAUSE =? 0 then Ok rest else wait_pause rest
  end.

(** The [else] branch of the gravity tick (tetris.c:439-509): lock the piece,
    clear rows, score, draw the next piece.  Returns [clears] too. *)
Definition lock (fuel : nat) (g : game) : res (Z * flow) :=
  let* b1 := place (board g) (shape g) (pos g) (color g) in
  let* r := clear_loop fuel 1 0 (set_board b1 g) in
  let clears := fst r in
  let* f := score clears (snd r) in
  match f with
  | Next g2 =>
      let* u := update g2 in
      let g3 := set_c (fst u) (snd u) in
      let '(s, g4) := next_shape g3 in
      let g5 := set_pos 17 (set_shape s g4) in
      let* ok := fits_in (board g5) (shape g5) (pos g5) in
      if ok then Ok (clears, Next g5)
      else
        let* w := wait_replay (stdin g5) in
        let g6 := set_c (fst w) (set_stdin (snd w) g5) in
        if c g6 =? keys KEY_QUIT then Ok (clears, Break g6)
        else Ok (clears, Continue (init g6))
  | other => Ok (clears, other)
  end.

(** [if (c < 0) { ... }] (tetris.c:435-511) *)
Definition tick (fuel : nat) (g : game) : res (Z * flow) :=
  if c g <? 0 then
    let* ok := fits_in (board g) (shape g) (pos g + B_COLS) in
    if ok then Ok (0, Next (set_pos (pos g + B_COLS) g))
    else lock fuel g
  else Ok (0, Next g).

(** ** Key handlers (tetris.c:513-576) *)

(** [if (!fits_in(shape, --pos)) ++pos;] *)
Definition on_left (g : game) : res game :=
  let* ok := fits_in (board g) (shape g) (pos g - 1) in
  Ok (if ok then set_pos (pos g - 1) g else g).

(** [if (!fits_in(shape, ++pos)) --pos;] *)
Definition on_right (g : game) : res game :=
  let* ok := fits_in (board g) (shape g) (pos g + 1) in
  Ok (if ok then set_pos (pos g + 1) g else g).

(** The search loop of [KEY_ROTATE]: the first entry whose field 0 is
    [curr_idx], or [curr_idx] itself when there is none. *)
Definition find_prev (curr_idx : Z) : Z :=
  match find (fun i => sh (5 * i) 0 =? curr_idx) (seqZ 0 N_SHAPES) with
  | Some i => i
  | None => curr_idx
  end.

(** [KEY_ROTATE] (tetris.c:518): to the entry that has this one as successor. *)
Definition on_rotate (g : game) : res game :=
  let backup := shape g in
  let curr_idx := Z.quot (shape g) 5 in
  let prev_idx := find_prev curr_idx in
  let s := 5 * prev_idx in
  let* ok := fits_in (board g) s (pos g) in
  Ok (set_shape (if ok then s else backup) g).

(** [KEY_RROTATE] (tetris.c:533): to the successor entry, [shapes[0]] of the
    current one. *)
Definition on_rrotate (g : game) : res game :=
  let backup := shape g in
  let s := 5 * sh (shape g) 0 in
  let* ok := fits_in (board g) s (pos g) in
  Ok (set_shape (if ok then s else backup) g).

(** [for (; fits_in(shape, pos + B_COLS); ++points) pos += B_COLS;] *)
Fixpoint drop_loop (fuel : nat) (b : Board) (s p pts : Z) : res (Z * Z) :=
  let* ok := fits_in b s (p + B_COLS) in
  if ok then
    match fuel with
    | O => Err Diverges
    | S fuel' => drop_loop fuel' b s (p + B_COLS) (wrap_long (pts + 1))
    end
  else Ok (p, pts).

Definition on_drop (g : game) : res game :=
  let* r := drop_loop (length (board g)) (board g) (shape g) (pos g)
                      (points g) in
  Ok (set_pos (fst r) (set_score (level g) (snd r) (lines_cleared g) g)).

Definition on_pause (g : game) : res game :=
  let* rest := wait_pause (stdin g) in
  Ok (set_stdin rest g).

Definition when (cond : bool) (f : game -> res game) (g : game) : res game :=
  if cond then f g else Ok g.

(** The chain of [if (c == keys[...])] statements. *)
Definition keys_phase (g : game) : res flow :=
  let* g1 := when (c g =? keys KEY_LEFT) on_left g in
  let* g2 := when (c g1 =? keys KEY_ROTATE) on_rotate g1 in
  let* g3 := when (c g2 =? keys KEY_RROTATE) on_rrotate g2 in
  let* g4 := when (c g3 =? keys KEY_RIGHT) on_right g3 in
  let* g5 := when (c g4 =? keys KEY_DROP) on_drop g4 in
  if c g5 =? keys KEY_RESTART then Ok (Continue (init g5))
  else if (c g5 =? keys KEY_PAUSE) || (c g5 =? keys KEY_QUIT) then
    if c g5 =? keys KEY_QUIT then Ok (Break g5)
    else let* g6 := on_pause g5 in Ok (Next g6)
  else Ok (Next g5).

(** [place(shape, pos, color); c = update(); place(shape, pos, 0);] *)
Definition redraw (g : game) : res game :=
  let* b1 := place (board g) (shape g) (pos g) (color g) in
  let* u := update (set_board b1 g) in
  let g2 := set_c (fst u) (snd u) in
  let* b2 := place (board g2) (shape g2) (pos g2) 0 in
  Ok (set_board b2 g2).

(** ** One iteration of [while (running)] *)

Inductive outcome : Type :=
| Running (g : game)      (* the iteration reached its end *)
| Restarted (g : game)    (* it ended in [init(); continue] *)
| Exited (g : game).      (* it left the loop *)

(** Returns the rows cleared in this iteration too (0 without a lock). *)
Definition step (fuel : nat) (g : game) : res (Z * outcome) :=
  let* t := tick fuel g in
  match snd t with
  | Continue g1 => Ok (fst t, Restarted g1)
  | Break g1 => Ok (fst t, Exited g1)
  | Next g1 =>
      let* k := keys_phase g1 in
      match k with
      | Continue g2 => Ok (fst t, Restarted g2)
      | Break g2 => Ok (fst t, Exited g2)
      | Next g2 => let* g3 := redraw g2 in Ok (fst t, Running g3)
      end
  end.

(** At most [n] iterations of one game: stops at a restart or an exit.
    Returns the rows cleared in every iteration. *)
Fixpoint play (fuel : nat) (n : nat) (g : game) : res (list Z * outcome) :=
  match n with
  | O => Ok ([], Running g)
  | S n' =>
      let* r := step fuel g in
      match snd r with
      | Running g1 =>
          let* rest := play fuel n' g1 in
          Ok (fst r :: fst rest, snd rest)
      | other => Ok ([fst r], other)
      end
  end.

(** The state in which [main] enters its loop: the globals as initialised,
    then [init]. *)
Definition start (input : list Z) (rnd : list nat) : game :=
  init (Game (repeat 0 (Z.to_nat B_SIZE)) 0 0 None 0 1 0 0 0 0 input rnd).

(** ** Predicates of the specification *)

(** The playing field: the anchors of rows [1 .. B_ROWS-3] and columns
    [1 .. B_COLS-2]. *)
Definition in_field (row col : Z) : Prop :=
  1 <= row <= B_ROWS - 3 /\ 1 <= col <= B_COLS - 2.

(** The frame that [init] writes: the two side columns and the two bottom
    rows. *)
Definition frame_cell (i : Z) : bool :=
  (0 <=? i) && (i <? B_SIZE) &&
  ((i mod B_COLS =? 0) || (i mod B_COLS =? B_COLS - 1) ||
   (B_ROWS - 2 <=? i / B_COLS)).

(** The outermost ring of the grid: first and last row, first and last
    column. *)
Definition ring_cell (i : Z) : bool :=
  (0 <=? i) && (i <? B_SIZE) &&
  ((i mod B_COLS =? 0) || (i mod B_COLS =? B_COLS - 1) ||
   (i / B_COLS =? 0) || (i / B_COLS =? B_ROWS - 1)).

(** Every cell of the set [P] holds the border colour. *)
Definition tagged (P : Z -> bool) (b : Board) : Prop :=
  forall i, P i = true -> get b i = BORDER.

Definition taggedb (P : Z -> bool) (b : Board) : bool :=
  forallb (fun i => implb (P i) (get b i =? BORDER)) (seqZ 0 B_SIZE).

(** The successor field of each catalog entry, in catalog order. *)
Definition successors : list Z :=
  map (fun k => sh (5 * k) 0) (seqZ 0 N_SHAPES).

(** [shifted b i b']: in the columns of the playing field, rows [1 .. i] of
    [b'] are rows [0 .. i-1] of [b]; every other cell is as in [b]. *)
Definition shifted (b : Board) (i : Z) (b' : Board) : Prop :=
  length b' = length b /\
  forall r x, 0 <= r < B_ROWS -> 0 <= x < B_COLS ->
    get b' (r * B_COLS + x)
    = if (1 <=? r) && (r <=? i) && (1 <=? x) && (x <=? B_COLS - 2)
      then get b ((r - 1) * B_COLS + x)
      else get b (r * B_COLS + x).

(** [cleared b rs b']: [b'] comes from [b] by taking out the rows [rs] one
    after the other, each of them full when its turn comes, the rows above it
    moving down by one. *)
Inductive cleared : Board -> list Z -> Board -> Prop :=
| cleared_nil (b : Board) : cleared b [] b
| cleared_cons (b : Board) (i : Z) (b1 : Board) (rs : list Z) (b' : Board) :
    row_full b i = true -> shifted b i b1 -> cleared b1 rs b' ->
    cleared b (i :: rs) b'.

(** Row [r] is empty in the columns of the playing field. *)
Definition row_empty (b : Board) (r : Z) : Prop :=
  forall x, 1 <= x <= B_COLS - 2 -> get b (r * B_COLS + x) = 0.

(** The playing rows that the line-clear loop scans: [1 .. B_ROWS-3]. *)
Definition SCANNED : list Z := seqZ 1 (B_ROWS - 3).

(** Iterations that the line-clear loop needs at most when row 0 is not full:
    every scanned row is examined once, and once more after a clear. *)
Definition CLEAR_FUEL : nat := Z.to_nat (2 * (B_ROWS - 3)).

(** Boards for examples: [fill_row b r v] writes [v] to the playing columns of
    row [r]. *)
Definition fill_row (b : Board) (r v : Z) : Board :=
  foldl (fun b' x => set b' (r * B_COLS + x) v) b COLS.

(** A game state with a given board, for examples. *)
Definition game_on (b : Board) : game :=
  Game b 0 2 (Some 0) 2 1 0 0 (-1) 17 [] [].


(** Rows 0 and 1 are full. *)
Definition board_top_two : Board :=
  fill_row (fill_row init_board 0 7) 1 7.

(** The scanned rows that are full, from the top down. *)
Definition full_rows (b : Board) : list Z := List.filter (row_full b) SCANNED.

(** Iterations left for the line-clear loop at row [i] of board [b], when no
    row above [i] is full. *)
Definition need (i : Z) (b : Board) : Z :=
  if i <? B_ROWS - 2
  then 2 * (B_ROWS - 2 - i) - (if row_full b i then 0 else 1)
  else 0.

(** The base points of the score table, as the specification lists them. *)
Definition base_points (clears : Z) : Z :=
  match clears with
  | 1 => 40
  | 2 => 100
  | 3 => 300
  | 4 => 1200
  | _ => 0
  end.

(** A game state on the empty board with the piece [s] at anchor [p], for
    examples. *)
Definition game_at (s p : Z) : game :=
  Game init_board s (sh s 4) (Some 0) 2 1 0 0 0 p [] [].

(** ** Invariants of the main loop *)

(** An anchor in the playing field. *)
Definition anchor_ok (p : Z) : Prop :=
  exists row col, in_field row col /\ p = row * B_COLS + col.

(** A pointer to one of the seven entries that [next_shape] draws. *)
Definition base_ptr (s : Z) : Prop :=
  exists k, 0 <= k < 7 /\ s = 5 * k.

(** The board has its size and its frame. *)
Definition framed (g : game) : Prop :=
  length (board g) = Z.to_nat B_SIZE /\ tagged frame_cell (board g).

(** The preview is not drawn yet, or it is one of the seven. *)
Definition peek_ok (g : game) : Prop :=
  match peek_shape g with
  | None => True
  | Some s => base_ptr s
  end.

(** What holds whenever [main] is at the head of its loop: the board is
    framed, the piece is a catalog entry anchored in the playing field, it is
    not drawn on the board and fits there. *)
Definition good (g : game) : Prop :=
  framed g /\ shape_ptr (shape g) /\ anchor_ok (pos g) /\
  fits_in (board g) (shape g) (pos g) = Ok true /\ peek_ok g.

(** The state that an outcome or a flow carries. *)
Definition state_of (o : outcome) : game :=
  match o with
  | Running g => g
  | Restarted g => g
  | Exited g => g
  end.

(** What holds of the state that a flow or an outcome carries: a state that
    goes on in the loop is [good]; one that leaves the loop has its frame. *)
Definition flow_good (f : flow) : Prop :=
  match f with
  | Next g => good g
  | Continue g => good g
  | Break g => framed g
  end.

Definition outcome_good (o : outcome) : Prop :=
  match o with
  | Running g => good g
  | Restarted g => good g
  | Exited g => framed g
  end.

(** A whole session of at most [n] iterations: it goes on after a restart and
    stops when the loop is left. *)
Fixpoint run (fuel : nat) (n : nat) (g : game) : res outcome :=
  match n with
  | O => Ok (Running g)
  | S n' =>
      let* r := step fuel g in
      match snd r with
      | Running g1 => run fuel n' g1
      | Restarted g1 => run fuel n' g1
      | Exited g1 => Ok (Exited g1)
      end
  end.

(** The lines cleared so far in this game, as the two counters record them. *)
Definition lines_total (g : game) : Z :=
  10 * (level g - 1) + lines_cleared g.

(** [lines_cleared] is below 10, as [update] leaves it. *)
Definition leveled (g : game) : Prop :=
  INT_MIN <= level g /\ 0 <= lines_cleared g < 10.

(** The sum of the rows cleared in the iterations of a game. *)
Definition sum_cleared (tr : list Z) : Z := fold_right Z.add 0 tr.

(** The outcome belongs to the game that was being played. *)
Definition in_game (o : outcome) : Prop :=
  match o with
  | Restarted _ => False
  | _ => True
  end.

(** ** A game for examples *)

(** The keys of one round: two sticks side by side on the floor, two more on
    top of them, and a square that completes both rows; the four inputs read
    while the two rows are cleared come last. *)
Definition demo_round : list Z :=
  let h := keys KEY_LEFT in
  let l := keys KEY_RIGHT in
  let d := keys KEY_DROP in
  [h; h; h; d; EOF;  l; d; EOF;  h; h; h; d; EOF;  l; d; EOF;
   l; l; l; l; l; d; EOF;  0; 0; 0; 0].

(** Five rounds: ten rows. *)
Definition demo_input : list Z := concat (repeat demo_round 5).
Definition demo_rand : list nat :=
  (concat (repeat [6; 6; 6; 6; 3] 5) ++ [6; 6])%nat.

(** The rows cleared and the state after [n] iterations of this game. *)
Definition demo (n : nat) : list Z * outcome :=
  match play CLEAR_FUEL n (start demo_input demo_rand) with
  | Ok r => r
  | Err _ => ([], Exited (start [] []))
  end.

(** A second game: five upright sticks fill column 1, two flat sticks lie on
    the floor, an S piece is locked at the top left with two of its cells in
    row 0, and an upright stick in column 10 completes row 20. *)
Definition top_input : list Z :=
  let h := keys KEY_LEFT in
  let l := keys KEY_RIGHT in
  let d := keys KEY_DROP in
  let j := keys KEY_RROTATE in
  concat (repeat [j; h; h; h; h; d; EOF] 5)
  ++ [h; h; d; EOF] ++ [l; l; d; EOF] ++ [h; h; h; EOF]
  ++ [j; l; l; l; l; l; d; EOF] ++ [0; 0; 0; 0].
Definition top_rand : list nat := [6; 6; 6; 6; 6; 6; 6; 0; 6; 6; 6]%nat.

Definition top_game (n : nat) : list Z * outcome :=
  match play CLEAR_FUEL n (start top_input top_rand) with
  | Ok r => r
  | Err _ => ([], Exited (start [] []))
  end.

(** The board on which the clear-cycle of the 48th iteration of this game
    starts: the last stick has just been locked.  Row 20 is full, and cells 1
    and 2 of row 0 are occupied. *)
Definition board_top_cell : Board :=
  Eval vm_compute in
  let g := state_of (snd (top_game 47)) in
  match place (board g) (shape g) (pos g) (color g) with
  | Ok b => b
  | Err _ => []
  end.

(** A third game, of 47 pieces.  Flat sticks fill columns 1-4 up to row 7 and
    columns 6-9 up to row 5, upright sticks fill column 10, and column 5 stays
    free.  Thirteen pieces then build rows 0 to 4 so that the last one, a T
    standing at the spawn cell, completes row 0 and row 2 at once while row 1
    keeps two holes. *)
Definition late_input : list Z :=
  let h := keys KEY_LEFT in
  let l := keys KEY_RIGHT in
  let d := keys KEY_DROP in
  let j := keys KEY_RROTATE in
  let k := keys KEY_ROTATE in
  let t := EOF in
  concat (repeat [h; h; h; d; t] 14)
  ++ concat (repeat [l; l; d; t] 16)
  ++ concat (repeat [l; l; l; j; l; l; d; t] 4)
  ++ [h; h; j; j; d; t]         (* T on row 6, columns 2-4 *)
  ++ [h; h; h; j; h; d; t]      (* upright stick, column 1, rows 3-6 *)
  ++ [l; l; l; l; l; d; t]      (* square, columns 9-10, rows 3-4 *)
  ++ [l; l; l; d; t]            (* square, columns 7-8, rows 3-4 *)
  ++ [l; l; l; l; k; l; t]      (* L at the top right: cells (0,9) (0,10) *)
  ++ [l; l; l; j; t]            (* L: cell (0,8) *)
  ++ [h; h; h; j; h; t]         (* J at the top left: cells (0,1) (0,2) *)
  ++ [h; h; j; t; h; d; t]      (* upright stick, column 2, rows 2-5 *)
  ++ [h; h; t]                  (* Z: cells (0,3) (0,4) *)
  ++ [l; k; l; t]               (* L: cells (0,6) (0,7) *)
  ++ [t; t; h; j; t; h; t]      (* J: cells (2,3) (2,4) *)
  ++ [j; t; t; j; j; l; t]      (* T: cell (2,6) *)
  ++ [j; t]                     (* T: cells (0,5) (2,5) *)
  ++ [t; t; t; keys KEY_QUIT].
Definition late_rand : list nat :=
  (repeat 6 34 ++ [2; 6; 3; 3; 4; 4; 5; 6; 1; 4; 5; 2; 2])%nat.

Definition late_game (n : nat) : list Z * outcome :=
  match play CLEAR_FUEL n (start late_input late_rand) with
  | Ok r => r
  | Err _ => ([], Exited (start [] []))
  end.

(** The board on which the clear-cycle of the last lock of this game starts.
    Rows 0 and 2 are full, row 1 is not. *)
Definition board_top_full : Board :=
  Eval vm_compute in
  let g := state_of (snd (late_game 193)) in
  match place (board g) (shape g) (pos g) (color g) with
  | Ok b => b
  | Err _ => []
  end.

(** ** More invariants of the main loop *)

(** No row that the line-clear loop scans is full. *)
Definition no_full_row (b : Board) : Prop :=
  forall r, 1 <= r <= B_ROWS - 3 -> row_full b r = false.

(** The rows above [i] as the line-clear loop has left them: none of them is
    full, or rows 0 and 1 are both full. *)
Definition passed (b : Board) (i : Z) : Prop :=
  (forall r, 1 <= r < i -> row_full b r = false) \/
  (2 <= i /\ row_full b 0 = true /\ row_full b 1 = true).

(** The result of a computation is a value with the property [P], or the
    computation does not end: it is not an access outside an array. *)
Definition fine {A : Type} (P : A -> Prop) (r : res A) : Prop :=
  match r with
  | Ok a => P a
  | Err Diverges => True
  | Err OutOfBounds => False
  end.

(** The loop invariant [good], and moreover: no scanned row is full, the
    colour is the one of the catalog entry, the preview is drawn. *)
Definition sound (g : game) : Prop :=
  good g /\ no_full_row (board g) /\ color g = sh (shape g) 4 /\
  peek_shape g <> None.

Definition flow_sound (f : flow) : Prop :=
  match f with
  | Next g => sound g
  | Continue g => sound g
  | Break g => True
  end.

Definition outcome_sound (o : outcome) : Prop :=
  match o with
  | Running g => sound g
  | Restarted g => sound g
  | Exited g => True
  end.

(** The piece and the score may differ, the rest of the state is the same. *)
Definition same_board (g g' : game) : Prop :=
  board g' = board g /\ color g' = color g /\ peek_shape g' = peek_shape g /\
  sh (shape g') 4 = sh (shape g) 4.





(** ** The screen: [draw] and the display loops of [update] (tetris.c:158-200) *)

(** One call [draw(x, y, c)]: the cursor goes to column [x] of line [y]
    ([gotoxy]) and two spaces are printed with the attribute [code]
    ([bgcolor]). *)
Record drawn : Type := Drawn { column : Z; line : Z; code : Z }.

(** [c ? c + 40 : 0] of [bgcolor]. *)
Definition bgcode (c : Z) : Z := if c =? 0 then 0 else c + 40.

Definition draw (x y c : Z) : drawn := Drawn x y (bgcode c).

(** [%d] of a number. *)
Definition dec (z : Z) : string := NilZero.string_of_int (Z.to_int z).

(** The characters of [ESC] and an opening bracket. *)
Definition CSI : string := String (ascii_of_nat 27) "[".

(** The characters that the two [printf] of [draw] send to the terminal. *)
Definition render (d : drawn) : string :=
  (CSI ++ dec (line d) ++ ";" ++ dec (column d) ++ "H"
   ++ CSI ++ dec (code d) ++ "m  ")%string.

(** The body of the two display loops: a cell that differs from its shadow is
    copied to the shadow and drawn at column [x * 2 + dx] of line [dy + y].
    The cells are colours, their difference does not leave the range of
    [int]. *)
Definition show_cell (dx dy : Z) (src : Board) (y : Z)
           (acc : Board * list drawn) (x : Z) : Board * list drawn :=
  let i := y * B_COLS + x in
  if get src i - get (fst acc) i =? 0 then acc
  else (set (fst acc) i (get src i),
        snd acc ++ [draw (x * 2 + dx) (dy + y) (get src i)]).

(** [for (x = 0; x < B_COLS; x++)] *)
Definition show_row (dx dy : Z) (src : Board) (acc : Board * list drawn)
           (y : Z) : Board * list drawn :=
  foldl (show_cell dx dy src y) acc (seqZ 0 B_COLS).

Definition show_rows (dx dy : Z) (src : Board) (ys : list Z)
           (shadow : Board) : Board * list drawn :=
  foldl (show_row dx dy src) (shadow, []) ys.

(** "Display board" (tetris.c:191): [for (y = 1; y < B_ROWS - 1; y++)], with
    [draw(x * 2 + 28, y, c)].  Returns the new [shadow] and what was drawn. *)
Definition show_board (b shadow : Board) : Board * list drawn :=
  show_rows 28 0 b (seqZ 1 (B_ROWS - 2)) shadow.

(** The cell [x] of row [y] differs from its shadow. *)
Definition changed (src shadow : Board) (y x : Z) : bool :=
  negb (get src (y * B_COLS + x) =? get shadow (y * B_COLS + x)).

(** The cells of row [y] that differ from their shadow, drawn from left to
    right. *)
Definition row_draws (dx dy : Z) (src shadow : Board) (y : Z) : list drawn :=
  map (fun x => draw (x * 2 + dx) (dy + y) (get src (y * B_COLS + x)))
      (List.filter (changed src shadow y) (seqZ 0 B_COLS)).

(** The first and the last cell shown by [show_board]. *)
Definition SHOWN_FROM : Z := B_COLS.
Definition SHOWN_TO : Z := (B_ROWS - 1) * B_COLS.
(** The preview of [update] (tetris.c:169-187, ENABLE_PREVIEW). *)
Definition PREVIEW_SIZE : Z := B_COLS * 10.

(** The array [preview]: zero but for the four cells of the previewed shape,
    written like [place] writes them, at the anchor [2 * B_COLS + 1]. *)
Definition preview_of (pk pc : Z) : res Board :=
  place (repeat 0 (Z.to_nat PREVIEW_SIZE)) pk (2 * B_COLS + 1) pc.

(** The preview block: [for (y = 0; y < 4; y++)], with
    [draw(x * 2 + 26 + 28, start + y, c)] and [start = 5].  Reading
    [peek_shape[1]] through a null pointer is a fault. *)
Definition show_preview (g : game) (shadow_preview : Board)
  : res (Board * list drawn) :=
  match peek_shape g with
  | None => Err OutOfBounds
  | Some pk =>
      let* pv := preview_of pk (pcolor g) in
      Ok (show_rows (26 + 28) 5 pv (seqZ 0 4) shadow_preview)
  end.

(** ** The gravity timer: [alarm_handler] (tetris.c:364) *)

(** The handler on [h[3]], the microseconds of the one-shot timer that
    [setitimer] arms ([h[0]], [h[1]] and [h[2]] stay 0).  [None] is the
    division by zero. *)
Definition alarm_handler (signo lv h3 : Z) : option Z :=
  let h := if signo =? 0 then 500000 else h3 in
  let d := wrap_int (3000 - wrap_int (10 * lv)) in
  if d =? 0 then None
  else Some (wrap_long (h - wrap_long (Z.quot h d))).

(** A sequence of calls of the handler, each with its signal number and the
    level at that time. *)
Fixpoint alarms (calls : list (Z * Z)) (h3 : Z) : option Z :=
  match calls with
  | [] => Some h3
  | (signo, lv) :: rest =>
      match alarm_handler signo lv h3 with
      | Some h => alarms rest h
      | None => None
      end
  end.

(** ** The file of the high scores: [init_high_score_file] (tetris.c:118) *)

(** The result of [mkdir(state_dir, 0755)]: 0, the error [EEXIST], another
    error. *)
Inductive mkdir_result : Type := MkdirOk | MkdirExists | MkdirFailed.

(** The function returns with the two paths stored, or the program exits
    with status 1 after one of its four messages. *)
Inductive hs_error : Type :=
| NoHome              (* neither XDG_STATE_HOME nor HOME is set *)
| StateDirTooLong     (* state_dir path too long *)
| MkdirError          (* perror("mkdir(state_dir)") *)
| ScoreFileTooLong.   (* high_score_file path too long *)

Inductive hs_result : Type :=
| HsPaths (state_dir high_score_file : string)
| HsExit (e : hs_error).

(** [v && *v] for the result [v] of [getenv]. *)
Definition given (v : option string) : bool :=
  match v with
  | Some (String _ _) => true
  | _ => false
  end.

(** [snprintf(buf, size, ...)] where the text to print is [s]: what [buf]
    holds afterwards, and the result, the length of [s]. *)
Definition snprintf (size : nat) (s : string) : string * nat :=
  (substring 0 (size - 1) s, String.length s).

Section HighScoreFile.

(** [PATH_MAX] of <limits.h>, and the file system as [mkdir] sees it. *)
Variable PATH_MAX : nat.
Variable mkdir : string -> mkdir_result.

Definition init_high_score_file (xdg home : option string) : hs_result :=
  match (if given xdg then xdg else if given home then home else None) with
  | None => HsExit NoHome
  | Some base =>
      let p1 := snprintf PATH_MAX
                  (if given xdg then base ++ "/games"
                   else base ++ "/.local/state/games")%string in
      if (PATH_MAX <=? snd p1)%nat then HsExit StateDirTooLong
      else
        match mkdir (fst p1) with
        | MkdirFailed => HsExit MkdirError
        | _ =>
            let p2 := snprintf PATH_MAX (fst p1 ++ "/tetris.scores")%string in
            if (PATH_MAX <=? snd p2)%nat then HsExit ScoreFileTooLong
            else HsPaths (fst p1) (fst p2)
        end
  end.

End HighScoreFile.

(** The state directory that the environment asks for: under
    XDG_STATE_HOME when it is set and not empty, under HOME otherwise. *)
Definition wanted_dir (xdg home : option string) (dir : string) : Prop :=
  (exists base, xdg = Some base /\ base <> EmptyString /\
                dir = (base ++ "/games")%string) \/
  (given xdg = false /\
   exists base, home = Some base /\ base <> EmptyString /\
                dir = (base ++ "/.local/state/games")%string).

(** ** The terminal: [tty_init] and [tty_exit] (tetris.c:323-352) *)

(** The members of [struct termios] that POSIX names. *)
Record termios : Type := Termios {
  c_iflag : Z;
  c_oflag : Z;
  c_cflag : Z;
  c_lflag : Z;
  c_cc : list Z
}.

(** The terminal of [stdin] ([None]: it is not a terminal, [tcgetattr] and
    [tcsetattr] fail), the cursor, and the two globals [savemodes] and
    [havemodes]. *)
Record tty : Type := Tty {
  attrs : option termios;
  cursor_shown : bool;
  savemodes : termios;
  havemodes : bool
}.

Section Terminal.

(** The masks and the indices of <termios.h>. *)
Variables ICANON ECHO : Z.
Variables VMIN VTIME : nat.

(** Returns the result of the function and the new state. *)
Definition tty_init (t : tty) : Z * tty :=
  match attrs t with
  | None => (-1, t)
  | Some m =>
      let l1 := Z.land (c_lflag m) (Z.lnot ICANON) in
      let l2 := Z.land l1 (Z.lnot ECHO) in
      let cc := <[VTIME := 0]> (<[VMIN := 1]> (c_cc m)) in
      let modmodes := Termios (c_iflag m) (c_oflag m) (c_cflag m) l2 cc in
      (0, Tty (Some modmodes) false m true)
  end.

Definition tty_exit (t : tty) : Z * tty :=
  if havemodes t then
    match attrs t with
    | None => (-1, Tty None true (savemodes t) true)
    | Some _ => (0, Tty (Some (savemodes t)) true (savemodes t) true)
    end
  else (0, t).

End Terminal.

(** ** The pieces of a game *)

(** [n] calls of [next_shape]: the shapes returned, and the state. *)
Fixpoint deal (n : nat) (g : game) : list Z * game :=
  match n with
  | O => ([], g)
  | S n' =>
      let '(s, g1) := next_shape g in
      let '(ss, g2) := deal n' g1 in
      (s :: ss, g2)
  end.

(** The catalog entry that [next_shape] makes of a random number. *)
Definition drawn_shape (r : nat) : Z := Z.rem (Z.of_nat r) 7 * 5.

(** The characters that end the wait for a replay: NUL, which ends the
    [while], and the two keys that leave it by [break]. *)
Definition ends_wait (k : Z) : bool :=
  (k =? 0) || (k =? keys KEY_QUIT) || (k =? keys KEY_RESTART).

(** ** The points of a game *)

(** The cells of row [r] that are not 0, in the columns of the playing
    field. *)
Definition row_count (b : Board) (r : Z) : Z :=
  Z.of_nat (length (List.filter (fun x => negb (get b (r * B_COLS + x) =? 0))
                                COLS)).

(** [f 0 + f 1 + ... + f (n - 1)] *)
Fixpoint sum_rows (f : Z -> Z) (n : nat) : Z :=
  match n with
  | O => 0
  | S n' => sum_rows f n' + f (Z.of_nat n')
  end.

(** The occupied cells of the playing field: rows 0 to [B_ROWS - 3]. *)
Definition filled (b : Board) : Z :=
  sum_rows (row_count b) (Z.to_nat (B_ROWS - 2)).







(* ===================================================================== *)
(** * Properties *)

(** ** Basic facts *)

Lemma B_SIZE_eq : B_SIZE = 276.
Proof. reflexivity. Qed.

Lemma length_init_board : length init_board = Z.to_nat B_SIZE.
Proof. reflexivity. Qed.

Lemma rd_get (b : Board) (i : Z) :
  0 <= i < Z.of_nat (length b) -> rd b i = Ok (get b i).
Proof.
  intros Hi. unfold rd, get.
  destruct (0 <=? i) eqn:E; [|lia].
  destruct (lookup_lt_is_Some_2 b (Z.to_nat i)) as [v Hv]; [lia|].
  now rewrite Hv.
Qed.

Lemma rd_in_board (b : Board) (i : Z) :
  length b = Z.to_nat B_SIZE -> in_board i -> rd b i = Ok (get b i).
Proof. intros Hl Hi. apply rd_get. unfold in_board in Hi. lia. Qed.

Lemma get_set_eq (b : Board) (i v : Z) :
  0 <= i < Z.of_nat (length b) -> get (set b i v) i = v.
Proof.
  intros Hi. unfold get, set.
  rewrite list_lookup_insert_eq; [reflexivity|lia].
Qed.

Lemma get_set_ne (b : Board) (i j v : Z) :
  0 <= i -> 0 <= j -> i <> j -> get (set b i v) j = get b j.
Proof.
  intros Hi Hj Hne. unfold get, set.
  rewrite list_lookup_insert_ne; [reflexivity|lia].
Qed.

Lemma length_set (b : Board) (i v : Z) : length (set b i v) = length b.
Proof. apply length_insert. Qed.

Lemma wr_set (b : Board) (i v : Z) :
  0 <= i < Z.of_nat (length b) -> wr b i v = Ok (set b i v).
Proof.
  intros Hi. unfold wr, set.
  destruct (0 <=? i) eqn:E1; [|lia].
  destruct (i <? Z.of_nat (length b)) eqn:E2; [reflexivity|lia].
Qed.

(** The cell [x] of row [r] is inside the array, so the row loops' plain
    reads and writes are the checked ones. *)
Lemma row_cell_in_bounds (b : Board) (r x v : Z) :
  length b = Z.to_nat B_SIZE -> 0 <= r < B_ROWS -> 0 <= x < B_COLS ->
  in_board (r * B_COLS + x) /\
  rd b (r * B_COLS + x) = Ok (get b (r * B_COLS + x)) /\
  wr b (r * B_COLS + x) v = Ok (set b (r * B_COLS + x) v).
Proof.
  intros Hl Hr Hx.
  assert (Hi : in_board (r * B_COLS + x)).
  { unfold in_board, B_SIZE, B_ROWS, B_COLS in *. lia. }
  split; [exact Hi|]. split.
  - apply rd_in_board; assumption.
  - apply wr_set. unfold in_board in Hi. lia.
Qed.

(** Bounded quantification by evaluation. *)
Lemma forallb_seqZ (P : Z -> bool) (a n : Z) :
  forallb P (seqZ a n) = true -> forall k, a <= k < a + n -> P k = true.
Proof.
  intros H k Hk. rewrite forallb_forall in H. apply H.
  apply list_elem_of_In, elem_of_seqZ. lia.
Qed.

Lemma taggedb_tagged (P : Z -> bool) (b : Board) :
  (forall i, P i = true -> 0 <= i < B_SIZE) ->
  taggedb P b = true -> tagged P b.
Proof.
  intros HP H i Hi. unfold taggedb in H.
  pose proof (forallb_seqZ _ _ _ H i) as Hk. cbv beta in Hk.
  rewrite Hi in Hk. simpl in Hk. apply Z.eqb_eq, Hk.
  specialize (HP i Hi). lia.
Qed.

Lemma frame_cell_in_board (i : Z) : frame_cell i = true -> 0 <= i < B_SIZE.
Proof. unfold frame_cell. intros H. lia. Qed.

Lemma ring_cell_in_board (i : Z) : ring_cell i = true -> 0 <= i < B_SIZE.
Proof. unfold ring_cell. intros H. lia. Qed.

(** The offsets of every catalog entry lie between [TL] and [2 * B_COLS]. *)
Lemma offsets_bounded (k j : Z) :
  0 <= k < N_SHAPES -> 1 <= j <= 3 ->
  - B_COLS - 1 <= sh (5 * k) j <= 2 * B_COLS.
Proof.
  intros Hk Hj.
  assert (H : forallb (fun k => forallb (fun j =>
              (- B_COLS - 1 <=? sh (5 * k) j) && (sh (5 * k) j <=? 2 * B_COLS))
              (seqZ 1 3)) (seqZ 0 N_SHAPES) = true) by (vm_compute; reflexivity).
  pose proof (forallb_seqZ _ _ _ H k Hk) as H1. cbv beta in H1.
  pose proof (forallb_seqZ _ _ _ H1 j ltac:(lia)) as H2. cbv beta in H2.
  lia.
Qed.

Lemma field_cells_in_board (k row col : Z) :
  0 <= k < N_SHAPES -> in_field row col ->
  Forall in_board (cells (5 * k) (row * B_COLS + col)).
Proof.
  intros Hk [Hr Hc].
  pose proof (offsets_bounded k 1 Hk ltac:(lia)) as H1.
  pose proof (offsets_bounded k 2 Hk ltac:(lia)) as H2.
  pose proof (offsets_bounded k 3 Hk ltac:(lia)) as H3.
  unfold cells, in_board.
  change B_SIZE with 276. change B_ROWS with 23 in *. change B_COLS with 12 in *.
  repeat constructor; lia.
Qed.

(** [fits_in] on cells that are all inside the array. *)
Lemma fits_in_value (b : Board) (s p : Z) :
  length b = Z.to_nat B_SIZE -> Forall in_board (cells s p) ->
  fits_in b s p =
  Ok ((get b p =? 0) && (get b (p + sh s 1) =? 0) &&
      (get b (p + sh s 2) =? 0) && (get b (p + sh s 3) =? 0)).
Proof.
  intros Hl Hc. unfold cells in Hc.
  apply Forall_cons_1 in Hc as [H0 Hc]. apply Forall_cons_1 in Hc as [H1 Hc].
  apply Forall_cons_1 in Hc as [H2 Hc]. apply Forall_cons_1 in Hc as [H3 _].
  unfold fits_in, orelse, occupied.
  rewrite !rd_in_board by assumption. simpl.
  destruct (get b p =? 0); simpl; [|reflexivity].
  destruct (get b (p + sh s 1) =? 0); simpl; [|reflexivity].
  destruct (get b (p + sh s 2) =? 0); simpl; [|reflexivity].
  destruct (get b (p + sh s 3) =? 0); reflexivity.
Qed.

(** ** C1: [fits_in] is the occupancy test of the four cells *)

(** C1. For every board, every shape pointer [s] (in particular every catalog
    entry) and every anchor [p] whose four absolute cells are cells of the
    board, [fits_in] returns false iff at least one of [board[p]],
    [board[p+s[1]]], [board[p+s[2]]], [board[p+s[3]]] is non-zero, and returns
    true iff all four are 0. *)
Theorem fits_in_iff_cells_empty (b : Board) (s p : Z) :
  length b = Z.to_nat B_SIZE -> Forall in_board (cells s p) ->
  (fits_in b s p = Ok false <->
     get b p <> 0 \/ get b (p + sh s 1) <> 0 \/
     get b (p + sh s 2) <> 0 \/ get b (p + sh s 3) <> 0) /\
  (fits_in b s p = Ok true <->
     get b p = 0 /\ get b (p + sh s 1) = 0 /\
     get b (p + sh s 2) = 0 /\ get b (p + sh s 3) = 0).
Proof.
  intros Hl Hc. rewrite (fits_in_value b s p Hl Hc).
  destruct (Z.eqb_spec (get b p) 0) as [E0|E0];
  destruct (Z.eqb_spec (get b (p + sh s 1)) 0) as [E1|E1];
  destruct (Z.eqb_spec (get b (p + sh s 2)) 0) as [E2|E2];
  destruct (Z.eqb_spec (get b (p + sh s 3)) 0) as [E3|E3];
  simpl; split; split; intros H;
  try discriminate; try reflexivity; try tauto.
Qed.

Lemma fits_in_iff_cells_empty_witness :
  (fits_in init_board 0 17 = Ok false <->
     get init_board 17 <> 0 \/ get init_board (17 + sh 0 1) <> 0 \/
     get init_board (17 + sh 0 2) <> 0 \/ get init_board (17 + sh 0 3) <> 0) /\
  (fits_in init_board 0 17 = Ok true <->
     get init_board 17 = 0 /\ get init_board (17 + sh 0 1) = 0 /\
     get init_board (17 + sh 0 2) = 0 /\ get init_board (17 + sh 0 3) = 0).
Proof.
  apply (fits_in_iff_cells_empty init_board 0 17).
  - reflexivity.
  - replace (cells 0 17) with [17; 4; 5; 18] by (vm_compute; reflexivity).
    unfold in_board, B_SIZE, B_ROWS, B_COLS.
    repeat apply Forall_cons; try apply Forall_nil; lia.
Defined.

(** ** C2: the frame keeps [fits_in] inside the array *)

Lemma get_tag_nonzero (P : Z -> bool) (b : Board) (i : Z) :
  tagged P b -> P i = true -> (get b i =? 0) = false.
Proof.
  intros Ht Hi. rewrite (Ht i Hi). reflexivity.
Qed.

(** C2. For every catalog entry [k] and every anchor of the playing field
    (row in [1, B_ROWS-3], column in [1, B_COLS-2]) the four absolute cells
    are indices of the array; and on a board whose border cells (any set [P]
    of cells: the outermost ring, or the frame that [init] writes) hold the
    border colour, a shape and anchor with a cell on the border is rejected:
    [fits_in], which tests occupancy only, returns false. *)
Theorem border_rejects_by_occupancy
    (P : Z -> bool) (b : Board) (k row col : Z) :
  length b = Z.to_nat B_SIZE -> tagged P b ->
  0 <= k < N_SHAPES -> in_field row col ->
  Forall in_board (cells (5 * k) (row * B_COLS + col)) /\
  (Exists (fun i => P i = true) (cells (5 * k) (row * B_COLS + col)) ->
   fits_in b (5 * k) (row * B_COLS + col) = Ok false).
Proof.
  intros Hl Ht Hk Hf.
  pose proof (field_cells_in_board k row col Hk Hf) as Hc.
  split; [exact Hc|].
  intros Hex. rewrite (fits_in_value _ _ _ Hl Hc). f_equal.
  unfold cells in Hex.
  repeat match goal with
  | H : Exists _ (_ :: _) |- _ => apply Exists_cons in H as [H|H]
  | H : Exists _ [] |- _ => apply Exists_nil in H; contradiction
  end;
  rewrite (get_tag_nonzero P b _ Ht Hex); simpl;
  rewrite ?andb_false_r; reflexivity.
Qed.

Lemma init_board_frame_tagged : tagged frame_cell init_board.
Proof.
  apply taggedb_tagged; [exact frame_cell_in_board|].
  vm_compute. reflexivity.
Qed.

Lemma border_rejects_by_occupancy_witness :
  Forall in_board (cells (5 * 18) (20 * B_COLS + 5)) /\
  (Exists (fun i => frame_cell i = true) (cells (5 * 18) (20 * B_COLS + 5)) ->
   fits_in init_board (5 * 18) (20 * B_COLS + 5) = Ok false).
Proof.
  apply (border_rejects_by_occupancy frame_cell init_board 18 20 5).
  - reflexivity.
  - exact init_board_frame_tagged.
  - unfold N_SHAPES. lia.
  - unfold in_field, B_ROWS, B_COLS. lia.
Defined.

(** ** C10: the successor links are a permutation *)

(** C10. The successor fields of the 19 catalog entries are a permutation of
    0 .. 18, and for every entry [k] the entries whose successor is [k] are
    exactly one, the one that the search loop of [KEY_ROTATE] returns. *)
Theorem successors_permutation :
  Permutation successors (seqZ 0 N_SHAPES) /\
  Forall (fun k =>
            filter (fun i => sh (5 * i) 0 = k) (seqZ 0 N_SHAPES)
            = [find_prev k])
         (seqZ 0 N_SHAPES).
Proof.
  split.
  - apply NoDup_Permutation.
    + apply (bool_decide_unpack _). vm_compute. exact I.
    + apply NoDup_seqZ.
    + intros x. split.
      * apply (proj1 (list.Forall_forall (fun y => y ∈ seqZ 0 N_SHAPES) successors)).
        apply (bool_decide_unpack _). vm_compute. exact I.
      * apply (proj1 (list.Forall_forall (fun y => y ∈ successors) (seqZ 0 N_SHAPES))).
        apply (bool_decide_unpack _). vm_compute. exact I.
  - apply (bool_decide_unpack _). vm_compute. exact I.
Qed.

(** ** The row loops *)

Ltac consts := cbv delta [B_SIZE B_ROWS B_COLS N_SHAPES] in *.

Lemma In_COLS (x : Z) : In x COLS <-> 1 <= x <= B_COLS - 2.
Proof.
  unfold COLS. rewrite <- list_elem_of_In, elem_of_seqZ. consts. lia.
Qed.

Lemma existsb_COLS (f : Z -> Z) (j r x : Z) :
  (forall x', f x' = r * B_COLS + x') -> 0 <= x < B_COLS -> j = f x ->
  existsb (fun x' => j =? f x') COLS = (1 <=? x) && (x <=? B_COLS - 2).
Proof.
  intros Hf Hx ->. apply eq_iff_eq_true. rewrite existsb_exists. split.
  - intros [x' [Hin He]]. apply In_COLS in Hin. rewrite !Hf in He.
    consts. lia.
  - intros H. exists x. split; [apply In_COLS; consts; lia|lia].
Qed.

Lemma length_fold_set (g : Board -> Z -> Z) (f : Z -> Z) (xs : list Z) (b : Board) :
  length (foldl (fun b' x => set b' (f x) (g b' x)) b xs) = length b.
Proof.
  revert b. induction xs as [|a xs IH]; intros b; simpl; [reflexivity|].
  rewrite IH. apply length_set.
Qed.

Lemma length_clear_row (b : Board) (i : Z) : length (clear_row b i) = length b.
Proof.
  unfold clear_row.
  apply (length_fold_set (fun _ _ => 0) (fun x => i * B_COLS + x)).
Qed.

Lemma length_copy_row (b : Board) (y : Z) : length (copy_row b y) = length b.
Proof.
  unfold copy_row.
  apply (length_fold_set (fun b' x => get b' ((y - 1) * B_COLS + x))
                         (fun x => y * B_COLS + x)).
Qed.

Lemma length_shift_down (b : Board) (i : Z) : length (shift_down b i) = length b.
Proof.
  unfold shift_down. generalize (rev (seqZ 1 i)). intros ys. revert b.
  induction ys as [|y ys IH]; intros b; simpl; [reflexivity|].
  rewrite IH. apply length_copy_row.
Qed.

(** The clearing loop over any list of columns. *)
Lemma get_fold_clear (xs : list Z) (b : Board) (i j : Z) :
  length b = Z.to_nat B_SIZE -> 0 <= i < B_ROWS -> 0 <= j ->
  Forall (fun x => 0 <= x < B_COLS) xs ->
  get (foldl (fun b' x => set b' (i * B_COLS + x) 0) b xs) j
  = if existsb (fun x => j =? i * B_COLS + x) xs then 0 else get b j.
Proof.
  intros Hl Hi Hj Hxs. revert b Hl.
  induction Hxs as [|a xs Ha Hxs IH]; intros b Hl; simpl; [reflexivity|].
  rewrite IH by (rewrite length_set; exact Hl).
  destruct (existsb _ xs); [now rewrite orb_true_r|]. rewrite orb_false_r.
  destruct (Z.eqb_spec j (i * B_COLS + a)) as [->|Hne].
  - apply get_set_eq. rewrite Hl. consts. lia.
  - apply get_set_ne; consts; lia.
Qed.

(** The copying loop over any list of columns. *)
Lemma get_fold_copy (xs : list Z) (b : Board) (y j : Z) :
  length b = Z.to_nat B_SIZE -> 1 <= y < B_ROWS -> 0 <= j ->
  Forall (fun x => 0 <= x < B_COLS) xs ->
  get (foldl (fun b' x => set b' (y * B_COLS + x)
                              (get b' ((y - 1) * B_COLS + x))) b xs) j
  = if existsb (fun x => j =? y * B_COLS + x) xs then get b (j - B_COLS)
    else get b j.
Proof.
  intros Hl Hy Hj Hxs. revert b Hl.
  induction Hxs as [|a xs Ha Hxs IH]; intros b Hl; simpl; [reflexivity|].
  rewrite IH by (rewrite length_set; exact Hl).
  destruct (existsb _ xs) eqn:Ex.
  - rewrite orb_true_r.
    apply existsb_exists in Ex as [x' [Hin He]].
    pose proof (proj1 (Forall_forall _ _) Hxs x' Hin) as Hx'. cbv beta in Hx'.
    apply get_set_ne; consts; lia.
  - rewrite orb_false_r.
    destruct (Z.eqb_spec j (y * B_COLS + a)) as [->|Hne].
    + rewrite get_set_eq by (rewrite Hl; consts; lia).
      f_equal. consts. lia.
    + apply get_set_ne; consts; lia.
Qed.

Lemma COLS_in_row : Forall (fun x => 0 <= x < B_COLS) COLS.
Proof.
  apply Forall_forall. intros x Hx. apply In_COLS in Hx. consts. lia.
Qed.

Lemma get_clear_row (b : Board) (i r x : Z) :
  length b = Z.to_nat B_SIZE -> 0 <= i < B_ROWS ->
  0 <= r < B_ROWS -> 0 <= x < B_COLS ->
  get (clear_row b i) (r * B_COLS + x)
  = if (r =? i) && (1 <=? x) && (x <=? B_COLS - 2) then 0
    else get b (r * B_COLS + x).
Proof.
  intros Hl Hi Hr Hx. unfold clear_row.
  rewrite get_fold_clear by (auto using COLS_in_row; consts; lia).
  destruct (Z.eqb_spec r i) as [->|Hne].
  - rewrite (existsb_COLS (fun x' => i * B_COLS + x') _ i x) by auto.
    reflexivity.
  - cbn [andb].
    match goal with
    | |- context [existsb ?f COLS] => destruct (existsb f COLS) eqn:Ex
    end; [|reflexivity].
    apply existsb_exists in Ex as [x' [Hin He]]. apply In_COLS in Hin.
    consts. lia.
Qed.

Lemma get_copy_row (b : Board) (y r x : Z) :
  length b = Z.to_nat B_SIZE -> 1 <= y < B_ROWS ->
  0 <= r < B_ROWS -> 0 <= x < B_COLS ->
  get (copy_row b y) (r * B_COLS + x)
  = if (r =? y) && (1 <=? x) && (x <=? B_COLS - 2)
    then get b ((r - 1) * B_COLS + x)
    else get b (r * B_COLS + x).
Proof.
  intros Hl Hy Hr Hx. unfold copy_row.
  rewrite get_fold_copy by (auto using COLS_in_row; consts; lia).
  destruct (Z.eqb_spec r y) as [->|Hne].
  - rewrite (existsb_COLS (fun x' => y * B_COLS + x') _ y x) by auto.
    cbn [andb]. destruct ((1 <=? x) && (x <=? B_COLS - 2)); [|reflexivity].
    f_equal. consts. lia.
  - cbn [andb].
    match goal with
    | |- context [existsb ?f COLS] => destruct (existsb f COLS) eqn:Ex
    end; [|reflexivity].
    apply existsb_exists in Ex as [x' [Hin He]]. apply In_COLS in Hin.
    consts. lia.
Qed.

Lemma shift_down_succ (b : Board) (i : Z) :
  0 <= i -> shift_down b (i + 1) = shift_down (copy_row b (i + 1)) i.
Proof.
  intros Hi. unfold shift_down.
  rewrite seqZ_app by lia. rewrite rev_app_distr. simpl.
  replace (1 + i) with (i + 1) by lia. reflexivity.
Qed.

Lemma get_shift_down (b : Board) (i r x : Z) :
  length b = Z.to_nat B_SIZE -> 0 <= i < B_ROWS ->
  0 <= r < B_ROWS -> 0 <= x < B_COLS ->
  get (shift_down b i) (r * B_COLS + x)
  = if (1 <=? r) && (r <=? i) && (1 <=? x) && (x <=? B_COLS - 2)
    then get b ((r - 1) * B_COLS + x)
    else get b (r * B_COLS + x).
Proof.
  intros Hl [Hi0 Hi] Hr Hx. revert b Hl Hi.
  pattern i. apply natlike_ind; [| |exact Hi0]; clear i Hi0.
  - intros b Hl _. change (shift_down b 0) with b.
    destruct (Z.leb_spec 1 r); destruct (Z.leb_spec r 0); simpl;
      try reflexivity; lia.
  - intros i Hi0 IH b Hl Hi. unfold Z.succ in *.
    rewrite shift_down_succ by lia.
    rewrite IH by (rewrite ?length_copy_row; auto; lia).
    destruct (Z.leb_spec 1 r); destruct (Z.leb_spec r i);
    destruct (Z.leb_spec r (i + 1));
    destruct (Z.leb_spec 1 x); destruct (Z.leb_spec x (B_COLS - 2)); simpl;
    rewrite get_copy_row by (auto; lia);
    destruct (Z.eqb_spec (r - 1) (i + 1)); destruct (Z.eqb_spec r (i + 1));
    destruct (Z.leb_spec 1 x); destruct (Z.leb_spec x (B_COLS - 2)); simpl;
    try reflexivity; lia.
Qed.

Lemma clear_shift_shifted (b : Board) (i : Z) :
  length b = Z.to_nat B_SIZE -> 1 <= i <= B_ROWS - 3 ->
  shifted b i (shift_down (clear_row b i) i).
Proof.
  intros Hl Hi. split.
  - now rewrite length_shift_down, length_clear_row.
  - intros r x Hr Hx.
    rewrite get_shift_down by (rewrite ?length_clear_row; auto; consts; lia).
    destruct (Z.leb_spec 1 r); destruct (Z.leb_spec r i);
    destruct (Z.leb_spec 1 x); destruct (Z.leb_spec x (B_COLS - 2)); cbn [andb];
    rewrite get_clear_row by (auto; consts; lia);
    destruct (Z.eqb_spec (r - 1) i); destruct (Z.eqb_spec r i);
    destruct (Z.leb_spec 1 x); destruct (Z.leb_spec x (B_COLS - 2)); cbn [andb];
    try reflexivity; lia.
Qed.

Lemma forallb_agree (f g : Z -> bool) (l : list Z) :
  (forall x, In x l -> f x = g x) -> forallb f l = forallb g l.
Proof.
  induction l as [|a l IH]; intros H; simpl; [reflexivity|].
  rewrite (H a) by (left; reflexivity).
  rewrite IH; [reflexivity|]. intros x Hx. apply H. right. exact Hx.
Qed.

Lemma row_full_ext (b b' : Board) (r r' : Z) :
  (forall x, 1 <= x <= B_COLS - 2 ->
     get b' (r' * B_COLS + x) = get b (r * B_COLS + x)) ->
  row_full b' r' = row_full b r.
Proof.
  intros H. unfold row_full. apply forallb_agree.
  intros x Hx. apply In_COLS in Hx. now rewrite H.
Qed.

Lemma shifted_row_above (b b' : Board) (i r : Z) :
  shifted b i b' -> 1 <= r <= i -> i < B_ROWS ->
  row_full b' r = row_full b (r - 1).
Proof.
  intros [_ H] Hr Hi. apply row_full_ext. intros x Hx.
  rewrite H by (consts; lia).
  destruct (Z.leb_spec 1 r); destruct (Z.leb_spec r i);
  destruct (Z.leb_spec 1 x); destruct (Z.leb_spec x (B_COLS - 2)); cbn [andb];
  try reflexivity; lia.
Qed.

Lemma shifted_row_other (b b' : Board) (i r : Z) :
  shifted b i b' -> 0 <= r < B_ROWS -> r = 0 \/ i < r ->
  row_full b' r = row_full b r.
Proof.
  intros [_ H] Hr Hi. apply row_full_ext. intros x Hx.
  rewrite H by (consts; lia).
  destruct (Z.leb_spec 1 r); destruct (Z.leb_spec r i); cbn [andb];
  try reflexivity; lia.
Qed.

(** ** C5: what a clear and shift does to row 0 *)

(** The board [board_top_cell] arises in a game: after 47 iterations the piece
    cannot move down on a tick, and it is locked. *)
Lemma board_top_cell_in_game :
  exists tr g,
    play CLEAR_FUEL 47 (start top_input top_rand) = Ok (tr, Running g) /\
    c g < 0 /\
    fits_in (board g) (shape g) (pos g + B_COLS) = Ok false /\
    place (board g) (shape g) (pos g) (color g) = Ok board_top_cell.
Proof.
  exists (fst (top_game 47)), (state_of (snd (top_game 47))).
  split; [vm_compute; reflexivity|].
  split; [vm_compute; reflexivity|].
  split; vm_compute; reflexivity.
Qed.

(** The shift loop stops at [y = 1], which receives row 0: a clear and shift
    at a scanned row [i] leaves every cell of row 0 as it was, whatever it
    holds. *)
Lemma clear_shift_keeps_row0 (b : Board) (i : Z) :
  length b = Z.to_nat B_SIZE -> 1 <= i <= B_ROWS - 3 ->
  (forall x, 0 <= x < B_COLS ->
     get (shift_down (clear_row b i) i) (0 * B_COLS + x)
     = get b (0 * B_COLS + x)) /\
  (row_empty b 0 -> row_empty (shift_down (clear_row b i) i) 0).
Proof.
  intros Hl Hi.
  destruct (clear_shift_shifted b i Hl Hi) as [_ Hs].
  assert (H0 : forall x, 0 <= x < B_COLS ->
     get (shift_down (clear_row b i) i) (0 * B_COLS + x)
     = get b (0 * B_COLS + x)).
  { intros x Hx. rewrite Hs by (auto; consts; lia). reflexivity. }
  split; [exact H0|].
  intros He x Hx. rewrite H0 by (consts; lia). apply He, Hx.
Qed.

(** C5. The code does not do what the claim says when row 0 holds a cell: the
    shift loop copies row [y - 1] to row [y] for [y = i .. 1] and nothing
    vacates row 0, although its comment says that everything above row [i]
    is shifted down.  In the game of [top_input] and [top_rand] an S piece
    is locked with two cells in row 0, and the eleventh piece, locked on a
    tick after 47 iterations, completes row 20.  After the clear and the
    shift the two cells are still in row 0 and are in row 1 as well: of the 36
    cells of the field the clear takes 10, and the shift leaves 28.  The game
    goes on with this board. *)
Theorem top_game_keeps_row0 :
  exists tr g b,
    play CLEAR_FUEL 47 (start top_input top_rand) = Ok (tr, Running g) /\
    c g < 0 /\
    fits_in (board g) (shape g) (pos g + B_COLS) = Ok false /\
    place (board g) (shape g) (pos g) (color g) = Ok b /\
    row_full b 20 = true /\
    ~ row_empty (shift_down (clear_row b 20) 20) 0 /\
    Forall (fun x =>
              get b (0 * B_COLS + x) <> 0 /\
              get (shift_down (clear_row b 20) 20) (0 * B_COLS + x)
              = get b (0 * B_COLS + x) /\
              get (shift_down (clear_row b 20) 20) (1 * B_COLS + x)
              = get b (0 * B_COLS + x)) [1; 2] /\
    filled b = 36 /\ filled (clear_row b 20) = 26 /\
    filled (shift_down (clear_row b 20) 20) = 28 /\
    exists tr' g',
      play CLEAR_FUEL 48 (start top_input top_rand) = Ok (tr', Running g') /\
      sum_cleared tr' = 1 /\
      board g' = shift_down (clear_row b 20) 20.
Proof.
  exists (fst (top_game 47)), (state_of (snd (top_game 47))), board_top_cell.
  split; [vm_compute; reflexivity|].
  split; [vm_compute; reflexivity|].
  split; [vm_compute; reflexivity|].
  split; [vm_compute; reflexivity|].
  split; [vm_compute; reflexivity|].
  split.
  { intros H. specialize (H 1 ltac:(consts; lia)). vm_compute in H.
    discriminate. }
  split.
  { repeat constructor; vm_compute; congruence. }
  split; [vm_compute; reflexivity|].
  split; [vm_compute; reflexivity|].
  split; [vm_compute; reflexivity|].
  exists (fst (top_game 48)), (state_of (snd (top_game 48))).
  split; [vm_compute; reflexivity|].
  split; vm_compute; reflexivity.
Qed.

(** ** [update]: it always returns, and touches the level counters and the input only *)

Lemma wrap_int_id (x : Z) : INT_MIN <= x <= INT_MAX -> wrap_int x = x.
Proof.
  unfold wrap_int, wrap, INT_MIN, INT_MAX. intros H.
  change (2 ^ (32 - 1)) with 2147483648. change (2 ^ 32) with 4294967296.
  change (2 ^ 31) with 2147483648 in H.
  rewrite Z.mod_small; lia.
Qed.

Lemma wrap_long_id (x : Z) : LONG_MIN <= x <= LONG_MAX -> wrap_long x = x.
Proof.
  unfold wrap_long, wrap, LONG_MIN, LONG_MAX. intros H.
  change (2 ^ (64 - 1)) with 9223372036854775808.
  change (2 ^ 64) with 18446744073709551616.
  change (2 ^ 63) with 9223372036854775808 in H.
  rewrite Z.mod_small; lia.
Qed.

Lemma level_loop_total (fuel : nat) (lv lc : Z) :
  lc < 10 * (Z.of_nat fuel + 1) -> exists r, level_loop fuel lv lc = Ok r.
Proof.
  revert lv lc. induction fuel as [|fuel IH]; intros lv lc H; simpl.
  - destruct (Z.ltb_spec lc 10); [eauto|lia].
  - destruct (Z.ltb_spec lc 10); [eauto|]. apply IH. lia.
Qed.

(** Without overflow of [level], the loop adds [lc / 10] to the level and
    leaves [lc mod 10]. *)
Lemma level_loop_value (fuel : nat) (lv lc lv' lc' : Z) :
  level_loop fuel lv lc = Ok (lv', lc') ->
  0 <= lc -> INT_MIN <= lv -> lv + lc / 10 <= INT_MAX ->
  lv' = lv + lc / 10 /\ lc' = lc mod 10.
Proof.
  revert lv lc. induction fuel as [|fuel IH]; intros lv lc H H0 H1 H2;
    simpl in H; destruct (Z.ltb_spec lc 10).
  - injection H as <- <-. rewrite Z.div_small, Z.mod_small; lia.
  - discriminate.
  - injection H as <- <-. rewrite Z.div_small, Z.mod_small; lia.
  - assert (E : lc / 10 = (lc - 10) / 10 + 1).
    { replace lc with ((lc - 10) + 1 * 10) at 1 by lia.
      rewrite Z.div_add by lia. reflexivity. }
    assert (E' : lc mod 10 = (lc - 10) mod 10).
    { replace lc with ((lc - 10) + 1 * 10) at 1 by lia.
      rewrite Z.mod_add by lia. reflexivity. }
    assert (0 <= (lc - 10) / 10) by (apply Z.div_pos; lia).
    rewrite wrap_int_id in H by lia.
    apply IH in H; [|lia|lia|lia]. lia.
Qed.

Lemma level_loop_small (fuel : nat) (lv lc : Z) :
  lc < 10 -> level_loop fuel lv lc = Ok (lv, lc).
Proof.
  intros H. destruct fuel; simpl; destruct (Z.ltb_spec lc 10); auto; lia.
Qed.

Lemma update_shape (g : game) :
  exists lv lc,
    level_loop (Z.to_nat (lines_cleared g)) (level g) (lines_cleared g)
      = Ok (lv, lc) /\
    update g = Ok (hd EOF (stdin g),
                   set_stdin (tl (stdin g)) (set_score lv (points g) lc g)).
Proof.
  destruct (level_loop_total (Z.to_nat (lines_cleared g)) (level g)
              (lines_cleared g)) as [[lv lc] E]; [lia|].
  exists lv, lc. split; [exact E|].
  unfold update. rewrite E. cbn [rbind fst snd]. unfold getchar.
  cbn [stdin set_score]. destruct g as [b s co pk pc l p lcl cc po inp rn].
  cbn. destruct inp; reflexivity.
Qed.

Lemma update_total (g : game) : exists k g', update g = Ok (k, g').
Proof.
  destruct (update_shape g) as (lv & lc & _ & E). eauto.
Qed.

Lemma update_keeps (g g' : game) (k : Z) :
  update g = Ok (k, g') ->
  board g' = board g /\ shape g' = shape g /\ color g' = color g /\
  peek_shape g' = peek_shape g /\ pos g' = pos g /\ points g' = points g /\
  c g' = c g /\ rand_src g' = rand_src g.
Proof.
  destruct (update_shape g) as (lv & lc & _ & E). rewrite E.
  intros H. injection H as _ <-. cbn. tauto.
Qed.

(** ** The line-clear loop *)

Lemma clear_loop_done (fuel : nat) (i cl : Z) (g : game) :
  B_ROWS - 2 <= i -> clear_loop fuel i cl g = Ok (cl, g).
Proof.
  intros H. destruct fuel; simpl;
    destruct (Z.ltb_spec i (B_ROWS - 2)); auto; lia.
Qed.

(** A row that is not full is passed. *)
Lemma clear_loop_skip (fuel : nat) (i cl : Z) (g : game) :
  i < B_ROWS - 2 -> row_full (board g) i = false ->
  clear_loop (S fuel) i cl g = clear_loop fuel (i + 1) cl g.
Proof.
  intros H Hf. simpl. destruct (Z.ltb_spec i (B_ROWS - 2)); [|lia].
  now rewrite Hf.
Qed.

Lemma update_counters (g g' : game) (k : Z) :
  update g = Ok (k, g') -> lines_cleared g < 10 ->
  level g' = level g /\ lines_cleared g' = lines_cleared g.
Proof.
  destruct (update_shape g) as (lv & lc & El & E). rewrite E.
  intros [= _ <-] Hs. rewrite level_loop_small in El by exact Hs.
  injection El as <- <-. cbn. auto.
Qed.

(** A full row is cleared, the rows above are shifted, and the loop goes on at
    the same row index.  The two calls of [update] in between leave the
    counters alone when [lines_cleared] is below 10. *)
Lemma clear_loop_hit (fuel : nat) (i cl : Z) (g : game) :
  i < B_ROWS - 2 -> row_full (board g) i = true ->
  exists g4, board g4 = shift_down (clear_row (board g) i) i /\
    peek_shape g4 = peek_shape g /\ points g4 = points g /\
    (lines_cleared g < 10 ->
     level g4 = level g /\ lines_cleared g4 = lines_cleared g) /\
    clear_loop (S fuel) i cl g = clear_loop fuel i (wrap_int (cl + 1)) g4.
Proof.
  intros H Hf. simpl. destruct (Z.ltb_spec i (B_ROWS - 2)); [|lia].
  rewrite Hf.
  destruct (update_total (set_board (clear_row (board g) i) g))
    as (k1 & g1 & E1).
  rewrite E1. cbn [rbind fst snd].
  pose proof (update_counters _ _ _ E1) as Hc1.
  apply update_keeps in E1 as (Hb1 & _ & _ & Hk1 & _ & Hp1 & _).
  match goal with
  | |- context [update ?a] => destruct (update_total a) as (k2 & g2 & E2)
  end.
  rewrite E2. cbn [rbind fst snd].
  pose proof (update_counters _ _ _ E2) as Hc2.
  apply update_keeps in E2 as (Hb2 & _ & _ & Hk2 & _ & Hp2 & _).
  exists (set_c k2 g2). cbn in *.
  rewrite Hb2, Hb1, Hk2, Hk1, Hp2, Hp1.
  split; [reflexivity|]. split; [reflexivity|]. split; [reflexivity|].
  split; [|reflexivity].
  intros Hs. destruct (Hc1 Hs) as [E3 E4].
  rewrite <- E3, <- E4. apply Hc2. rewrite E4. exact Hs.
Qed.

Lemma filter_rows_cons (b : Board) (i : Z) :
  i < B_ROWS - 2 ->
  List.filter (row_full b) (seqZ i (B_ROWS - 2 - i))
  = (if row_full b i then [i] else [])
    ++ List.filter (row_full b) (seqZ (i + 1) (B_ROWS - 2 - (i + 1))).
Proof.
  intros H. rewrite seqZ_cons by lia. simpl.
  replace (Z.succ i) with (i + 1) by lia.
  replace (Z.pred (B_ROWS - 2 - i)) with (B_ROWS - 2 - (i + 1)) by lia.
  destruct (row_full b i); reflexivity.
Qed.

Lemma need_bounds (i : Z) (b : Board) :
  1 <= i <= B_ROWS - 2 -> 0 <= need i b <= 2 * (B_ROWS - 2 - i).
Proof.
  intros H. unfold need. destruct (Z.ltb_spec i (B_ROWS - 2));
    destruct (row_full b i); lia.
Qed.

Lemma clear_loop_spec (fuel : nat) :
  forall (i cl : Z) (g : game),
  length (board g) = Z.to_nat B_SIZE -> 1 <= i <= B_ROWS - 2 ->
  0 <= cl -> cl + need i (board g) <= INT_MAX ->
  row_full (board g) 0 = false ->
  (forall r, 1 <= r < i -> row_full (board g) r = false) ->
  need i (board g) <= Z.of_nat fuel ->
  let rs := List.filter (row_full (board g)) (seqZ i (B_ROWS - 2 - i)) in
  exists g',
    clear_loop fuel i cl g = Ok (cl + Z.of_nat (length rs), g') /\
    cleared (board g) rs (board g') /\
    row_full (board g') 0 = false /\
    (forall r, 1 <= r < B_ROWS - 2 -> row_full (board g') r = false).
Proof.
  induction fuel as [|fuel IH]; intros i cl g Hl Hi Hcl Hmax H0 Hup Hfuel rs.
  - (* no iteration left: the loop is at its end *)
    assert (i = B_ROWS - 2) as ->.
    { unfold need in Hfuel. destruct (Z.ltb_spec i (B_ROWS - 2)); [|lia].
      destruct (row_full (board g) i); lia. }
    subst rs. rewrite clear_loop_done by lia.
    replace (B_ROWS - 2 - (B_ROWS - 2)) with 0 by lia.
    exists g. cbn. rewrite Z.add_0_r. repeat split; auto. constructor.
  - destruct (Z.eq_dec i (B_ROWS - 2)) as [->|Hne].
    { subst rs. rewrite clear_loop_done by lia.
      replace (B_ROWS - 2 - (B_ROWS - 2)) with 0 by lia.
      exists g. cbn. rewrite Z.add_0_r. repeat split; auto. constructor. }
    assert (Hlt : i < B_ROWS - 2) by lia.
    subst rs. rewrite filter_rows_cons by exact Hlt.
    unfold need in Hfuel, Hmax.
    destruct (Z.ltb_spec i (B_ROWS - 2)); [|lia].
    destruct (row_full (board g) i) eqn:Hf.
    + (* row i is full *)
      destruct (clear_loop_hit fuel i cl g Hlt Hf) as (g4 & Hb4 & _ & _ & _ & ->).
      pose proof (clear_shift_shifted (board g) i Hl ltac:(lia)) as Hs.
      rewrite <- Hb4 in Hs.
      assert (Hl4 : length (board g4) = Z.to_nat B_SIZE).
      { destruct Hs as [-> _]. exact Hl. }
      assert (H04 : row_full (board g4) 0 = false).
      { rewrite (shifted_row_other _ _ i 0 Hs); [exact H0|consts; lia|lia]. }
      assert (Hup4 : forall r, 1 <= r < i + 1 -> row_full (board g4) r = false).
      { intros r Hr.
        rewrite (shifted_row_above _ _ i r Hs) by (consts; lia).
        destruct (Z.eq_dec r 1) as [->|]; [exact H0|]. apply Hup. lia. }
      assert (Hfi : row_full (board g4) i = false) by (apply Hup4; lia).
      rewrite wrap_int_id by (unfold INT_MIN; lia).
      destruct (IH i (cl + 1) g4) as (g' & E & Hc & H0' & Hall);
        try assumption; try lia.
      * unfold need. destruct (Z.ltb_spec i (B_ROWS - 2)); [|lia].
        rewrite Hfi. lia.
      * intros r Hr. apply Hup4. lia.
      * unfold need. destruct (Z.ltb_spec i (B_ROWS - 2)); [|lia].
        rewrite Hfi. lia.
      * rewrite filter_rows_cons in E, Hc by exact Hlt.
        rewrite Hfi in E, Hc. cbn [app] in E, Hc.
        assert (Hsame :
          List.filter (row_full (board g4)) (seqZ (i + 1) (B_ROWS - 2 - (i + 1)))
          = List.filter (row_full (board g)) (seqZ (i + 1) (B_ROWS - 2 - (i + 1)))).
        { apply filter_ext_in. intros r Hr.
          apply list_elem_of_In, elem_of_seqZ in Hr.
          apply (shifted_row_other _ _ i r Hs); consts; lia. }
        rewrite Hsame in E, Hc.
        exists g'. split; [|split; [|split]]; auto.
        -- rewrite E. f_equal. f_equal. cbn [app length]. lia.
        -- cbn [app]. apply (cleared_cons _ i (board g4)); auto.
    + (* row i is not full *)
      rewrite clear_loop_skip by assumption. cbn [app].
      destruct (IH (i + 1) cl g) as (g' & E & Hc & H0' & Hall);
        try assumption; try lia.
      * pose proof (need_bounds (i + 1) (board g) ltac:(lia)). lia.
      * intros r Hr. destruct (Z.eq_dec r i) as [->|]; [exact Hf|].
        apply Hup. lia.
      * pose proof (need_bounds (i + 1) (board g) ltac:(lia)). lia.
      * exists g'. auto.
Qed.

(** When rows 0 and 1 are both full the loop never leaves row 1: the shift
    refills row 1 from row 0, which nothing clears. *)
Lemma clear_loop_diverges (fuel : nat) :
  forall (cl : Z) (g : game),
  length (board g) = Z.to_nat B_SIZE ->
  row_full (board g) 0 = true -> row_full (board g) 1 = true ->
  clear_loop fuel 1 cl g = Err Diverges.
Proof.
  induction fuel as [|fuel IH]; intros cl g Hl H0 H1; [reflexivity|].
  destruct (clear_loop_hit fuel 1 cl g ltac:(consts; lia) H1)
    as (g4 & Hb & _ & _ & _ & ->).
  pose proof (clear_shift_shifted (board g) 1 Hl ltac:(consts; lia)) as Hs.
  rewrite <- Hb in Hs. apply IH.
  - destruct Hs as [-> _]. exact Hl.
  - rewrite (shifted_row_other _ _ 1 0 Hs); [exact H0|consts; lia|lia].
  - rewrite (shifted_row_above _ _ 1 1 Hs) by (consts; lia). exact H0.
Qed.

(** For instance on [board_top_two]. *)
Lemma clear_loop_diverges_top_two (fuel : nat) :
  clear_loop fuel 1 0 (game_on board_top_two) = Err Diverges.
Proof. apply clear_loop_diverges; vm_compute; reflexivity. Qed.

(** More iterations do not change the result of a loop that has ended. *)
Lemma clear_loop_mono (fuel : nat) :
  forall (fuel' : nat) (i cl : Z) (g : game) (r : Z * game),
  (fuel <= fuel')%nat ->
  clear_loop fuel i cl g = Ok r -> clear_loop fuel' i cl g = Ok r.
Proof.
  induction fuel as [|fuel IH]; intros fuel' i cl g r Hle.
  - simpl. destruct (Z.ltb_spec i (B_ROWS - 2)); [discriminate|].
    intros [= <-]. apply clear_loop_done. lia.
  - destruct fuel' as [|fuel']; [lia|].
    destruct (Z.lt_ge_cases i (B_ROWS - 2)) as [Hlt|Hge].
    + destruct (row_full (board g) i) eqn:Hf.
      * simpl. destruct (Z.ltb_spec i (B_ROWS - 2)); [|lia]. rewrite Hf.
        destruct (update (set_board (clear_row (board g) i) g)) as [u1|];
          cbn [rbind]; [|discriminate].
        match goal with
        | |- context [update ?a] => destruct (update a) as [u2|]
        end; cbn [rbind]; [|discriminate].
        apply IH. lia.
      * rewrite !clear_loop_skip by assumption. apply IH. lia.
    + rewrite !clear_loop_done by exact Hge. auto.
Qed.

(** ** C4: one clear-cycle *)

(** The board [board_top_full] arises in a game: after 193 iterations the last
    piece stands at the spawn cell, cannot move down on a tick, and is
    locked. *)
Lemma board_top_full_in_game :
  exists tr g,
    play CLEAR_FUEL 193 (start late_input late_rand) = Ok (tr, Running g) /\
    c g < 0 /\
    fits_in (board g) (shape g) (pos g + B_COLS) = Ok false /\
    place (board g) (shape g) (pos g) (color g) = Ok board_top_full.
Proof.
  exists (fst (late_game 193)), (state_of (snd (late_game 193))).
  split; [vm_compute; reflexivity|].
  split; [vm_compute; reflexivity|].
  split; vm_compute; reflexivity.
Qed.

(** The next iteration of that game locks the piece, clears one row, and ends
    the game with row 1 full. *)
Lemma late_game_ends_with_full_row :
  exists tr g,
    play CLEAR_FUEL 194 (start late_input late_rand) = Ok (tr, Exited g) /\
    lines_cleared g = 1 /\
    row_full (board g) 1 = true.
Proof.
  exists (fst (late_game 194)), (state_of (snd (late_game 194))).
  split; [vm_compute; reflexivity|].
  split; vm_compute; reflexivity.
Qed.

(** When row 0 is not full at the start of the cycle, the loop ends (40
    iterations are enough), it returns as [clears] the number of scanned rows
    that were full, the board is the one obtained by taking out these rows
    from the top down, each time moving the rows above down by one, and no
    scanned row is full afterwards. *)
Lemma clear_cycle_removes_full_rows (fuel : nat) (g : game) :
  length (board g) = Z.to_nat B_SIZE ->
  row_full (board g) 0 = false ->
  (CLEAR_FUEL <= fuel)%nat ->
  exists g',
    clear_loop fuel 1 0 g
      = Ok (Z.of_nat (length (full_rows (board g))), g') /\
    cleared (board g) (full_rows (board g)) (board g') /\
    Forall (fun r => row_full (board g') r = false) SCANNED.
Proof.
  intros Hl H0 Hfuel.
  pose proof (need_bounds 1 (board g) ltac:(consts; lia)) as Hn.
  assert (Hi : 1 <= 1 <= B_ROWS - 2) by (consts; lia).
  assert (Hmax : 0 + need 1 (board g) <= INT_MAX)
    by (unfold INT_MAX; consts; lia).
  assert (Hup : forall r, 1 <= r < 1 -> row_full (board g) r = false)
    by (intros; lia).
  assert (Hf : need 1 (board g) <= Z.of_nat fuel)
    by (unfold CLEAR_FUEL in Hfuel; consts; lia).
  destruct (clear_loop_spec fuel 1 0 g Hl Hi ltac:(lia) Hmax H0 Hup Hf)
    as (g' & E & Hc & _ & Hall).
  exists g'. split; [exact E|]. split; [exact Hc|].
  apply Forall_forall. intros r Hr. apply Hall.
  apply list_elem_of_In, elem_of_seqZ in Hr. consts. lia.
Qed.

(** C4. The code does not do what the claim says when row 0 is full.  In the
    game of [late_input] and [late_rand] the last piece, a T standing at the
    spawn cell, is locked on a tick after 193 iterations and completes rows 0
    and 2, while row 1 has two holes.  The clear-cycle passes row 1, clears
    row 2 and shifts the rows above it down: row 1 receives the full row 0,
    which nothing vacates.  The cycle is complete with one row cleared, and
    row 1, a scanned row, is full; the loop examines a row again only at the
    index of a clear, and the row that the shift has filled lies above it.
    The game ends with this board at the next piece. *)
Theorem late_game_leaves_full_row :
  exists tr g b g1,
    play CLEAR_FUEL 193 (start late_input late_rand) = Ok (tr, Running g) /\
    c g < 0 /\
    fits_in (board g) (shape g) (pos g + B_COLS) = Ok false /\
    place (board g) (shape g) (pos g) (color g) = Ok b /\
    row_full b 0 = true /\ full_rows b = [2] /\
    (forall fuel, (CLEAR_FUEL <= fuel)%nat ->
       clear_loop fuel 1 0 (set_board b g) = Ok (1, g1)) /\
    full_rows (board g1) = [1] /\
    exists tr' g',
      play CLEAR_FUEL 194 (start late_input late_rand) = Ok (tr', Exited g') /\
      sum_cleared tr' = 1 /\
      board g' = board g1.
Proof.
  destruct (clear_loop CLEAR_FUEL 1 0
              (set_board board_top_full (state_of (snd (late_game 193)))))
    as [[cl g1]|f] eqn:E; [|vm_compute in E; discriminate].
  assert (H : cl = 1 /\ full_rows (board g1) = [1] /\
              board (state_of (snd (late_game 194))) = board g1).
  { vm_compute in E. injection E as <- <-.
    split; [reflexivity|]. split; vm_compute; reflexivity. }
  destruct H as (-> & H1 & H2).
  exists (fst (late_game 193)), (state_of (snd (late_game 193))),
         board_top_full, g1.
  split; [vm_compute; reflexivity|].
  split; [vm_compute; reflexivity|].
  split; [vm_compute; reflexivity|].
  split; [vm_compute; reflexivity|].
  split; [vm_compute; reflexivity|].
  split; [vm_compute; reflexivity|].
  split; [intros fuel Hfuel; exact (clear_loop_mono _ _ _ _ _ _ Hfuel E)|].
  split; [exact H1|].
  exists (fst (late_game 194)), (state_of (snd (late_game 194))).
  split; [vm_compute; reflexivity|].
  split; [vm_compute; reflexivity|exact H2].
Qed.

(** ** Scoring *)

Lemma wrap_long_range (x : Z) : LONG_MIN <= wrap_long x <= LONG_MAX.
Proof.
  unfold wrap_long, wrap, LONG_MIN, LONG_MAX.
  change (2 ^ (64 - 1)) with 9223372036854775808.
  change (2 ^ 64) with 18446744073709551616.
  change (2 ^ 63) with 9223372036854775808.
  pose proof (Z.mod_pos_bound (x + 9223372036854775808) 18446744073709551616
                ltac:(lia)). lia.
Qed.

(** No [long] converts to a [double] above [2^63], which is what [LONG_MAX]
    itself converts to. *)
Lemma double_of_long_max : double_of_long LONG_MAX = 2 ^ 63.
Proof. vm_compute. reflexivity. Qed.

Lemma double_of_long_le (x : Z) :
  LONG_MIN <= x <= LONG_MAX -> double_of_long x <= 2 ^ 63.
Proof.
  intros Hx. unfold double_of_long.
  destruct (Z.ltb_spec (Z.abs x) (2 ^ 53)) as [Hs|Hb].
  - unfold LONG_MAX in Hx. lia.
  - destruct (Z.le_gt_cases x 0) as [Hneg|Hpos].
    + (* the result has the sign of x *)
      set (e := Z.log2 (Z.abs x) - 52).
      set (q := Z.abs x / 2 ^ e).
      assert (0 <= e).
      { subst e. assert (53 <= Z.log2 (Z.abs x)); [|lia].
        apply Z.log2_le_pow2; lia. }
      assert (0 < 2 ^ e) by (apply Z.pow_pos_nonneg; lia).
      assert (0 <= q) by (subst q; apply Z.div_pos; lia).
      assert (Hq : 0 <= (if Z.abs x mod 2 ^ e <? 2 ^ (e - 1) then q
                    else if 2 ^ (e - 1) <? Z.abs x mod 2 ^ e then q + 1
                    else if Z.even q then q else q + 1))
        by (repeat match goal with |- context [if ?t then _ else _] =>
                     destruct t end; lia).
      assert (Z.sgn x <= 0) by lia.
      assert (Z.sgn x = 0 \/ Z.sgn x = -1) as [->| ->] by lia; lia.
    + rewrite Z.abs_eq in * by lia. rewrite Z.sgn_pos by lia.
      set (e := Z.log2 x - 52).
      set (q := x / 2 ^ e).
      assert (He : 1 <= e <= 10).
      { subst e. assert (53 <= Z.log2 x < 63); [|lia]. split.
        - apply Z.log2_le_pow2; lia.
        - apply Z.log2_lt_pow2; unfold LONG_MAX in Hx; lia. }
      assert (0 < 2 ^ e) by (apply Z.pow_pos_nonneg; lia).
      assert (Hq : q < 2 ^ 53).
      { subst q. apply Z.div_lt_upper_bound; [lia|].
        rewrite <- Z.pow_add_r by lia.
        replace (e + 53) with (Z.succ (Z.log2 x)) by (subst e; lia).
        apply Z.log2_spec. lia. }
      assert (0 <= q) by (subst q; apply Z.div_pos; lia).
      assert (Hq' : (if x mod 2 ^ e <? 2 ^ (e - 1) then q
                    else if 2 ^ (e - 1) <? x mod 2 ^ e then q + 1
                    else if Z.even q then q else q + 1) <= 2 ^ 53)
        by (repeat match goal with |- context [if ?t then _ else _] =>
                     destruct t end; lia).
      assert (2 ^ 53 * 2 ^ e <= 2 ^ 63).
      { rewrite <- Z.pow_add_r by lia. apply Z.pow_le_mono_r; lia. }
      nia.
Qed.

(** The overflow test [ofcheck > LONG_MAX] is false for every state: the sum
    is formed in [long] before it is converted. *)
Lemma score_never_breaks (clears : Z) (g : game) (f : flow) :
  score clears g = Ok f -> exists g', f = Next g'.
Proof.
  unfold score. destruct (0 <? clears); [|intros [= <-]; eauto].
  destruct (score_table !! Z.to_nat clears) as [base|]; [|discriminate].
  pose proof (double_of_long_le
                (wrap_long (points g + wrap_int (base * level g)))
                (wrap_long_range _)) as Hle.
  rewrite double_of_long_max.
  destruct (Z.ltb_spec (2 ^ 63)
    (double_of_long (wrap_long (points g + wrap_int (base * level g)))));
    [lia|].
  intros [= <-]. eauto.
Qed.

(** The scoring block when nothing overflows. *)
Lemma score_value (clears base : Z) (g : game) :
  0 < clears -> score_table !! Z.to_nat clears = Some base ->
  INT_MIN <= base * level g <= INT_MAX ->
  LONG_MIN <= points g + base * level g <= LONG_MAX ->
  score clears g
  = Ok (Next (set_score (level g) (points g + base * level g)
                        (wrap_int (lines_cleared g + clears)) g)).
Proof.
  intros Hc Hb Hi Hp. unfold score.
  destruct (Z.ltb_spec 0 clears); [|lia]. rewrite Hb. cbv zeta.
  rewrite (wrap_int_id (base * level g)) by exact Hi.
  rewrite wrap_long_id by exact Hp.
  rewrite double_of_long_max.
  pose proof (double_of_long_le (points g + base * level g) Hp).
  destruct (Z.ltb_spec (2 ^ 63) (double_of_long (points g + base * level g)));
    [lia|reflexivity].
Qed.

(** The scoring block for [clears] in 0 .. 4, when nothing overflows. *)
Lemma score_points (clears : Z) (g : game) :
  0 <= clears <= 4 ->
  0 <= level g -> 1200 * level g <= INT_MAX ->
  LONG_MIN <= points g -> points g + 1200 * level g <= LONG_MAX ->
  exists g',
    score clears g = Ok (Next g') /\
    points g' = points g + base_points clears * level g /\
    level g' = level g /\
    (clears = 0 -> points g' = points g).
Proof.
  intros Hc Hl Hi Hp Hs.
  assert (Hcases : clears = 0 \/ clears = 1 \/ clears = 2 \/ clears = 3 \/
                   clears = 4) by lia.
  destruct Hcases as [->|[->|[->|[->| ->]]]].
  - exists g. cbn. repeat split; lia.
  - eexists. split; [apply (score_value 1 40); try reflexivity;
      unfold INT_MIN, LONG_MIN in *; lia|].
    cbn. repeat split; lia.
  - eexists. split; [apply (score_value 2 100); try reflexivity;
      unfold INT_MIN, LONG_MIN in *; lia|].
    cbn. repeat split; lia.
  - eexists. split; [apply (score_value 3 300); try reflexivity;
      unfold INT_MIN, LONG_MIN in *; lia|].
    cbn. repeat split; lia.
  - eexists. split; [apply (score_value 4 1200); try reflexivity;
      unfold INT_MIN, LONG_MIN in *; lia|].
    cbn. repeat split; lia.
Qed.

(** ** C8: rotation *)

(** Successor and predecessor are inverse to each other on the catalog. *)
Lemma catalog_links (k : Z) :
  0 <= k < N_SHAPES ->
  find_prev (sh (5 * k) 0) = k /\ sh (5 * find_prev k) 0 = k /\
  0 <= sh (5 * k) 0 < N_SHAPES /\ 0 <= find_prev k < N_SHAPES.
Proof.
  intros Hk.
  assert (H : forallb (fun k =>
               (find_prev (sh (5 * k) 0) =? k) &&
               (sh (5 * find_prev k) 0 =? k) &&
               (0 <=? sh (5 * k) 0) && (sh (5 * k) 0 <? N_SHAPES) &&
               (0 <=? find_prev k) && (find_prev k <? N_SHAPES))
             (seqZ 0 N_SHAPES) = true) by (vm_compute; reflexivity).
  pose proof (forallb_seqZ _ _ _ H k Hk) as Hk'. cbv beta in Hk'. lia.
Qed.

Lemma quot_5 (a : Z) : Z.quot (5 * a) 5 = a.
Proof. rewrite (Z.mul_comm 5 a). apply Z.quot_mul. lia. Qed.

Lemma set_shape_same (g : game) : set_shape (shape g) g = g.
Proof. destruct g. reflexivity. Qed.

Lemma set_shape_twice (s s' : Z) (g : game) :
  set_shape s (set_shape s' g) = set_shape s g.
Proof. reflexivity. Qed.

(** C8. Let the active piece be a catalog entry that fits at its anchor.
    If its successor fits there, [KEY_RROTATE] moves to the successor and
    [KEY_ROTATE] then returns to the original state; if its predecessor fits,
    [KEY_ROTATE] moves to the predecessor and [KEY_RROTATE] returns; and a
    rotation whose result does not fit leaves the state, shape and anchor, as
    it was. *)
Theorem rotations_are_inverse (g : game) :
  shape_ptr (shape g) ->
  fits_in (board g) (shape g) (pos g) = Ok true ->
  (fits_in (board g) (5 * sh (shape g) 0) (pos g) = Ok true ->
   exists g1, on_rrotate g = Ok g1 /\
              shape g1 = 5 * sh (shape g) 0 /\ pos g1 = pos g /\
              on_rotate g1 = Ok g) /\
  (fits_in (board g) (5 * find_prev (Z.quot (shape g) 5)) (pos g) = Ok true ->
   exists g1, on_rotate g = Ok g1 /\
              shape g1 = 5 * find_prev (Z.quot (shape g) 5) /\
              pos g1 = pos g /\
              on_rrotate g1 = Ok g) /\
  (fits_in (board g) (5 * sh (shape g) 0) (pos g) = Ok false ->
   on_rrotate g = Ok g) /\
  (fits_in (board g) (5 * find_prev (Z.quot (shape g) 5)) (pos g) = Ok false ->
   on_rotate g = Ok g).
Proof.
  intros (k & Hk & Hs) Hfit.
  destruct (catalog_links k Hk) as (Hps & Hsp & Hsr & Hpr).
  assert (Hq : Z.quot (shape g) 5 = k) by (rewrite Hs; apply quot_5).
  rewrite Hq, Hs. repeat split.
  - intros Hnext. exists (set_shape (5 * sh (5 * k) 0) g).
    unfold on_rrotate. rewrite Hs, Hnext. cbn [rbind].
    repeat split.
    unfold on_rotate. cbn [shape board pos set_shape].
    rewrite quot_5.
    rewrite Hps, <- Hs, Hfit. cbn [rbind].
    rewrite set_shape_twice. now rewrite set_shape_same.
  - intros Hprev. exists (set_shape (5 * find_prev k) g).
    unfold on_rotate. rewrite Hq, Hprev. cbn [rbind].
    repeat split.
    unfold on_rrotate. cbn [shape board pos set_shape].
    rewrite Hsp, <- Hs, Hfit. cbn [rbind].
    rewrite set_shape_twice. now rewrite set_shape_same.
  - intros Hnext. unfold on_rrotate. rewrite Hs, Hnext. cbn [rbind].
    rewrite <- Hs. now rewrite set_shape_same.
  - intros Hprev. unfold on_rotate. rewrite Hq, Hprev. cbn [rbind].
    now rewrite set_shape_same.
Qed.

Lemma rotations_are_inverse_witness :
  (fits_in (board (game_at 10 65)) (5 * sh (shape (game_at 10 65)) 0)
           (pos (game_at 10 65)) = Ok true ->
   exists g1, on_rrotate (game_at 10 65) = Ok g1 /\
              shape g1 = 5 * sh (shape (game_at 10 65)) 0 /\
              pos g1 = pos (game_at 10 65) /\
              on_rotate g1 = Ok (game_at 10 65)) /\
  (fits_in (board (game_at 10 65))
           (5 * find_prev (Z.quot (shape (game_at 10 65)) 5))
           (pos (game_at 10 65)) = Ok true ->
   exists g1, on_rotate (game_at 10 65) = Ok g1 /\
              shape g1 = 5 * find_prev (Z.quot (shape (game_at 10 65)) 5) /\
              pos g1 = pos (game_at 10 65) /\
              on_rrotate g1 = Ok (game_at 10 65)) /\
  (fits_in (board (game_at 10 65)) (5 * sh (shape (game_at 10 65)) 0)
           (pos (game_at 10 65)) = Ok false ->
   on_rrotate (game_at 10 65) = Ok (game_at 10 65)) /\
  (fits_in (board (game_at 10 65))
           (5 * find_prev (Z.quot (shape (game_at 10 65)) 5))
           (pos (game_at 10 65)) = Ok false ->
   on_rotate (game_at 10 65) = Ok (game_at 10 65)).
Proof.
  apply (rotations_are_inverse (game_at 10 65)).
  - exists 2. split; [unfold N_SHAPES; lia|reflexivity].
  - vm_compute. reflexivity.
Defined.

(** ** The frame *)

Lemma index_coords (i : Z) :
  0 <= i < B_SIZE ->
  i = (i / B_COLS) * B_COLS + i mod B_COLS /\
  0 <= i / B_COLS < B_ROWS /\ 0 <= i mod B_COLS < B_COLS.
Proof.
  consts. intros H.
  pose proof (Z.div_mod i 12 ltac:(lia)).
  pose proof (Z.mod_pos_bound i 12 ltac:(lia)).
  assert (0 <= i / 12) by (apply Z.div_pos; lia).
  assert (i / 12 < 23) by (apply Z.div_lt_upper_bound; lia).
  lia.
Qed.

Lemma coords_div_mod (row col : Z) :
  0 <= col < B_COLS ->
  (row * B_COLS + col) / B_COLS = row /\ (row * B_COLS + col) mod B_COLS = col.
Proof.
  consts. intros H. split.
  - rewrite Z.div_add_l by lia. rewrite Z.div_small; lia.
  - rewrite Z.add_comm, Z.mod_add by lia. apply Z.mod_small; lia.
Qed.

Lemma frame_cell_at (row col : Z) :
  0 <= row < B_ROWS -> 0 <= col < B_COLS ->
  frame_cell (row * B_COLS + col)
  = (col =? 0) || (col =? B_COLS - 1) || (B_ROWS - 2 <=? row).
Proof.
  intros Hr Hc. unfold frame_cell.
  destruct (coords_div_mod row col Hc) as [-> ->].
  assert (E1 : (0 <=? row * B_COLS + col) = true) by (consts; lia).
  assert (E2 : (row * B_COLS + col <? B_SIZE) = true) by (consts; lia).
  rewrite E1, E2. reflexivity.
Qed.

(** A board that agrees with a framed board on the frame is framed. *)
Lemma tagged_frame_agree (b b' : Board) :
  (forall row col, 0 <= row < B_ROWS -> 0 <= col < B_COLS ->
     frame_cell (row * B_COLS + col) = true ->
     get b' (row * B_COLS + col) = get b (row * B_COLS + col)) ->
  tagged frame_cell b -> tagged frame_cell b'.
Proof.
  intros H Ht i Hi.
  destruct (index_coords i (frame_cell_in_board i Hi)) as (E & Hr & Hc).
  rewrite E in Hi |- *. rewrite H by assumption. apply Ht, Hi.
Qed.

Lemma shifted_framed (b b' : Board) (i : Z) :
  shifted b i b' -> i <= B_ROWS - 3 ->
  length b = Z.to_nat B_SIZE -> tagged frame_cell b ->
  length b' = Z.to_nat B_SIZE /\ tagged frame_cell b'.
Proof.
  intros [Hl Hs] Hi Hlb Ht. split; [congruence|].
  apply (tagged_frame_agree b); [|exact Ht].
  intros row col Hr Hc Hf. rewrite frame_cell_at in Hf by assumption.
  rewrite Hs by assumption.
  destruct (Z.leb_spec 1 row); destruct (Z.leb_spec row i);
  destruct (Z.leb_spec 1 col); destruct (Z.leb_spec col (B_COLS - 2));
  cbn [andb]; try reflexivity.
  exfalso. consts. lia.
Qed.

Lemma clear_row_framed (b : Board) (i : Z) :
  1 <= i <= B_ROWS - 3 ->
  length b = Z.to_nat B_SIZE -> tagged frame_cell b ->
  length (clear_row b i) = Z.to_nat B_SIZE /\ tagged frame_cell (clear_row b i).
Proof.
  intros Hi Hl Ht. split; [now rewrite length_clear_row|].
  apply (tagged_frame_agree b); [|exact Ht].
  intros row col Hr Hc Hf. rewrite frame_cell_at in Hf by assumption.
  rewrite get_clear_row by (auto; consts; lia).
  destruct (Z.eqb_spec row i);
  destruct (Z.leb_spec 1 col); destruct (Z.leb_spec col (B_COLS - 2));
  cbn [andb]; try reflexivity.
  exfalso. consts. lia.
Qed.

Lemma shift_down_framed (b : Board) (i : Z) :
  0 <= i <= B_ROWS - 3 ->
  length b = Z.to_nat B_SIZE -> tagged frame_cell b ->
  length (shift_down b i) = Z.to_nat B_SIZE /\
  tagged frame_cell (shift_down b i).
Proof.
  intros Hi Hl Ht. split; [now rewrite length_shift_down|].
  apply (tagged_frame_agree b); [|exact Ht].
  intros row col Hr Hc Hf. rewrite frame_cell_at in Hf by assumption.
  rewrite get_shift_down by (auto; consts; lia).
  destruct (Z.leb_spec 1 row); destruct (Z.leb_spec row i);
  destruct (Z.leb_spec 1 col); destruct (Z.leb_spec col (B_COLS - 2));
  cbn [andb]; try reflexivity.
  exfalso. consts. lia.
Qed.

(** ** [place] *)

Lemma place_value (b : Board) (s p v : Z) :
  length b = Z.to_nat B_SIZE -> Forall in_board (cells s p) ->
  place b s p v
  = Ok (set (set (set (set b p v) (p + sh s 1) v) (p + sh s 2) v)
            (p + sh s 3) v).
Proof.
  intros Hl Hc. unfold cells in Hc.
  apply Forall_cons_1 in Hc as [H0 Hc]. apply Forall_cons_1 in Hc as [H1 Hc].
  apply Forall_cons_1 in Hc as [H2 Hc]. apply Forall_cons_1 in Hc as [H3 _].
  unfold in_board in *. unfold place.
  rewrite wr_set by lia. cbn [rbind].
  rewrite wr_set by (rewrite !length_set; lia). cbn [rbind].
  rewrite wr_set by (rewrite !length_set; lia). cbn [rbind].
  rewrite wr_set by (rewrite !length_set; lia). reflexivity.
Qed.

Lemma get_set (b : Board) (i j v : Z) :
  0 <= i < Z.of_nat (length b) -> 0 <= j ->
  get (set b i v) j = if j =? i then v else get b j.
Proof.
  intros Hi Hj. destruct (Z.eqb_spec j i) as [->|Hne].
  - now apply get_set_eq.
  - apply get_set_ne; lia.
Qed.

(** The cells of a placed piece hold its colour, every other cell is as
    before. *)
Lemma get_place (b b' : Board) (s p v j : Z) :
  length b = Z.to_nat B_SIZE -> Forall in_board (cells s p) ->
  place b s p v = Ok b' -> 0 <= j ->
  length b' = length b /\
  get b' j = if (j =? p) || (j =? p + sh s 1) || (j =? p + sh s 2) ||
                (j =? p + sh s 3) then v else get b j.
Proof.
  intros Hl Hc Hp Hj. rewrite (place_value b s p v Hl Hc) in Hp.
  injection Hp as <-. split; [now rewrite !length_set|].
  unfold cells in Hc.
  apply Forall_cons_1 in Hc as [H0 Hc]. apply Forall_cons_1 in Hc as [H1 Hc].
  apply Forall_cons_1 in Hc as [H2 Hc]. apply Forall_cons_1 in Hc as [H3 _].
  unfold in_board in *.
  rewrite !get_set by (rewrite ?length_set; lia).
  destruct (j =? p); destruct (j =? p + sh s 1); destruct (j =? p + sh s 2);
    destruct (j =? p + sh s 3); reflexivity.
Qed.

Lemma board_ext (b b' : Board) :
  length b = length b' ->
  (forall j, 0 <= j < Z.of_nat (length b) -> get b j = get b' j) ->
  b = b'.
Proof.
  intros Hl H. apply list_eq. intros n.
  destruct (Nat.lt_ge_cases n (length b)) as [Hn|Hn].
  - specialize (H (Z.of_nat n) ltac:(lia)). unfold get in H.
    rewrite Nat2Z.id in H.
    destruct (lookup_lt_is_Some_2 b n Hn) as [x Hx].
    destruct (lookup_lt_is_Some_2 b' n ltac:(lia)) as [y Hy].
    rewrite Hx, Hy in *. cbn in H. now subst.
  - rewrite !lookup_ge_None_2 by lia. reflexivity.
Qed.

(** ** A piece that fits *)

Lemma rd_Ok_get (b : Board) (i v : Z) :
  rd b i = Ok v -> 0 <= i < Z.of_nat (length b) /\ get b i = v.
Proof.
  unfold rd, get. destruct (Z.leb_spec 0 i); [|discriminate].
  destruct (b !! Z.to_nat i) as [x|] eqn:E; [|discriminate].
  intros [= <-]. apply lookup_lt_Some in E. split; [lia|reflexivity].
Qed.

Lemma fits_anchor_empty (b : Board) (s p : Z) :
  fits_in b s p = Ok true ->
  0 <= p < Z.of_nat (length b) /\ get b p = 0.
Proof.
  unfold fits_in, orelse, occupied.
  destruct (rd b p) as [v|] eqn:E; [|discriminate]. cbn [rbind].
  apply rd_Ok_get in E as [Hp <-].
  destruct (Z.eqb_spec (get b p) 0); [auto|]. cbn. discriminate.
Qed.

Lemma anchor_cells_in_board (s p : Z) :
  shape_ptr s -> anchor_ok p -> Forall in_board (cells s p).
Proof.
  intros (k & Hk & ->) (row & col & Hf & ->).
  now apply field_cells_in_board.
Qed.

Lemma fits_cells_empty (b : Board) (s p : Z) :
  length b = Z.to_nat B_SIZE -> Forall in_board (cells s p) ->
  fits_in b s p = Ok true ->
  get b p = 0 /\ get b (p + sh s 1) = 0 /\
  get b (p + sh s 2) = 0 /\ get b (p + sh s 3) = 0.
Proof.
  intros Hl Hc. rewrite (fits_in_value b s p Hl Hc). intros [= H].
  destruct (Z.eqb_spec (get b p) 0); [|discriminate].
  destruct (Z.eqb_spec (get b (p + sh s 1)) 0); [|discriminate].
  destruct (Z.eqb_spec (get b (p + sh s 2)) 0); [|discriminate].
  destruct (Z.eqb_spec (get b (p + sh s 3)) 0); [|discriminate].
  auto.
Qed.

Lemma tagged_nonzero (b : Board) (i : Z) :
  tagged frame_cell b -> frame_cell i = true -> get b i <> 0.
Proof.
  intros Ht Hi. rewrite (Ht i Hi). unfold BORDER. lia.
Qed.

(** Placing a piece where it fits: the writes stay inside the array and off
    the frame. *)
Lemma place_fits_framed (b : Board) (s p v : Z) :
  length b = Z.to_nat B_SIZE -> tagged frame_cell b ->
  Forall in_board (cells s p) -> fits_in b s p = Ok true ->
  exists b', place b s p v = Ok b' /\
             length b' = Z.to_nat B_SIZE /\ tagged frame_cell b'.
Proof.
  intros Hl Ht Hc Hfit.
  destruct (fits_cells_empty b s p Hl Hc Hfit) as (E0 & E1 & E2 & E3).
  eexists. split; [apply (place_value b s p v Hl Hc)|].
  split; [now rewrite !length_set|].
  intros i Hi.
  pose proof (frame_cell_in_board i Hi) as Hb.
  pose proof (tagged_nonzero b i Ht Hi) as Hnz.
  destruct (get_place b _ s p v i Hl Hc (place_value b s p v Hl Hc)
              ltac:(lia)) as [_ ->].
  destruct (Z.eqb_spec i p) as [->|]; [contradiction|].
  destruct (Z.eqb_spec i (p + sh s 1)) as [->|]; [contradiction|].
  destruct (Z.eqb_spec i (p + sh s 2)) as [->|]; [contradiction|].
  destruct (Z.eqb_spec i (p + sh s 3)) as [->|]; [contradiction|].
  cbn. apply Ht, Hi.
Qed.

(** Drawing a piece where it fits and erasing it gives the board back. *)
Lemma place_erase (b b1 : Board) (s p v : Z) :
  length b = Z.to_nat B_SIZE -> Forall in_board (cells s p) ->
  fits_in b s p = Ok true -> place b s p v = Ok b1 ->
  place b1 s p 0 = Ok b.
Proof.
  intros Hl Hc Hfit Hp.
  destruct (fits_cells_empty b s p Hl Hc Hfit) as (E0 & E1 & E2 & E3).
  assert (Hl1 : length b1 = Z.to_nat B_SIZE).
  { destruct (get_place b b1 s p v 0 Hl Hc Hp ltac:(lia)) as [-> _].
    exact Hl. }
  rewrite (place_value b1 s p 0 Hl1 Hc). f_equal.
  apply board_ext; [rewrite !length_set; congruence|].
  intros j Hj.
  destruct (get_place b1 _ s p 0 j Hl1 Hc (place_value b1 s p 0 Hl1 Hc)
              ltac:(lia)) as [_ ->].
  destruct (get_place b b1 s p v j Hl Hc Hp ltac:(lia)) as [_ ->].
  destruct (Z.eqb_spec j p) as [->|]; [auto|].
  destruct (Z.eqb_spec j (p + sh s 1)) as [->|]; [auto|].
  destruct (Z.eqb_spec j (p + sh s 2)) as [->|]; [auto|].
  destruct (Z.eqb_spec j (p + sh s 3)) as [->|]; [auto|].
  reflexivity.
Qed.

(** A move by one cell that fits stays in the playing field: the cell of the
    anchor would be on the frame otherwise. *)
Lemma anchor_move (b : Board) (s p p' : Z) :
  length b = Z.to_nat B_SIZE -> tagged frame_cell b -> anchor_ok p ->
  p' = p - 1 \/ p' = p + 1 \/ p' = p + B_COLS ->
  fits_in b s p' = Ok true -> anchor_ok p'.
Proof.
  intros Hl Ht (row & col & [Hr Hc] & ->) Hp' Hfit.
  apply fits_anchor_empty in Hfit as [_ He].
  assert (Hnf : frame_cell p' = false).
  { destruct (frame_cell p') eqn:E; [|reflexivity].
    exfalso. apply (tagged_nonzero b p' Ht E He). }
  destruct Hp' as [->|[->| ->]].
  - replace (row * B_COLS + col - 1) with (row * B_COLS + (col - 1)) in *
      by lia.
    rewrite frame_cell_at in Hnf by (consts; lia).
    exists row, (col - 1). split; [|reflexivity]. split; consts; lia.
  - replace (row * B_COLS + col + 1) with (row * B_COLS + (col + 1)) in *
      by lia.
    rewrite frame_cell_at in Hnf by (consts; lia).
    exists row, (col + 1). split; [|reflexivity]. split; consts; lia.
  - replace (row * B_COLS + col + B_COLS) with ((row + 1) * B_COLS + col) in *
      by lia.
    rewrite frame_cell_at in Hnf by (consts; lia).
    exists (row + 1), col. split; [|reflexivity]. split; consts; lia.
Qed.

(** ** The handlers keep the loop invariant *)

Lemma good_framed (g : game) : good g -> framed g.
Proof. intros [H _]. exact H. Qed.

Lemma good_set_pos (g : game) (p : Z) :
  good g -> anchor_ok p -> fits_in (board g) (shape g) p = Ok true ->
  good (set_pos p g).
Proof.
  intros (Hf & Hs & _ & _ & Hk) Ha Hfit.
  exact (conj Hf (conj Hs (conj Ha (conj Hfit Hk)))).
Qed.

Lemma good_set_shape (g : game) (s : Z) :
  good g -> shape_ptr s -> fits_in (board g) s (pos g) = Ok true ->
  good (set_shape s g).
Proof.
  intros (Hf & _ & Ha & _ & Hk) Hs Hfit.
  exact (conj Hf (conj Hs (conj Ha (conj Hfit Hk)))).
Qed.

Lemma good_move (g : game) (p' : Z) :
  good g ->
  p' = pos g - 1 \/ p' = pos g + 1 \/ p' = pos g + B_COLS ->
  fits_in (board g) (shape g) p' = Ok true -> good (set_pos p' g).
Proof.
  intros Hg Hp Hfit. apply good_set_pos; [exact Hg| |exact Hfit].
  destruct Hg as ([Hl Ht] & _ & Ha & _).
  exact (anchor_move _ _ _ _ Hl Ht Ha Hp Hfit).
Qed.

Lemma on_left_good (g g' : game) : good g -> on_left g = Ok g' -> good g'.
Proof.
  intros Hg. unfold on_left.
  destruct (fits_in (board g) (shape g) (pos g - 1)) as [[|]|] eqn:E;
    cbn [rbind]; intros [= <-]; auto.
  apply good_move; auto.
Qed.

Lemma on_right_good (g g' : game) : good g -> on_right g = Ok g' -> good g'.
Proof.
  intros Hg. unfold on_right.
  destruct (fits_in (board g) (shape g) (pos g + 1)) as [[|]|] eqn:E;
    cbn [rbind]; intros [= <-]; auto.
  apply good_move; auto.
Qed.

Lemma on_rotate_good (g g' : game) : good g -> on_rotate g = Ok g' -> good g'.
Proof.
  intros Hg. unfold on_rotate.
  destruct (fits_in (board g) (5 * find_prev (Z.quot (shape g) 5)) (pos g))
    as [[|]|] eqn:E; cbn [rbind]; intros [= <-].
  - apply good_set_shape; [exact Hg| |exact E].
    destruct Hg as (_ & (k & Hk & Hs) & _). rewrite Hs, quot_5.
    exists (find_prev k). split; [apply (catalog_links k Hk)|reflexivity].
  - now rewrite set_shape_same.
Qed.

Lemma on_rrotate_good (g g' : game) : good g -> on_rrotate g = Ok g' -> good g'.
Proof.
  intros Hg. unfold on_rrotate.
  destruct (fits_in (board g) (5 * sh (shape g) 0) (pos g))
    as [[|]|] eqn:E; cbn [rbind]; intros [= <-].
  - apply good_set_shape; [exact Hg| |exact E].
    destruct Hg as (_ & (k & Hk & Hs) & _). rewrite Hs.
    exists (sh (5 * k) 0). split; [apply (catalog_links k Hk)|reflexivity].
  - now rewrite set_shape_same.
Qed.

Lemma drop_loop_good (b : Board) (s : Z) (fuel : nat) :
  forall (p pts : Z) (r : Z * Z),
  length b = Z.to_nat B_SIZE -> tagged frame_cell b -> anchor_ok p ->
  fits_in b s p = Ok true ->
  drop_loop fuel b s p pts = Ok r ->
  anchor_ok (fst r) /\ fits_in b s (fst r) = Ok true.
Proof.
  induction fuel as [|fuel IH]; intros p pts r Hl Ht Ha Hfit; simpl;
    destruct (fits_in b s (p + B_COLS)) as [[|]|] eqn:E; cbn [rbind];
    try discriminate; try (intros [= <-]; auto).
  apply IH; auto.
  apply (anchor_move b s p); auto.
Qed.

Lemma on_drop_good (g g' : game) : good g -> on_drop g = Ok g' -> good g'.
Proof.
  intros Hg. unfold on_drop.
  destruct (drop_loop (length (board g)) (board g) (shape g) (pos g) (points g))
    as [r|] eqn:E; cbn [rbind]; intros [= <-].
  destruct Hg as ([Hl Ht] & Hs & Ha & Hfit & Hk).
  destruct (drop_loop_good _ _ _ _ _ _ Hl Ht Ha Hfit E) as [Ha' Hfit'].
  exact (conj (conj Hl Ht) (conj Hs (conj Ha' (conj Hfit' Hk)))).
Qed.

Lemma on_pause_good (g g' : game) : good g -> on_pause g = Ok g' -> good g'.
Proof.
  intros Hg. unfold on_pause.
  destruct (wait_pause (stdin g)); cbn [rbind]; intros [= <-]. exact Hg.
Qed.

Lemma base_rem (r : Z) : 0 <= r -> base_ptr (Z.rem r 7 * 5).
Proof.
  intros Hr. exists (Z.rem r 7). split; [|lia].
  apply Z.rem_bound_pos; lia.
Qed.

Lemma base_shape_ptr (s : Z) : base_ptr s -> shape_ptr s.
Proof. intros (k & Hk & ->). exists k. split; [consts; lia|reflexivity]. Qed.

Lemma base_fits_at_spawn (s : Z) :
  base_ptr s -> fits_in init_board s 17 = Ok true.
Proof.
  intros (k & Hk & ->).
  assert (H : forallb (fun k => match fits_in init_board (5 * k) 17 with
                                | Ok true => true
                                | _ => false
                                end) (seqZ 0 7) = true)
    by (vm_compute; reflexivity).
  pose proof (forallb_seqZ _ _ _ H k Hk) as Hk'. cbv beta in Hk'.
  destruct (fits_in init_board (5 * k) 17) as [[|]|]; congruence.
Qed.

Lemma spawn_anchor_ok : anchor_ok 17.
Proof.
  exists 1, 5. split; [|reflexivity]. split; consts; lia.
Qed.

(** [next_shape] hands out the preview, which is one of the seven, and draws
    a new one; nothing else changes but [color] and the random source. *)
Lemma next_shape_spec (g g' : game) (s : Z) :
  next_shape g = (s, g') -> peek_ok g ->
  base_ptr s /\ peek_ok g' /\ board g' = board g /\ pos g' = pos g /\
  level g' = level g /\ lines_cleared g' = lines_cleared g /\
  points g' = points g /\ c g' = c g /\ stdin g' = stdin g.
Proof.
  unfold next_shape, draw_peek, rand, peek_ok.
  destruct g as [b sp co pk pc l p lcl cc po inp rn]. cbn.
  destruct rn as [|r rn]; destruct pk as [nx|]; cbn;
    try destruct rn as [|r' rn]; cbn;
    intros [= <- <-] Hk; cbn; repeat split; try assumption;
    try (apply base_rem; lia).
Qed.

Lemma init_good (g : game) : peek_ok g -> good (init g).
Proof.
  intros Hk. unfold init.
  destruct (next_shape (set_board init_board
              (set_pos 17 (set_c 0 (set_score 1 0 0 g))))) as [s g2] eqn:E.
  apply next_shape_spec in E as (Hs & Hk2 & Hb & Hp & _); [|exact Hk].
  cbn in Hb, Hp.
  unfold good, framed. cbn [board shape pos peek_shape set_shape peek_ok].
  rewrite Hb, Hp.
  refine (conj (conj _ _) (conj _ (conj _ (conj _ _)))).
  - reflexivity.
  - exact init_board_frame_tagged.
  - apply base_shape_ptr, Hs.
  - exact spawn_anchor_ok.
  - apply base_fits_at_spawn, Hs.
  - exact Hk2.
Qed.

Lemma redraw_good (g g' : game) : good g -> redraw g = Ok g' -> good g'.
Proof.
  intros ([Hl Ht] & Hs & Ha & Hfit & Hk). unfold redraw.
  pose proof (anchor_cells_in_board _ _ Hs Ha) as Hc.
  destruct (place (board g) (shape g) (pos g) (color g)) as [b1|] eqn:E1;
    cbn [rbind]; [|discriminate].
  destruct (update (set_board b1 g)) as [[k gu]|] eqn:E2; cbn [rbind fst snd];
    [|discriminate].
  apply update_keeps in E2 as (Hb & Hsh & _ & Hpk & Hp & _).
  cbn [board shape pos set_c set_board peek_shape] in *.
  rewrite Hb, Hsh, Hp.
  rewrite (place_erase _ _ _ _ _ Hl Hc Hfit E1). cbn [rbind].
  intros [= <-]. unfold good, framed, peek_ok.
  cbn [board shape pos set_c set_board peek_shape].
  rewrite Hsh, Hp, Hpk.
  exact (conj (conj Hl Ht) (conj Hs (conj Ha (conj Hfit Hk)))).
Qed.

Lemma when_good (f : game -> res game) (cond : bool) (g g' : game) :
  (forall h h', good h -> f h = Ok h' -> good h') ->
  good g -> when cond f g = Ok g' -> good g'.
Proof.
  intros Hf Hg. unfold when. destruct cond; [apply Hf, Hg|].
  now intros [= <-].
Qed.

Lemma keys_phase_good (g : game) (fl : flow) :
  good g -> keys_phase g = Ok fl -> flow_good fl.
Proof.
  intros Hg. unfold keys_phase.
  destruct (when (c g =? keys KEY_LEFT) on_left g) as [g1|] eqn:E1;
    cbn [rbind]; [|discriminate].
  apply (when_good _ _ _ _ on_left_good Hg) in E1.
  destruct (when (c g1 =? keys KEY_ROTATE) on_rotate g1) as [g2|] eqn:E2;
    cbn [rbind]; [|discriminate].
  apply (when_good _ _ _ _ on_rotate_good E1) in E2.
  destruct (when (c g2 =? keys KEY_RROTATE) on_rrotate g2) as [g3|] eqn:E3;
    cbn [rbind]; [|discriminate].
  apply (when_good _ _ _ _ on_rrotate_good E2) in E3.
  destruct (when (c g3 =? keys KEY_RIGHT) on_right g3) as [g4|] eqn:E4;
    cbn [rbind]; [|discriminate].
  apply (when_good _ _ _ _ on_right_good E3) in E4.
  destruct (when (c g4 =? keys KEY_DROP) on_drop g4) as [g5|] eqn:E5;
    cbn [rbind]; [|discriminate].
  apply (when_good _ _ _ _ on_drop_good E4) in E5.
  destruct (c g5 =? keys KEY_RESTART).
  { intros [= <-]. apply init_good, E5. }
  destruct ((c g5 =? keys KEY_PAUSE) || (c g5 =? keys KEY_QUIT)).
  - destruct (c g5 =? keys KEY_QUIT).
    + intros [= <-]. apply good_framed, E5.
    + destruct (on_pause g5) as [g6|] eqn:E6; cbn [rbind]; [|discriminate].
      intros [= <-]. apply (on_pause_good g5 g6 E5 E6).
  - intros [= <-]. exact E5.
Qed.

(** The line-clear loop keeps the frame, whatever it does to the rows. *)
Lemma clear_loop_framed (fuel : nat) :
  forall (i cl : Z) (g : game) (r : Z * game),
  framed g -> 1 <= i ->
  clear_loop fuel i cl g = Ok r ->
  framed (snd r) /\ peek_shape (snd r) = peek_shape g.
Proof.
  induction fuel as [|fuel IH]; intros i cl g r Hg Hi.
  - simpl. destruct (i <? B_ROWS - 2); [discriminate|].
    intros [= <-]. auto.
  - destruct (Z.lt_ge_cases i (B_ROWS - 2)) as [Hlt|Hge].
    + destruct (row_full (board g) i) eqn:Hf.
      * destruct (clear_loop_hit fuel i cl g Hlt Hf)
          as (g4 & Hb & Hk & _ & _ & ->).
        intros E. apply IH in E; [|
          |exact Hi].
        -- rewrite <- Hk. exact E.
        -- destruct Hg as [Hl Ht].
           pose proof (clear_shift_shifted (board g) i Hl ltac:(lia)) as Hs.
           rewrite <- Hb in Hs.
           exact (shifted_framed _ _ _ Hs ltac:(lia) Hl Ht).
      * rewrite clear_loop_skip by assumption. intros E.
        apply IH in E; [exact E|exact Hg|lia].
    + rewrite clear_loop_done by exact Hge. intros [= <-]. auto.
Qed.

Lemma score_keeps (cl : Z) (g g2 : game) :
  score cl g = Ok (Next g2) ->
  board g2 = board g /\ peek_shape g2 = peek_shape g /\ level g2 = level g.
Proof.
  unfold score. destruct (0 <? cl); [|intros [= <-]; auto].
  destruct (score_table !! Z.to_nat cl); [|discriminate].
  match goal with |- context [if ?t then _ else _] => destruct t end;
    [discriminate|].
  intros [= <-]. cbn. auto.
Qed.

Lemma lock_good (fuel : nat) (g : game) (cl : Z) (fl : flow) :
  good g -> lock fuel g = Ok (cl, fl) -> flow_good fl.
Proof.
  intros ([Hl Ht] & Hs & Ha & Hfit & Hk). unfold lock.
  pose proof (anchor_cells_in_board _ _ Hs Ha) as Hc.
  destruct (place_fits_framed _ _ _ (color g) Hl Ht Hc Hfit)
    as (b1 & -> & Hl1 & Ht1). cbn [rbind].
  destruct (clear_loop fuel 1 0 (set_board b1 g)) as [[cl' g1]|] eqn:E2;
    cbn [rbind fst snd]; [|discriminate].
  apply clear_loop_framed in E2 as [Hf1 Hk1]; [|split; assumption|lia].
  cbn [fst snd peek_shape set_board] in Hf1, Hk1.
  destruct (score cl' g1) as [f|] eqn:E3; cbn [rbind]; [|discriminate].
  destruct (score_never_breaks _ _ _ E3) as [g2 ->].
  apply score_keeps in E3 as (Hb2 & Hk2 & _).
  destruct (update g2) as [[k gu]|] eqn:E4; cbn [rbind fst snd];
    [|discriminate].
  apply update_keeps in E4 as (Hbu & _ & _ & Hku & _).
  destruct (next_shape (set_c k gu)) as [s g4] eqn:E5.
  apply next_shape_spec in E5 as (Hbs & Hk4 & Hb4 & _);
    [|unfold peek_ok; cbn; rewrite Hku, Hk2, Hk1; exact Hk].
  cbn [board set_c] in Hb4.
  assert (Hf4 : framed g4).
  { unfold framed. rewrite Hb4, Hbu, Hb2. exact Hf1. }
  cbn [board shape pos set_pos set_shape].
  destruct (fits_in (board g4) s 17) as [[|]|] eqn:E6; cbn [rbind];
    [| |discriminate].
  - intros [= <- <-].
    exact (conj Hf4 (conj (base_shape_ptr _ Hbs)
             (conj spawn_anchor_ok (conj E6 Hk4)))).
  - cbn [stdin set_pos set_shape].
    destruct (wait_replay (stdin g4)) as [w|]; cbn [rbind]; [|discriminate].
    cbn [c set_c].
    destruct (fst w =? keys KEY_QUIT); intros [= <- <-].
    + exact Hf4.
    + apply init_good. exact Hk4.
Qed.

Lemma tick_good (fuel : nat) (g : game) (cl : Z) (fl : flow) :
  good g -> tick fuel g = Ok (cl, fl) -> flow_good fl.
Proof.
  intros Hg. unfold tick. destruct (c g <? 0); [|intros [= <- <-]; exact Hg].
  destruct (fits_in (board g) (shape g) (pos g + B_COLS)) as [[|]|] eqn:E;
    cbn [rbind]; [| |discriminate].
  - intros [= <- <-]. apply good_move; auto.
  - apply lock_good, Hg.
Qed.

Lemma step_good (fuel : nat) (g : game) (cl : Z) (o : outcome) :
  good g -> step fuel g = Ok (cl, o) -> outcome_good o.
Proof.
  intros Hg. unfold step.
  destruct (tick fuel g) as [[cl' fl]|] eqn:E1; cbn [rbind fst snd];
    [|discriminate].
  apply (tick_good _ _ _ _ Hg) in E1.
  destruct fl as [g1|g1|g1]; try (intros [= <- <-]; exact E1).
  destruct (keys_phase g1) as [fl2|] eqn:E2; cbn [rbind]; [|discriminate].
  apply (keys_phase_good _ _ E1) in E2.
  destruct fl2 as [g2|g2|g2]; try (intros [= <- <-]; exact E2).
  destruct (redraw g2) as [g3|] eqn:E3; cbn [rbind]; [|discriminate].
  intros [= <- <-]. exact (redraw_good _ _ E2 E3).
Qed.

Lemma play_good (fuel n : nat) :
  forall (g : game) (tr : list Z) (o : outcome),
  good g -> play fuel n g = Ok (tr, o) -> outcome_good o.
Proof.
  induction n as [|n IH]; intros g tr o Hg; simpl.
  - intros [= <- <-]. exact Hg.
  - destruct (step fuel g) as [[cl o1]|] eqn:E1; cbn [rbind fst snd];
      [|discriminate].
    apply (step_good _ _ _ _ Hg) in E1.
    destruct o1 as [g1|g1|g1]; try (intros [= <- <-]; exact E1).
    destruct (play fuel n g1) as [[tr' o']|] eqn:E2; cbn [rbind fst snd];
      [|discriminate].
    intros [= <- <-]. exact (IH _ _ _ E1 E2).
Qed.

Lemma start_good (input : list Z) (rnd : list nat) : good (start input rnd).
Proof. apply init_good. exact I. Qed.

Lemma outcome_framed (o : outcome) : outcome_good o -> framed (state_of o).
Proof. destruct o; cbn; auto using good_framed. Qed.

Lemma run_good (fuel n : nat) :
  forall (g : game) (o : outcome),
  good g -> run fuel n g = Ok o -> outcome_good o.
Proof.
  induction n as [|n IH]; intros g o Hg; simpl.
  - intros [= <-]. exact Hg.
  - destruct (step fuel g) as [[cl o1]|] eqn:E1; cbn [rbind fst snd];
      [|discriminate].
    apply (step_good _ _ _ _ Hg) in E1.
    destruct o1 as [g1|g1|g1].
    + apply IH, E1.
    + apply IH, E1.
    + intros [= <-]. exact E1.
Qed.

(** ** C3: the frame of the board *)

(** C3 as stated fails: after [init] the top row is not part of the border.
    Cell 5 (row 0, column 5) is on the outermost ring and is empty. *)
Lemma top_row_not_tagged : ~ tagged ring_cell init_board.
Proof.
  intros H. specialize (H 5 ltac:(reflexivity)). vm_compute in H.
  discriminate.
Qed.

(** C3, amended. The frame that [init] writes, the two side columns and the
    two bottom rows, holds the border colour after [init], after a placement
    of a piece where it fits, after a row clear and after a row shift at a
    scanned row, and in every state of a session; row 0 belongs to the
    playing area and is empty after [init]. *)
Theorem frame_is_kept :
  (tagged frame_cell init_board /\ row_empty init_board 0) /\
  (forall (b : Board) (s p v : Z),
     length b = Z.to_nat B_SIZE -> tagged frame_cell b ->
     shape_ptr s -> anchor_ok p -> fits_in b s p = Ok true ->
     exists b', place b s p v = Ok b' /\ tagged frame_cell b') /\
  (forall (b : Board) (i : Z),
     length b = Z.to_nat B_SIZE -> tagged frame_cell b ->
     1 <= i <= B_ROWS - 3 ->
     tagged frame_cell (clear_row b i) /\
     tagged frame_cell (shift_down b i)) /\
  (forall (fuel n : nat) (input : list Z) (rnd : list nat) (o : outcome),
     run fuel n (start input rnd) = Ok o ->
     tagged frame_cell (board (state_of o))).
Proof.
  split; [|split; [|split]].
  - split; [exact init_board_frame_tagged|].
    intros x Hx.
    assert (H : forallb (fun x => get init_board (0 * B_COLS + x) =? 0)
                        (seqZ 1 (B_COLS - 2)) = true)
      by (vm_compute; reflexivity).
    pose proof (forallb_seqZ _ _ _ H x ltac:(lia)) as Hx'. cbv beta in Hx'.
    lia.
  - intros b s p v Hl Ht Hs Ha Hfit.
    pose proof (anchor_cells_in_board _ _ Hs Ha) as Hc.
    destruct (place_fits_framed b s p v Hl Ht Hc Hfit) as (b' & E & _ & Ht').
    eauto.
  - intros b i Hl Ht Hi. split.
    + apply (clear_row_framed b i Hi Hl Ht).
    + apply (shift_down_framed b i ltac:(lia) Hl Ht).
  - intros fuel n input rnd o E.
    apply (run_good _ _ _ _ (start_good input rnd)) in E.
    apply outcome_framed in E. apply E.
Qed.

(** ** The level counters along a game *)

Lemma same_counters (g g' : game) (n : Z) :
  level g' = level g -> lines_cleared g' = lines_cleared g ->
  leveled g /\ lines_total g = n -> leveled g' /\ lines_total g' = n.
Proof.
  unfold leveled, lines_total. intros -> ->. auto.
Qed.

Lemma clear_loop_counters (fuel : nat) :
  forall (i cl : Z) (g : game) (r : Z * game),
  lines_cleared g < 10 -> clear_loop fuel i cl g = Ok r ->
  level (snd r) = level g /\ lines_cleared (snd r) = lines_cleared g.
Proof.
  induction fuel as [|fuel IH]; intros i cl g r Hs.
  - simpl. destruct (i <? B_ROWS - 2); [discriminate|].
    intros [= <-]. auto.
  - destruct (Z.lt_ge_cases i (B_ROWS - 2)) as [Hlt|Hge].
    + destruct (row_full (board g) i) eqn:Hf.
      * destruct (clear_loop_hit fuel i cl g Hlt Hf)
          as (g4 & _ & _ & _ & Hc & ->).
        destruct (Hc Hs) as [El Ec]. intros E.
        apply IH in E; [|lia]. rewrite <- El, <- Ec. exact E.
      * rewrite clear_loop_skip by assumption. apply IH, Hs.
    + rewrite clear_loop_done by exact Hge. intros [= <-]. auto.
Qed.

(** The count of a loop that ends is the count it started with plus the clears
    made, at most one per iteration. *)
Lemma clear_loop_count (fuel : nat) :
  forall (i cl : Z) (g : game) (r : Z * game),
  0 <= cl -> cl + Z.of_nat fuel <= INT_MAX ->
  clear_loop fuel i cl g = Ok r -> cl <= fst r.
Proof.
  induction fuel as [|fuel IH]; intros i cl g r H0 Hmax.
  - simpl. destruct (i <? B_ROWS - 2); [discriminate|].
    intros [= <-]. cbn. lia.
  - destruct (Z.lt_ge_cases i (B_ROWS - 2)) as [Hlt|Hge].
    + destruct (row_full (board g) i) eqn:Hf.
      * destruct (clear_loop_hit fuel i cl g Hlt Hf)
          as (g4 & _ & _ & _ & _ & ->).
        rewrite wrap_int_id by (unfold INT_MIN; lia).
        intros E. apply IH in E; lia.
      * rewrite clear_loop_skip by assumption. intros E.
        apply IH in E; lia.
    + rewrite clear_loop_done by exact Hge. intros [= <-]. cbn. lia.
Qed.

Lemma score_counters (cl : Z) (g g2 : game) :
  score cl g = Ok (Next g2) -> 0 <= cl -> 0 <= lines_cleared g < 10 ->
  0 <= cl <= 4 /\ level g2 = level g /\
  lines_cleared g2 = lines_cleared g + cl.
Proof.
  unfold score. intros E H0 Hl.
  destruct (Z.ltb_spec 0 cl).
  - destruct (score_table !! Z.to_nat cl) as [base|] eqn:Eb; [|discriminate].
    apply lookup_lt_Some in Eb. cbn in Eb.
    match type of E with
    | (if ?t then _ else _) = _ => destruct t; [discriminate|]
    end.
    injection E as <-. cbn.
    rewrite wrap_int_id by (unfold INT_MIN, INT_MAX; lia). lia.
  - injection E as <-. lia.
Qed.

Lemma update_levels (g g' : game) (k : Z) :
  update g = Ok (k, g') ->
  INT_MIN <= level g -> 0 <= lines_cleared g ->
  level g + lines_cleared g / 10 <= INT_MAX ->
  level g' = level g + lines_cleared g / 10 /\
  lines_cleared g' = lines_cleared g mod 10.
Proof.
  destruct (update_shape g) as (lv & lc & El & E). rewrite E.
  intros [= _ <-] H1 H2 H3. cbn.
  exact (level_loop_value _ _ _ _ _ El H2 H1 H3).
Qed.

Lemma lines_total_div (lv lc cl : Z) :
  (10 * (lv - 1) + lc + cl) / 10 + 1 = lv + (lc + cl) / 10.
Proof.
  replace (10 * (lv - 1) + lc + cl) with ((lv - 1) * 10 + (lc + cl)) by lia.
  rewrite Z.div_add_l by lia. lia.
Qed.

Lemma lock_counters (fuel : nat) (g : game) (cl : Z) (fl : flow) :
  leveled g -> Z.of_nat fuel <= INT_MAX ->
  lock fuel g = Ok (cl, fl) ->
  0 <= cl <= 4 /\
  ((lines_total g + cl) / 10 + 1 <= INT_MAX ->
   match fl with
   | Continue _ => True
   | Next g' | Break g' => leveled g' /\ lines_total g' = lines_total g + cl
   end).
Proof.
  intros [Hlv Hlc] Hfuel. unfold lock.
  destruct (place (board g) (shape g) (pos g) (color g)) as [b1|];
    cbn [rbind]; [|discriminate].
  destruct (clear_loop fuel 1 0 (set_board b1 g)) as [[cl' g1]|] eqn:E2;
    cbn [rbind fst snd]; [|discriminate].
  pose proof (clear_loop_count fuel 1 0 (set_board b1 g) (cl', g1)
                ltac:(lia) ltac:(lia) E2) as Hcl.
  apply clear_loop_counters in E2 as [Hl1 Hc1]; [|cbn; lia].
  cbn [fst snd level lines_cleared set_board] in Hcl, Hl1, Hc1.
  destruct (score cl' g1) as [f|] eqn:E3; cbn [rbind]; [|discriminate].
  destruct (score_never_breaks _ _ _ E3) as [g2 ->].
  apply score_counters in E3 as (Hr & Hl2 & Hc2); [|lia|lia].
  destruct (update g2) as [[k gu]|] eqn:E4; cbn [rbind fst snd];
    [|discriminate].
  destruct (next_shape (set_c k gu)) as [s g4] eqn:E5.
  assert (Hsame : level g4 = level gu /\ lines_cleared g4 = lines_cleared gu).
  { clear - E5. unfold next_shape, draw_peek, rand in E5.
    destruct gu as [b sp co pk pc lv p lcl cc po inp rn]. cbn in E5.
    destruct rn as [|r rn]; destruct pk as [nx|]; cbn in E5;
      try destruct rn as [|r' rn]; cbn in E5;
      injection E5 as <- <-; cbn; auto. }
  destruct Hsame as [Hl4 Hc4].
  assert (Hfinal : (lines_total g + cl') / 10 + 1 <= INT_MAX ->
                   leveled g4 /\ lines_total g4 = lines_total g + cl').
  { intros Hb. unfold lines_total in Hb. rewrite lines_total_div in Hb.
    apply update_levels in E4 as [Hlu Hcu];
      [|lia|lia|rewrite Hl2, Hc2, Hl1, Hc1; exact Hb].
    rewrite ?Hl2, ?Hc2, ?Hl1, ?Hc1 in Hlu, Hcu.
    pose proof (Z.div_mod (lines_cleared g + cl') 10 ltac:(lia)).
    pose proof (Z.mod_pos_bound (lines_cleared g + cl') 10 ltac:(lia)).
    assert (0 <= (lines_cleared g + cl') / 10) by (apply Z.div_pos; lia).
    unfold leveled, lines_total. rewrite Hl4, Hc4, Hlu, Hcu. lia. }
  cbn [board shape pos set_pos set_shape].
  destruct (fits_in (board g4) s 17) as [[|]|]; cbn [rbind];
    [| |discriminate].
  - intros [= <- <-]. split; [exact Hr|]. intros Hb.
    apply (same_counters g4); [reflexivity|reflexivity|]. auto.
  - cbn [stdin set_pos set_shape].
    destruct (wait_replay (stdin g4)) as [w|]; cbn [rbind]; [|discriminate].
    cbn [c set_c].
    destruct (fst w =? keys KEY_QUIT); intros [= <- <-];
      (split; [exact Hr|]); [|auto].
    intros Hb. apply (same_counters g4); [reflexivity|reflexivity|]. auto.
Qed.

Lemma when_counters (f : game -> res game) (cond : bool) (g g' : game) :
  (forall h h', f h = Ok h' ->
     level h' = level h /\ lines_cleared h' = lines_cleared h) ->
  when cond f g = Ok g' ->
  level g' = level g /\ lines_cleared g' = lines_cleared g.
Proof.
  intros Hf. unfold when. destruct cond; [apply Hf|].
  now intros [= <-].
Qed.

Lemma on_left_counters (g g' : game) :
  on_left g = Ok g' ->
  level g' = level g /\ lines_cleared g' = lines_cleared g.
Proof.
  unfold on_left.
  destruct (fits_in (board g) (shape g) (pos g - 1)) as [[|]|];
    cbn [rbind]; intros [= <-]; auto.
Qed.

Lemma on_right_counters (g g' : game) :
  on_right g = Ok g' ->
  level g' = level g /\ lines_cleared g' = lines_cleared g.
Proof.
  unfold on_right.
  destruct (fits_in (board g) (shape g) (pos g + 1)) as [[|]|];
    cbn [rbind]; intros [= <-]; auto.
Qed.

Lemma on_rotate_counters (g g' : game) :
  on_rotate g = Ok g' ->
  level g' = level g /\ lines_cleared g' = lines_cleared g.
Proof.
  unfold on_rotate.
  destruct (fits_in (board g) (5 * find_prev (Z.quot (shape g) 5)) (pos g))
    as [[|]|]; cbn [rbind]; intros [= <-]; auto.
Qed.

Lemma on_rrotate_counters (g g' : game) :
  on_rrotate g = Ok g' ->
  level g' = level g /\ lines_cleared g' = lines_cleared g.
Proof.
  unfold on_rrotate.
  destruct (fits_in (board g) (5 * sh (shape g) 0) (pos g))
    as [[|]|]; cbn [rbind]; intros [= <-]; auto.
Qed.

Lemma on_drop_counters (g g' : game) :
  on_drop g = Ok g' ->
  level g' = level g /\ lines_cleared g' = lines_cleared g.
Proof.
  unfold on_drop.
  destruct (drop_loop (length (board g)) (board g) (shape g) (pos g) (points g));
    cbn [rbind]; intros [= <-]; auto.
Qed.

Lemma on_pause_counters (g g' : game) :
  on_pause g = Ok g' ->
  level g' = level g /\ lines_cleared g' = lines_cleared g.
Proof.
  unfold on_pause.
  destruct (wait_pause (stdin g)); cbn [rbind]; intros [= <-]; auto.
Qed.

Lemma keys_phase_counters (g : game) (fl : flow) :
  keys_phase g = Ok fl ->
  match fl with
  | Continue _ => True
  | Next g' | Break g' =>
      level g' = level g /\ lines_cleared g' = lines_cleared g
  end.
Proof.
  unfold keys_phase.
  destruct (when (c g =? keys KEY_LEFT) on_left g) as [g1|] eqn:E1;
    cbn [rbind]; [|discriminate].
  apply (when_counters _ _ _ _ on_left_counters) in E1 as [<- <-].
  destruct (when (c g1 =? keys KEY_ROTATE) on_rotate g1) as [g2|] eqn:E2;
    cbn [rbind]; [|discriminate].
  apply (when_counters _ _ _ _ on_rotate_counters) in E2 as [<- <-].
  destruct (when (c g2 =? keys KEY_RROTATE) on_rrotate g2) as [g3|] eqn:E3;
    cbn [rbind]; [|discriminate].
  apply (when_counters _ _ _ _ on_rrotate_counters) in E3 as [<- <-].
  destruct (when (c g3 =? keys KEY_RIGHT) on_right g3) as [g4|] eqn:E4;
    cbn [rbind]; [|discriminate].
  apply (when_counters _ _ _ _ on_right_counters) in E4 as [<- <-].
  destruct (when (c g4 =? keys KEY_DROP) on_drop g4) as [g5|] eqn:E5;
    cbn [rbind]; [|discriminate].
  apply (when_counters _ _ _ _ on_drop_counters) in E5 as [<- <-].
  destruct (c g5 =? keys KEY_RESTART); [intros [= <-]; exact I|].
  destruct ((c g5 =? keys KEY_PAUSE) || (c g5 =? keys KEY_QUIT)).
  - destruct (c g5 =? keys KEY_QUIT); [intros [= <-]; auto|].
    destruct (on_pause g5) as [g6|] eqn:E6; cbn [rbind]; [|discriminate].
    intros [= <-]. apply on_pause_counters, E6.
  - intros [= <-]. auto.
Qed.

Lemma redraw_counters (g g' : game) :
  redraw g = Ok g' -> lines_cleared g < 10 ->
  level g' = level g /\ lines_cleared g' = lines_cleared g.
Proof.
  unfold redraw. intros E Hs.
  destruct (place (board g) (shape g) (pos g) (color g)) as [b1|];
    cbn [rbind] in E; [|discriminate].
  destruct (update (set_board b1 g)) as [[k gu]|] eqn:E2;
    cbn [rbind fst snd] in E; [|discriminate].
  apply update_counters in E2; [|exact Hs].
  destruct (place (board (set_c k gu)) (shape (set_c k gu)) (pos (set_c k gu)) 0);
    cbn [rbind] in E; [|discriminate].
  injection E as <-. exact E2.
Qed.

Lemma tick_counters (fuel : nat) (g : game) (cl : Z) (fl : flow) :
  leveled g -> Z.of_nat fuel <= INT_MAX ->
  tick fuel g = Ok (cl, fl) ->
  0 <= cl <= 4 /\
  ((lines_total g + cl) / 10 + 1 <= INT_MAX ->
   match fl with
   | Continue _ => True
   | Next g' | Break g' => leveled g' /\ lines_total g' = lines_total g + cl
   end).
Proof.
  intros Hg Hfuel. unfold tick.
  destruct (c g <? 0).
  - destruct (fits_in (board g) (shape g) (pos g + B_COLS)) as [[|]|];
      cbn [rbind]; [| |discriminate].
    + intros [= <- <-]. split; [lia|]. intros _.
      apply (same_counters g); [reflexivity|reflexivity|].
      split; [exact Hg|lia].
    + apply lock_counters; assumption.
  - intros [= <- <-]. split; [lia|]. intros _. split; [exact Hg|lia].
Qed.

Lemma step_counters (fuel : nat) (g : game) (cl : Z) (o : outcome) :
  leveled g -> Z.of_nat fuel <= INT_MAX ->
  step fuel g = Ok (cl, o) ->
  0 <= cl <= 4 /\
  ((lines_total g + cl) / 10 + 1 <= INT_MAX ->
   match o with
   | Restarted _ => True
   | Running g' | Exited g' =>
       leveled g' /\ lines_total g' = lines_total g + cl
   end).
Proof.
  intros Hg Hfuel. unfold step.
  destruct (tick fuel g) as [[cl' fl]|] eqn:E1; cbn [rbind fst snd];
    [|discriminate].
  apply (tick_counters _ _ _ _ Hg Hfuel) in E1 as [Hr E1].
  destruct fl as [g1|g1|g1]; try (intros [= <- <-]; auto).
  destruct (keys_phase g1) as [fl2|] eqn:E2; cbn [rbind]; [|discriminate].
  apply keys_phase_counters in E2.
  destruct fl2 as [g2|g2|g2].
  - destruct (redraw g2) as [g3|] eqn:E3; cbn [rbind]; [|discriminate].
    intros [= <- <-]. split; [exact Hr|]. intros Hb.
    destruct E2 as [El Ec]. specialize (E1 Hb).
    pose proof (same_counters g1 g2 _ El Ec E1) as H2.
    apply redraw_counters in E3 as [El3 Ec3]; [|destruct H2 as [[_ ?] _]; lia].
    exact (same_counters g2 g3 _ El3 Ec3 H2).
  - intros [= <- <-]. auto.
  - intros [= <- <-]. split; [exact Hr|]. intros Hb.
    destruct E2 as [El Ec]. exact (same_counters g1 g2 _ El Ec (E1 Hb)).
Qed.

Lemma total_nonneg (tr : list Z) :
  Forall (fun x => 0 <= x <= 4) tr -> 0 <= sum_cleared tr.
Proof.
  induction 1 as [|x tr Hx _ IH]; cbn; [lia|]. unfold sum_cleared in IH. lia.
Qed.

(** The rows cleared in an iteration are between 0 and 4 whenever the
    iteration ends: the scoring block would read outside its table
    otherwise. *)
Lemma lock_label (fuel : nat) (g : game) (cl : Z) (fl : flow) :
  Z.of_nat fuel <= INT_MAX -> lock fuel g = Ok (cl, fl) -> 0 <= cl <= 4.
Proof.
  intros Hfuel. unfold lock.
  destruct (place (board g) (shape g) (pos g) (color g)) as [b1|];
    cbn [rbind]; [|discriminate].
  destruct (clear_loop fuel 1 0 (set_board b1 g)) as [[cl' g1]|] eqn:E2;
    cbn [rbind fst snd]; [|discriminate].
  pose proof (clear_loop_count fuel 1 0 (set_board b1 g) (cl', g1)
                ltac:(lia) ltac:(lia) E2) as Hcl.
  cbn [fst] in Hcl.
  destruct (score cl' g1) as [f|] eqn:E3; cbn [rbind]; [|discriminate].
  assert (Hr : 0 <= cl' <= 4).
  { unfold score in E3. destruct (Z.ltb_spec 0 cl'); [|lia].
    destruct (score_table !! Z.to_nat cl') as [base|] eqn:Eb; [|discriminate].
    apply lookup_lt_Some in Eb. cbn in Eb. lia. }
  destruct (score_never_breaks _ _ _ E3) as [g2 ->].
  destruct (update g2) as [[k gu]|]; cbn [rbind fst snd]; [|discriminate].
  destruct (next_shape (set_c k gu)) as [s g4].
  match goal with
  | |- context [fits_in ?b ?s ?p] => destruct (fits_in b s p) as [[|]|]
  end; cbn [rbind]; [| |discriminate].
  - intros [= <- _]. exact Hr.
  - match goal with
    | |- context [wait_replay ?i] => destruct (wait_replay i) as [w|]
    end; cbn [rbind]; [|discriminate].
    match goal with
    | |- context [if ?t then _ else _] => destruct t
    end; intros [= <- _]; exact Hr.
Qed.

Lemma step_label (fuel : nat) (g : game) (cl : Z) (o : outcome) :
  Z.of_nat fuel <= INT_MAX -> step fuel g = Ok (cl, o) -> 0 <= cl <= 4.
Proof.
  intros Hfuel. unfold step.
  destruct (tick fuel g) as [[cl' fl]|] eqn:E1; cbn [rbind fst snd];
    [|discriminate].
  assert (Hr : 0 <= cl' <= 4).
  { unfold tick in E1. destruct (c g <? 0).
    - destruct (fits_in (board g) (shape g) (pos g + B_COLS)) as [[|]|];
        cbn [rbind] in E1; [| |discriminate].
      + injection E1 as <- _. lia.
      + exact (lock_label _ _ _ _ Hfuel E1).
    - injection E1 as <- _. lia. }
  destruct fl as [g1|g1|g1]; try (intros [= <- _]; exact Hr).
  destruct (keys_phase g1) as [[g2|g2|g2]|]; cbn [rbind];
    try discriminate; try (intros [= <- _]; exact Hr).
  destruct (redraw g2); cbn [rbind]; [|discriminate].
  intros [= <- _]; exact Hr.
Qed.

Lemma play_labels (fuel n : nat) :
  forall (g : game) (tr : list Z) (o : outcome),
  Z.of_nat fuel <= INT_MAX -> play fuel n g = Ok (tr, o) ->
  Forall (fun x => 0 <= x <= 4) tr.
Proof.
  induction n as [|n IH]; intros g tr o Hfuel; simpl.
  - intros [= <- _]. constructor.
  - destruct (step fuel g) as [[cl o1]|] eqn:E1; cbn [rbind fst snd];
      [|discriminate].
    apply (step_label _ _ _ _ Hfuel) in E1.
    destruct o1 as [g1|g1|g1];
      try (intros [= <- _]; constructor; [exact E1|constructor]).
    destruct (play fuel n g1) as [[tr' o']|] eqn:E2; cbn [rbind fst snd];
      [|discriminate].
    intros [= <- _]. constructor; [exact E1|]. exact (IH _ _ _ Hfuel E2).
Qed.

(** Along a game the two counters record the rows cleared: their total grows
    by the rows cleared in each iteration. *)
Lemma play_counters (fuel n : nat) :
  forall (g : game) (tr : list Z) (o : outcome),
  leveled g -> Z.of_nat fuel <= INT_MAX ->
  play fuel n g = Ok (tr, o) ->
  (lines_total g + sum_cleared tr) / 10 + 1 <= INT_MAX ->
  match o with
  | Restarted _ => True
  | Running g' | Exited g' =>
      leveled g' /\ lines_total g' = lines_total g + sum_cleared tr
  end.
Proof.
  induction n as [|n IH]; intros g tr o Hg Hfuel; simpl.
  - intros [= <- <-] _. cbn. split; [exact Hg|lia].
  - destruct (step fuel g) as [[cl o1]|] eqn:E1; cbn [rbind fst snd];
      [|discriminate].
    apply (step_counters _ _ _ _ Hg Hfuel) in E1 as [Hr E1].
    destruct o1 as [g1|g1|g1].
    + destruct (play fuel n g1) as [[tr' o']|] eqn:E2; cbn [rbind fst snd];
        [|discriminate].
      intros [= <- <-] Hb.
      pose proof (total_nonneg _ (play_labels _ _ _ _ _ Hfuel E2)) as Hnn.
      change (sum_cleared (cl :: tr')) with (cl + sum_cleared tr') in *.
      assert (Hb1 : (lines_total g + cl) / 10 + 1 <= INT_MAX).
      { assert ((lines_total g + cl) / 10
                <= (lines_total g + (cl + sum_cleared tr')) / 10)
          by (apply Z.div_le_mono; lia). lia. }
      destruct (E1 Hb1) as [Hg1 Ht1].
      specialize (IH g1 tr' o' Hg1 Hfuel E2).
      rewrite Ht1 in IH.
      replace (lines_total g + cl + sum_cleared tr')
        with (lines_total g + (cl + sum_cleared tr')) in IH by lia.
      exact (IH Hb).
    + intros [= <- <-] _. exact I.
    + intros [= <- <-] Hb. cbn in Hb |- *.
      rewrite Z.add_0_r in *. apply E1, Hb.
Qed.

Lemma start_counters (input : list Z) (rnd : list nat) :
  level (start input rnd) = 1 /\ lines_cleared (start input rnd) = 0.
Proof.
  unfold start, init, next_shape, draw_peek, rand. cbn.
  destruct rnd as [|r [|r' rnd]]; cbn; auto.
Qed.

Lemma leveled_level (g : game) :
  leveled g -> level g = 1 + lines_total g / 10.
Proof.
  unfold leveled, lines_total. intros [_ Hc].
  replace (10 * (level g - 1) + lines_cleared g)
    with ((level g - 1) * 10 + lines_cleared g) by lia.
  rewrite Z.div_add_l by lia. rewrite Z.div_small by lia. lia.
Qed.

(** ** C7: the level and the cleared lines *)

(** C7. In a game that [main] starts, after any number of iterations in which
    [n1] rows were cleared in all the level is [1 + n1 / 10], however the rows
    were spread over the clear-cycles; after further iterations of the same
    game with [n2] more rows it is [1 + (n1 + n2) / 10], which is not less.
    ([level] is an [int]: the level reached is assumed to be at most
    [INT_MAX].) *)
Theorem level_follows_cleared_lines
    (fuel n k : nat) (input : list Z) (rnd : list nat)
    (tr1 tr2 : list Z) (g1 : game) (o2 : outcome) :
  Z.of_nat fuel <= INT_MAX ->
  play fuel n (start input rnd) = Ok (tr1, Running g1) ->
  play fuel k g1 = Ok (tr2, o2) -> in_game o2 ->
  (sum_cleared tr1 + sum_cleared tr2) / 10 + 1 <= INT_MAX ->
  level g1 = 1 + sum_cleared tr1 / 10 /\
  level (state_of o2) = 1 + (sum_cleared tr1 + sum_cleared tr2) / 10 /\
  level g1 <= level (state_of o2).
Proof.
  intros Hfuel E1 E2 Hin Hb.
  destruct (start_counters input rnd) as [Hl0 Hc0].
  assert (Hg0 : leveled (start input rnd)).
  { unfold leveled. rewrite Hl0, Hc0. unfold INT_MIN. lia. }
  assert (Ht0 : lines_total (start input rnd) = 0).
  { unfold lines_total. rewrite Hl0, Hc0. lia. }
  pose proof (total_nonneg _ (play_labels _ _ _ _ _ Hfuel E1)) as Hn1.
  pose proof (total_nonneg _ (play_labels _ _ _ _ _ Hfuel E2)) as Hn2.
  assert (Hmono : sum_cleared tr1 / 10
                  <= (sum_cleared tr1 + sum_cleared tr2) / 10)
    by (apply Z.div_le_mono; lia).
  pose proof (play_counters _ _ _ _ _ Hg0 Hfuel E1) as H1.
  rewrite Ht0, Z.add_0_l in H1.
  destruct (H1 ltac:(lia)) as [Hg1 Ht1].
  pose proof (play_counters _ _ _ _ _ Hg1 Hfuel E2) as H2.
  rewrite Ht1 in H2. specialize (H2 Hb).
  assert (H2' : leveled (state_of o2) /\
                lines_total (state_of o2) = sum_cleared tr1 + sum_cleared tr2)
    by (destruct o2; [exact H2|contradiction|exact H2]).
  destruct H2' as [Hg2 Ht2].
  rewrite (leveled_level g1 Hg1), (leveled_level _ Hg2), Ht1, Ht2.
  repeat split; lia.
Qed.

Lemma level_follows_cleared_lines_witness :
  level (state_of (snd (demo 46))) = 1 + sum_cleared (fst (demo 46)) / 10 /\
  level (state_of (snd (demo 115)))
  = 1 + (sum_cleared (fst (demo 46))
         + sum_cleared (skipn 46 (fst (demo 115)))) / 10 /\
  level (state_of (snd (demo 46))) <= level (state_of (snd (demo 115))).
Proof.
  apply (level_follows_cleared_lines CLEAR_FUEL 46 69 demo_input demo_rand
           (fst (demo 46)) (skipn 46 (fst (demo 115)))
           (state_of (snd (demo 46))) (snd (demo 115))).
  - vm_compute. discriminate.
  - vm_compute. reflexivity.
  - vm_compute. reflexivity.
  - vm_compute. exact I.
  - vm_compute. discriminate.
Defined.

Lemma frame_is_kept_witness :
  (exists b', place init_board 0 17 2 = Ok b' /\ tagged frame_cell b') /\
  (tagged frame_cell (clear_row init_board 20) /\
   tagged frame_cell (shift_down init_board 20)) /\
  tagged frame_cell (board (state_of (snd (demo 115)))).
Proof.
  destruct frame_is_kept as (_ & Hplace & Hrows & Hrun).
  split; [|split].
  - apply (Hplace init_board 0 17 2).
    + reflexivity.
    + exact init_board_frame_tagged.
    + apply base_shape_ptr. exists 0. split; [lia|reflexivity].
    + exact spawn_anchor_ok.
    + vm_compute. reflexivity.
  - apply (Hrows init_board 20).
    + reflexivity.
    + exact init_board_frame_tagged.
    + unfold B_ROWS. lia.
  - apply (Hrun CLEAR_FUEL 115%nat demo_input demo_rand).
    vm_compute. reflexivity.
Defined.

(** ** C6: points awarded for cleared rows *)

Lemma clear_loop_points (fuel : nat) :
  forall (i cl : Z) (g : game) (r : Z * game),
  clear_loop fuel i cl g = Ok r -> points (snd r) = points g.
Proof.
  induction fuel as [|fuel IH]; intros i cl g r.
  - simpl. destruct (i <? B_ROWS - 2); [discriminate|].
    intros [= <-]. reflexivity.
  - destruct (Z.lt_ge_cases i (B_ROWS - 2)) as [Hlt|Hge].
    + destruct (row_full (board g) i) eqn:Hf.
      * destruct (clear_loop_hit fuel i cl g Hlt Hf)
          as (g4 & _ & _ & Hp & _ & ->).
        intros E. apply IH in E. congruence.
      * rewrite clear_loop_skip by assumption. apply IH.
    + rewrite clear_loop_done by exact Hge. intros [= <-]. reflexivity.
Qed.

Lemma next_shape_points (g g' : game) (s : Z) :
  next_shape g = (s, g') -> points g' = points g.
Proof.
  unfold next_shape, draw_peek, rand.
  destruct g as [b sp co pk pc lv p lcl cc po inp rn]. cbn.
  destruct rn as [|r rn]; destruct pk as [nx|]; cbn;
    try destruct rn as [|r' rn]; cbn; intros [= <- <-]; reflexivity.
Qed.

(** The points that a lock leaves are those of its scoring block. *)
Lemma lock_points (fuel : nat) (g : game) (cl : Z) (fl : flow) :
  lock fuel g = Ok (cl, fl) -> lines_cleared g < 10 ->
  exists g1 g2,
    points g1 = points g /\ level g1 = level g /\
    score cl g1 = Ok (Next g2) /\
    match fl with
    | Continue _ => True
    | Next g' | Break g' => points g' = points g2
    end.
Proof.
  unfold lock. intros E Hs.
  destruct (place (board g) (shape g) (pos g) (color g)) as [b1|];
    cbn [rbind] in E; [|discriminate].
  destruct (clear_loop fuel 1 0 (set_board b1 g)) as [[cl' g1]|] eqn:E2;
    cbn [rbind fst snd] in E; [|discriminate].
  pose proof (clear_loop_points _ _ _ _ _ E2) as Hp1.
  apply clear_loop_counters in E2 as [Hl1 _]; [|exact Hs].
  cbn [snd points level set_board] in Hp1, Hl1.
  destruct (score cl' g1) as [f|] eqn:E3; cbn [rbind] in E; [|discriminate].
  destruct (score_never_breaks _ _ _ E3) as [g2 ->].
  destruct (update g2) as [[k gu]|] eqn:E4; cbn [rbind fst snd] in E;
    [|discriminate].
  apply update_keeps in E4 as (_ & _ & _ & _ & _ & Hpu & _).
  destruct (next_shape (set_c k gu)) as [s g4] eqn:E5.
  apply next_shape_points in E5. cbn [points set_c] in E5.
  exists g1, g2.
  match type of E with
  | context [fits_in ?b ?s ?p] => destruct (fits_in b s p) as [[|]|]
  end; cbn [rbind] in E; [| |discriminate].
  - injection E as <- <-. cbn. repeat split; congruence.
  - match type of E with
    | context [wait_replay ?i] => destruct (wait_replay i) as [w|]
    end; cbn [rbind] in E; [|discriminate].
    match type of E with
    | context [if ?t then _ else _] => destruct t
    end; injection E as <- <-; cbn; repeat split; congruence.
Qed.

(** C6. With [clears] in 1 .. 4 the scoring block adds exactly
    [base * level] to the points, base being 40, 100, 300, 1200, and with
    [clears = 0] it leaves them as they are; and a lock that clears [clears]
    rows, after which the game goes on or is left, has changed the points by
    exactly this amount.  The product and the sum are assumed to be
    representable in [int] and [long]. *)
Theorem score_adds_base_times_level (clears : Z) (g : game) :
  0 <= clears <= 4 ->
  0 <= level g -> 1200 * level g <= INT_MAX ->
  LONG_MIN <= points g -> points g + 1200 * level g <= LONG_MAX ->
  (exists g',
     score clears g = Ok (Next g') /\
     points g' = points g + base_points clears * level g /\
     level g' = level g /\
     (clears = 0 -> points g' = points g)) /\
  (forall (fuel : nat) (fl : flow),
     lines_cleared g < 10 -> lock fuel g = Ok (clears, fl) ->
     match fl with
     | Continue _ => True
     | Next g' | Break g' =>
         points g' = points g + base_points clears * level g
     end).
Proof.
  intros Hc Hl Hi Hp Hs. split.
  - now apply score_points.
  - intros fuel fl Hlc E.
    destruct (lock_points _ _ _ _ E Hlc) as (g1 & g2 & Hp1 & Hl1 & Es & Hfl).
    destruct (score_points clears g1 Hc) as (g2' & Es' & Hp2 & _);
      try (rewrite ?Hp1, ?Hl1; assumption).
    rewrite Es in Es'. injection Es' as <-.
    rewrite Hp1, Hl1 in Hp2.
    destruct fl; [congruence|exact I|congruence].
Qed.

Lemma score_adds_base_times_level_witness :
  (exists g',
     score 2 (state_of (snd (demo 19))) = Ok (Next g') /\
     points g' = points (state_of (snd (demo 19)))
                 + base_points 2 * level (state_of (snd (demo 19))) /\
     level g' = level (state_of (snd (demo 19))) /\
     (2 = 0 -> points g' = points (state_of (snd (demo 19))))) /\
  match lock CLEAR_FUEL (state_of (snd (demo 19))) with
  | Ok (cl, Next g') =>
      cl = 2 /\
      points g' = points (state_of (snd (demo 19)))
                  + base_points 2 * level (state_of (snd (demo 19)))
  | _ => False
  end.
Proof.
  destruct (score_adds_base_times_level 2 (state_of (snd (demo 19))))
    as [H1 H2].
  - lia.
  - vm_compute. discriminate.
  - vm_compute. discriminate.
  - vm_compute. discriminate.
  - vm_compute. discriminate.
  - split; [exact H1|].
    specialize (H2 CLEAR_FUEL
      (match lock CLEAR_FUEL (state_of (snd (demo 19))) with
       | Ok (_, f) => f
       | Err _ => Continue (start [] [])
       end)).
    assert (Hl : lines_cleared (state_of (snd (demo 19))) < 10)
      by (vm_compute; reflexivity).
    assert (E : lock CLEAR_FUEL (state_of (snd (demo 19)))
                = Ok (2, match lock CLEAR_FUEL (state_of (snd (demo 19))) with
                         | Ok (_, f) => f
                         | Err _ => Continue (start [] [])
                         end))
      by (vm_compute; reflexivity).
    specialize (H2 Hl E). vm_compute in H2 |- *. split; [reflexivity|exact H2].
Defined.

(* ===================================================================== *)
(** * The rest of the program *)

(** ** The main loop stays inside its arrays *)

Lemma fine_bind {A B : Type} (P : A -> Prop) (Q : B -> Prop)
      (m : res A) (k : A -> res B) :
  fine P m -> (forall a, P a -> fine Q (k a)) -> fine Q (rbind m k).
Proof. destruct m as [a|[|]]; cbn; auto. Qed.

Lemma fine_Ok {A : Type} (P : A -> Prop) (m : res A) (a : A) :
  fine P m -> m = Ok a -> P a.
Proof. intros H ->. exact H. Qed.

Lemma fine_impl {A : Type} (P Q : A -> Prop) (m : res A) :
  fine P m -> (forall a, m = Ok a -> P a -> Q a) -> fine Q m.
Proof. destruct m as [a|[|]]; cbn; auto. Qed.

(** ** The reads of [fits_in] stay inside the board *)

Lemma fits_in_anchor_total (b : Board) (s p : Z) :
  length b = Z.to_nat B_SIZE -> shape_ptr s -> anchor_ok p ->
  exists v, fits_in b s p = Ok v.
Proof.
  intros Hl Hs Ha.
  rewrite (fits_in_value b s p Hl (anchor_cells_in_board _ _ Hs Ha)). eauto.
Qed.

(** One cell to the left, to the right or below an anchor of the playing
    field: the anchor cell is on the frame, where the first read of [fits_in]
    decides and the others are not made, or it is an anchor of the field. *)
Lemma near_anchor (p p' : Z) :
  anchor_ok p -> p' = p - 1 \/ p' = p + 1 \/ p' = p + B_COLS ->
  in_board p' /\ (frame_cell p' = true \/ anchor_ok p').
Proof.
  intros (row & col & [Hr Hc] & ->) Hp'.
  assert (E : exists row' col', p' = row' * B_COLS + col' /\
            1 <= row' <= B_ROWS - 2 /\ 0 <= col' <= B_COLS - 1 /\
            (row' <= B_ROWS - 3 \/ 1 <= col' <= B_COLS - 2)).
  { destruct Hp' as [->|[->| ->]].
    - exists row, (col - 1). consts. lia.
    - exists row, (col + 1). consts. lia.
    - exists (row + 1), col. consts. lia. }
  destruct E as (row' & col' & -> & Hr' & Hc' & _).
  split; [unfold in_board; consts; lia|].
  rewrite frame_cell_at by (consts; lia).
  destruct (Z.eqb_spec col' 0); [auto|].
  destruct (Z.eqb_spec col' (B_COLS - 1)); [auto|].
  destruct (Z.leb_spec (B_ROWS - 2) row'); [auto|].
  right. exists row', col'. split; [|reflexivity]. split; consts; lia.
Qed.

Lemma fits_in_frame (b : Board) (s p : Z) :
  length b = Z.to_nat B_SIZE -> tagged frame_cell b -> frame_cell p = true ->
  fits_in b s p = Ok false.
Proof.
  intros Hl Ht Hp. unfold fits_in, orelse, occupied.
  rewrite rd_in_board by (auto; apply frame_cell_in_board, Hp).
  cbn [rbind]. rewrite (get_tag_nonzero _ _ _ Ht Hp). reflexivity.
Qed.

Lemma fits_in_near (b : Board) (s p p' : Z) :
  length b = Z.to_nat B_SIZE -> tagged frame_cell b -> shape_ptr s ->
  anchor_ok p -> p' = p - 1 \/ p' = p + 1 \/ p' = p + B_COLS ->
  exists v, fits_in b s p' = Ok v.
Proof.
  intros Hl Ht Hs Ha Hp'.
  destruct (near_anchor p p' Ha Hp') as [_ [Hf|Ha']].
  - rewrite (fits_in_frame b s p' Hl Ht Hf). eauto.
  - apply fits_in_anchor_total; assumption.
Qed.

(** ** The key handlers *)

(** Rotation keeps the colour: the catalog gives the same colour to an entry,
    to its successor and to the entry found by the backward search. *)
Lemma catalog_colours (k : Z) :
  0 <= k < N_SHAPES ->
  sh (5 * sh (5 * k) 0) 4 = sh (5 * k) 4 /\
  sh (5 * find_prev k) 4 = sh (5 * k) 4.
Proof.
  intros Hk.
  assert (H : forallb (fun k => (sh (5 * sh (5 * k) 0) 4 =? sh (5 * k) 4) &&
                                (sh (5 * find_prev k) 4 =? sh (5 * k) 4))
                      (seqZ 0 N_SHAPES) = true) by (vm_compute; reflexivity).
  pose proof (forallb_seqZ _ _ _ H k ltac:(lia)) as Hk'. cbv beta in Hk'. lia.
Qed.

Lemma same_board_refl (g : game) : same_board g g.
Proof. unfold same_board. auto. Qed.

Lemma same_board_trans (g1 g2 g3 : game) :
  same_board g1 g2 -> same_board g2 g3 -> same_board g1 g3.
Proof.
  unfold same_board. intros (A1 & A2 & A3 & A4) (B1 & B2 & B3 & B4).
  repeat split; congruence.
Qed.

Lemma sound_same (g g' : game) :
  sound g -> good g' -> same_board g g' -> sound g'.
Proof.
  intros (_ & Hn & Hc & Hk) Hg (Hb & Hco & Hpk & Hsh).
  unfold sound. rewrite Hb, Hco, Hpk, Hsh. auto.
Qed.

Lemma on_left_sound (g : game) :
  sound g -> exists g', on_left g = Ok g' /\ sound g' /\ same_board g g'.
Proof.
  intros Hs. pose proof Hs as (Hg & _). pose proof Hg as ([Hl Ht] & Hp & Ha & _).
  destruct (fits_in_near (board g) (shape g) (pos g) (pos g - 1) Hl Ht Hp Ha
              ltac:(auto)) as [v E].
  assert (Ho : on_left g = Ok (if v then set_pos (pos g - 1) g else g))
    by (unfold on_left; rewrite E; reflexivity).
  eexists. split; [exact Ho|].
  assert (Hsb : same_board g (if v then set_pos (pos g - 1) g else g))
    by (destruct v; unfold same_board; cbn; auto).
  split; [|exact Hsb].
  exact (sound_same _ _ Hs (on_left_good _ _ Hg Ho) Hsb).
Qed.

Lemma on_right_sound (g : game) :
  sound g -> exists g', on_right g = Ok g' /\ sound g' /\ same_board g g'.
Proof.
  intros Hs. pose proof Hs as (Hg & _). pose proof Hg as ([Hl Ht] & Hp & Ha & _).
  destruct (fits_in_near (board g) (shape g) (pos g) (pos g + 1) Hl Ht Hp Ha
              ltac:(auto)) as [v E].
  assert (Ho : on_right g = Ok (if v then set_pos (pos g + 1) g else g))
    by (unfold on_right; rewrite E; reflexivity).
  eexists. split; [exact Ho|].
  assert (Hsb : same_board g (if v then set_pos (pos g + 1) g else g))
    by (destruct v; unfold same_board; cbn; auto).
  split; [|exact Hsb].
  exact (sound_same _ _ Hs (on_right_good _ _ Hg Ho) Hsb).
Qed.

Lemma on_rotate_sound (g : game) :
  sound g -> exists g', on_rotate g = Ok g' /\ sound g' /\ same_board g g'.
Proof.
  intros Hs. pose proof Hs as (Hg & _).
  pose proof Hg as ([Hl Ht] & (k & Hk & Hsk) & Ha & _).
  assert (Hp : shape_ptr (5 * find_prev (Z.quot (shape g) 5))).
  { rewrite Hsk, quot_5. exists (find_prev k).
    split; [apply (catalog_links k Hk)|reflexivity]. }
  destruct (fits_in_anchor_total (board g) _ (pos g) Hl Hp Ha) as [v E].
  assert (Ho : on_rotate g
               = Ok (set_shape (if v then 5 * find_prev (Z.quot (shape g) 5)
                                else shape g) g))
    by (unfold on_rotate; rewrite E; reflexivity).
  eexists. split; [exact Ho|].
  assert (Hsb : same_board g
            (set_shape (if v then 5 * find_prev (Z.quot (shape g) 5)
                        else shape g) g)).
  { unfold same_board. cbn. repeat split. destruct v; [|reflexivity].
    rewrite Hsk, quot_5. apply (catalog_colours k Hk). }
  split; [|exact Hsb].
  exact (sound_same _ _ Hs (on_rotate_good _ _ Hg Ho) Hsb).
Qed.

Lemma on_rrotate_sound (g : game) :
  sound g -> exists g', on_rrotate g = Ok g' /\ sound g' /\ same_board g g'.
Proof.
  intros Hs. pose proof Hs as (Hg & _).
  pose proof Hg as ([Hl Ht] & (k & Hk & Hsk) & Ha & _).
  assert (Hp : shape_ptr (5 * sh (shape g) 0)).
  { rewrite Hsk. exists (sh (5 * k) 0).
    split; [apply (catalog_links k Hk)|reflexivity]. }
  destruct (fits_in_anchor_total (board g) _ (pos g) Hl Hp Ha) as [v E].
  assert (Ho : on_rrotate g
               = Ok (set_shape (if v then 5 * sh (shape g) 0 else shape g) g))
    by (unfold on_rrotate; rewrite E; reflexivity).
  eexists. split; [exact Ho|].
  assert (Hsb : same_board g
            (set_shape (if v then 5 * sh (shape g) 0 else shape g) g)).
  { unfold same_board. cbn. repeat split. destruct v; [|reflexivity].
    rewrite Hsk. apply (catalog_colours k Hk). }
  split; [|exact Hsb].
  exact (sound_same _ _ Hs (on_rrotate_good _ _ Hg Ho) Hsb).
Qed.

(** The drop loop: the piece falls [k] rows, as far as it fits, and a point
    is counted for each row. *)
Lemma drop_loop_spec (b : Board) (s : Z) :
  length b = Z.to_nat B_SIZE -> tagged frame_cell b -> shape_ptr s ->
  forall (fuel : nat) (row col pts : Z),
  in_field row col -> B_ROWS - 3 - row <= Z.of_nat fuel ->
  exists k pts',
    0 <= k <= B_ROWS - 3 - row /\
    drop_loop fuel b s (row * B_COLS + col) pts
    = Ok ((row + k) * B_COLS + col, pts') /\
    (forall j, 1 <= j <= k ->
       fits_in b s ((row + j) * B_COLS + col) = Ok true) /\
    fits_in b s ((row + k + 1) * B_COLS + col) = Ok false /\
    (LONG_MIN <= pts -> pts + (B_ROWS - 3 - row) <= LONG_MAX ->
     pts' = pts + k).
Proof.
  intros Hl Ht Hs.
  induction fuel as [|fuel IH]; intros row col pts Hf Hfuel.
  - assert (row = B_ROWS - 3) as -> by (destruct Hf; lia).
    assert (Hfr : frame_cell ((B_ROWS - 3 + 1) * B_COLS + col) = true).
    { rewrite frame_cell_at by (destruct Hf; consts; lia).
      vm_compute (B_ROWS - 2 <=? B_ROWS - 3 + 1). apply orb_true_r. }
    pose proof (fits_in_frame b s _ Hl Ht Hfr) as E.
    exists 0, pts. split; [lia|]. rewrite Z.add_0_r.
    split.
    { simpl.
      replace ((B_ROWS - 3) * B_COLS + col + B_COLS)
        with ((B_ROWS - 3 + 1) * B_COLS + col) by lia.
      rewrite E. reflexivity. }
    split; [intros; lia|]. split; [exact E|lia].
  - assert (Ha : anchor_ok (row * B_COLS + col)) by (exists row, col; auto).
    destruct (fits_in_near b s _ (row * B_COLS + col + B_COLS) Hl Ht Hs Ha
                ltac:(auto)) as [v E].
    replace (row * B_COLS + col + B_COLS) with ((row + 1) * B_COLS + col) in E
      by lia.
    destruct v.
    + assert (Hf' : in_field (row + 1) col).
      { pose proof (fits_anchor_empty _ _ _ E) as [_ He].
        destruct (frame_cell ((row + 1) * B_COLS + col)) eqn:Efr.
        - exfalso. exact (tagged_nonzero b _ Ht Efr He).
        - rewrite frame_cell_at in Efr by (destruct Hf; consts; lia).
          destruct Hf. split; consts; lia. }
      destruct (IH (row + 1) col (wrap_long (pts + 1)) Hf' ltac:(lia))
        as (k & pts' & Hk & Ed & Hall & Hlast & Hpts).
      exists (k + 1), pts'. split; [lia|]. split.
      { simpl.
        replace (row * B_COLS + col + B_COLS) with ((row + 1) * B_COLS + col)
          by lia.
        rewrite E. cbn [rbind]. rewrite Ed. f_equal. f_equal. lia. }
      split.
      { intros j Hj. destruct (Z.eq_dec j 1) as [->|]; [exact E|].
        replace (row + j) with (row + 1 + (j - 1)) by lia. apply Hall. lia. }
      split.
      { replace (row + (k + 1) + 1) with (row + 1 + k + 1) by lia.
        exact Hlast. }
      intros H1 H2. rewrite wrap_long_id in Hpts by (unfold LONG_MIN in *; lia).
      rewrite Hpts; unfold LONG_MIN in *; lia.
    + exists 0, pts. split; [destruct Hf; lia|]. rewrite Z.add_0_r. split.
      { simpl.
        replace (row * B_COLS + col + B_COLS) with ((row + 1) * B_COLS + col)
          by lia.
        rewrite E. reflexivity. }
      split; [intros; lia|]. split; [exact E|lia].
Qed.

Lemma on_drop_sound (g : game) :
  sound g -> exists g', on_drop g = Ok g' /\ sound g' /\ same_board g g'.
Proof.
  intros Hs. pose proof Hs as (Hg & _).
  pose proof Hg as ([Hl Ht] & Hp & (row & col & Hf & Hpos) & _).
  destruct (drop_loop_spec (board g) (shape g) Hl Ht Hp
              (length (board g)) row col (points g) Hf)
    as (k & pts' & _ & E & _).
  { rewrite Hl. destruct Hf. consts. lia. }
  rewrite <- Hpos in E.
  assert (Ho : on_drop g
               = Ok (set_pos ((row + k) * B_COLS + col)
                       (set_score (level g) pts' (lines_cleared g) g)))
    by (unfold on_drop; rewrite E; reflexivity).
  eexists. split; [exact Ho|].
  assert (Hsb : same_board g
            (set_pos ((row + k) * B_COLS + col)
                       (set_score (level g) pts' (lines_cleared g) g)))
    by (unfold same_board; cbn; auto).
  split; [|exact Hsb].
  exact (sound_same _ _ Hs (on_drop_good _ _ Hg Ho) Hsb).
Qed.

Lemma wait_pause_fine (input : list Z) : fine (fun _ => True) (wait_pause input).
Proof.
  induction input as [|k rest IH]; simpl; [exact I|].
  destruct (k - keys KEY_PAUSE =? 0); [exact I|exact IH].
Qed.

Lemma wait_replay_fine (input : list Z) :
  fine (fun _ => True) (wait_replay input).
Proof.
  induction input as [|k rest IH]; simpl; [exact I|].
  destruct (k =? 0); [exact I|].
  destruct ((k =? keys KEY_QUIT) || (k =? keys KEY_RESTART)); [exact I|exact IH].
Qed.

Lemma on_pause_sound (g : game) :
  sound g -> fine (fun g' => sound g' /\ same_board g g') (on_pause g).
Proof.
  intros Hs. unfold on_pause.
  pose proof (wait_pause_fine (stdin g)) as H.
  destruct (wait_pause (stdin g)) as [rest|[|]]; cbn in *; auto.
  assert (Hsb : same_board g (set_stdin rest g))
    by (unfold same_board; cbn; auto).
  split; [|exact Hsb].
  apply (sound_same g); [exact Hs| |exact Hsb].
  destruct Hs as [Hg _]. exact Hg.
Qed.

(** ** [next_shape], [init] and the redraw *)

Lemma next_shape_colour (g g' : game) (s : Z) :
  next_shape g = (s, g') -> color g' = sh s 4 /\ peek_shape g' <> None.
Proof.
  unfold next_shape, draw_peek, rand.
  destruct g as [b sp co pk pc l p lcl cc po inp rn]. cbn.
  destruct rn as [|r rn]; destruct pk as [nx|]; cbn;
    try destruct rn as [|r' rn]; cbn;
    intros [= <- <-]; cbn; (split; [reflexivity|discriminate]).
Qed.

Lemma no_full_row_init : no_full_row init_board.
Proof.
  intros r Hr.
  assert (H : forallb (fun r => negb (row_full init_board r))
                      (seqZ 1 (B_ROWS - 3)) = true) by (vm_compute; reflexivity).
  pose proof (forallb_seqZ _ _ _ H r ltac:(lia)) as Hr'. cbv beta in Hr'.
  now destruct (row_full init_board r).
Qed.

Lemma init_sound (g : game) : peek_ok g -> sound (init g).
Proof.
  intros Hk. split; [apply init_good, Hk|].
  unfold init.
  destruct (next_shape (set_board init_board
              (set_pos 17 (set_c 0 (set_score 1 0 0 g))))) as [s g2] eqn:E.
  pose proof (next_shape_colour _ _ _ E) as [Hc Hp].
  apply next_shape_spec in E as (_ & _ & Hb & _); [|exact Hk].
  cbn in Hb. cbn [board color shape peek_shape set_shape].
  rewrite Hb. split; [exact no_full_row_init|]. split; assumption.
Qed.

Lemma sound_peek_ok (g : game) : sound g -> peek_ok g.
Proof. intros (Hg & _). apply Hg. Qed.

Lemma when_sound (f : game -> res game) (cond : bool) (g : game) :
  (forall h, sound h -> exists h', f h = Ok h' /\ sound h' /\ same_board h h') ->
  sound g ->
  exists g', when cond f g = Ok g' /\ sound g' /\ same_board g g'.
Proof.
  intros Hf Hs. unfold when. destruct cond; [apply Hf, Hs|].
  exists g. auto using same_board_refl.
Qed.

(** The key handlers end, the pause apart, and leave the board alone. *)
Lemma keys_phase_sound (g : game) :
  sound g ->
  fine (fun fl => flow_sound fl /\ forall g', fl = Next g' -> same_board g g')
       (keys_phase g).
Proof.
  intros Hs. unfold keys_phase.
  destruct (when_sound _ (c g =? keys KEY_LEFT) g on_left_sound Hs)
    as (g1 & -> & Hs1 & Hb1). cbn [rbind].
  destruct (when_sound _ (c g1 =? keys KEY_ROTATE) g1 on_rotate_sound Hs1)
    as (g2 & -> & Hs2 & Hb2). cbn [rbind].
  destruct (when_sound _ (c g2 =? keys KEY_RROTATE) g2 on_rrotate_sound Hs2)
    as (g3 & -> & Hs3 & Hb3). cbn [rbind].
  destruct (when_sound _ (c g3 =? keys KEY_RIGHT) g3 on_right_sound Hs3)
    as (g4 & -> & Hs4 & Hb4). cbn [rbind].
  destruct (when_sound _ (c g4 =? keys KEY_DROP) g4 on_drop_sound Hs4)
    as (g5 & -> & Hs5 & Hb5). cbn [rbind].
  assert (Hb : same_board g g5)
    by eauto using same_board_trans.
  destruct (c g5 =? keys KEY_RESTART).
  { cbn. split; [apply init_sound, sound_peek_ok, Hs5|discriminate]. }
  destruct ((c g5 =? keys KEY_PAUSE) || (c g5 =? keys KEY_QUIT)).
  - destruct (c g5 =? keys KEY_QUIT).
    + cbn. split; [exact I|discriminate].
    + pose proof (on_pause_sound g5 Hs5) as H6.
      destruct (on_pause g5) as [g6|[|]]; cbn in *; auto.
      destruct H6 as [Hs6 Hb6]. split; [exact Hs6|].
      intros g' [= <-]. exact (same_board_trans _ _ _ Hb Hb6).
  - cbn. split; [exact Hs5|]. intros g' [= <-]. exact Hb.
Qed.

(** The piece is drawn for [update] and erased after it: the board is the
    same afterwards. *)
Lemma redraw_sound (g : game) :
  sound g -> exists g', redraw g = Ok g' /\ sound g' /\ same_board g g'.
Proof.
  intros Hs. pose proof Hs as (Hg & _).
  pose proof Hg as ([Hl Ht] & Hp & Ha & Hfit & _).
  pose proof (anchor_cells_in_board _ _ Hp Ha) as Hc.
  destruct (place_fits_framed _ _ _ (color g) Hl Ht Hc Hfit)
    as (b1 & E1 & _).
  destruct (update_total (set_board b1 g)) as (k & gu & E2).
  pose proof (update_keeps _ _ _ E2) as (Hb & Hsh & Hco & Hpk & Hpo & _).
  cbn [board shape pos color peek_shape set_board] in *.
  assert (Ho : redraw g = Ok (set_board (board g) (set_c k gu))).
  { unfold redraw. rewrite E1. cbn [rbind]. rewrite E2. cbn [rbind fst snd].
    cbn [board shape pos set_c]. rewrite Hb, Hsh, Hpo.
    rewrite (place_erase _ _ _ _ _ Hl Hc Hfit E1). reflexivity. }
  eexists. split; [exact Ho|].
  assert (Hsb : same_board g (set_board (board g) (set_c k gu))).
  { unfold same_board. cbn. rewrite Hsh, Hco, Hpk. auto. }
  split; [|exact Hsb].
  exact (sound_same _ _ Hs (redraw_good _ _ Hg Ho) Hsb).
Qed.

(** ** The line-clear loop, whatever row 0 holds *)

(** Unless rows 0 and 1 are both full, the loop ends within [need] iterations
    and counts the scanned rows that were full. *)
Lemma clear_loop_total (fuel : nat) :
  forall (i cl : Z) (g : game),
  length (board g) = Z.to_nat B_SIZE -> 1 <= i <= B_ROWS - 2 ->
  0 <= cl -> cl + need i (board g) <= INT_MAX ->
  row_full (board g) (i - 1) = false \/ row_full (board g) i = false ->
  need i (board g) <= Z.of_nat fuel ->
  let rs := List.filter (row_full (board g)) (seqZ i (B_ROWS - 2 - i)) in
  exists g',
    clear_loop fuel i cl g = Ok (cl + Z.of_nat (length rs), g') /\
    length (board g') = Z.to_nat B_SIZE /\
    (passed (board g) i ->
     no_full_row (board g') \/ row_full (board g') 1 = true).
Proof.
  induction fuel as [|fuel IH]; intros i cl g Hl Hi Hcl Hmax Hj Hfuel rs.
  - assert (i = B_ROWS - 2) as ->.
    { unfold need in Hfuel. destruct (Z.ltb_spec i (B_ROWS - 2)); [|lia].
      destruct (row_full (board g) i); lia. }
    subst rs. rewrite clear_loop_done by lia.
    replace (B_ROWS - 2 - (B_ROWS - 2)) with 0 by lia.
    exists g. cbn. rewrite Z.add_0_r. split; [reflexivity|].
    split; [exact Hl|].
    intros [Hp|(_ & _ & Hp)]; [left|right; exact Hp].
    intros r Hr. apply Hp. lia.
  - destruct (Z.eq_dec i (B_ROWS - 2)) as [->|Hne].
    { subst rs. rewrite clear_loop_done by lia.
      replace (B_ROWS - 2 - (B_ROWS - 2)) with 0 by lia.
      exists g. cbn. rewrite Z.add_0_r. split; [reflexivity|].
      split; [exact Hl|].
      intros [Hp|(_ & _ & Hp)]; [left|right; exact Hp].
      intros r Hr. apply Hp. lia. }
    assert (Hlt : i < B_ROWS - 2) by lia.
    subst rs. rewrite filter_rows_cons by exact Hlt.
    unfold need in Hfuel, Hmax.
    destruct (Z.ltb_spec i (B_ROWS - 2)); [|lia].
    destruct (row_full (board g) i) eqn:Hf.
    + (* row i is full: the row above it is not *)
      destruct Hj as [Hj|Hj]; [|discriminate].
      destruct (clear_loop_hit fuel i cl g Hlt Hf) as (g4 & Hb4 & _ & _ & _ & ->).
      pose proof (clear_shift_shifted (board g) i Hl ltac:(lia)) as Hs.
      rewrite <- Hb4 in Hs.
      assert (Hl4 : length (board g4) = Z.to_nat B_SIZE).
      { destruct Hs as [-> _]. exact Hl. }
      assert (Hfi : row_full (board g4) i = false).
      { rewrite (shifted_row_above _ _ i i Hs) by (consts; lia). exact Hj. }
      rewrite wrap_int_id by (unfold INT_MIN; lia).
      destruct (IH i (cl + 1) g4) as (g' & E & Hl' & Hpost);
        try assumption; try lia.
      * unfold need. destruct (Z.ltb_spec i (B_ROWS - 2)); [|lia].
        rewrite Hfi. lia.
      * right. exact Hfi.
      * unfold need. destruct (Z.ltb_spec i (B_ROWS - 2)); [|lia].
        rewrite Hfi. lia.
      * rewrite filter_rows_cons in E by exact Hlt.
        rewrite Hfi in E. cbn [app] in E.
        assert (Hsame :
          List.filter (row_full (board g4)) (seqZ (i + 1) (B_ROWS - 2 - (i + 1)))
          = List.filter (row_full (board g)) (seqZ (i + 1) (B_ROWS - 2 - (i + 1)))).
        { apply filter_ext_in. intros r Hr.
          apply list_elem_of_In, elem_of_seqZ in Hr.
          apply (shifted_row_other _ _ i r Hs); consts; lia. }
        rewrite Hsame in E.
        exists g'. split; [|split; [exact Hl'|]].
        -- rewrite E. f_equal. f_equal. cbn [app length]. lia.
        -- intros Hp. apply Hpost.
           assert (H00 : row_full (board g4) 0 = row_full (board g) 0)
             by (apply (shifted_row_other _ _ i 0 Hs); consts; lia).
           assert (H01 : row_full (board g4) 1 = row_full (board g) 0)
             by (apply (shifted_row_above _ _ i 1 Hs); consts; lia).
           destruct (row_full (board g) 0) eqn:H0.
           ++ right. split; [|split; assumption].
              destruct (Z.eq_dec i 1) as [->|]; [|lia].
              rewrite Z.sub_diag in Hj. congruence.
           ++ destruct Hp as [Hp|(_ & Hp & _)]; [|congruence].
              left. intros r Hr.
              rewrite (shifted_row_above _ _ i r Hs) by (consts; lia).
              destruct (Z.eq_dec r 1) as [->|]; [exact H0|]. apply Hp. lia.
    + (* row i is not full *)
      rewrite clear_loop_skip by assumption. cbn [app].
      destruct (IH (i + 1) cl g) as (g' & E & Hl' & Hpost);
        try assumption; try lia.
      * pose proof (need_bounds (i + 1) (board g) ltac:(lia)). lia.
      * left. replace (i + 1 - 1) with i by lia. exact Hf.
      * pose proof (need_bounds (i + 1) (board g) ltac:(lia)). lia.
      * exists g'. split; [exact E|]. split; [exact Hl'|].
        intros Hp. apply Hpost.
        destruct Hp as [Hp|(Hp1 & Hp2)]; [left|right; split; [lia|exact Hp2]].
        intros r Hr. destruct (Z.eq_dec r i) as [->|]; [exact Hf|].
        apply Hp. lia.
Qed.

Lemma Ok_inj {A : Type} (a b : A) : Ok a = Ok b -> a = b.
Proof. intros H. injection H. auto. Qed.

(** What the loop has done when it has ended. *)
Lemma clear_loop_result (fuel : nat) (g : game) (r : Z * game) :
  length (board g) = Z.to_nat B_SIZE ->
  clear_loop fuel 1 0 g = Ok r ->
  fst r = Z.of_nat (length (full_rows (board g))) /\
  length (board (snd r)) = Z.to_nat B_SIZE /\
  (no_full_row (board (snd r)) \/ row_full (board (snd r)) 1 = true).
Proof.
  intros Hl E.
  assert (Hj : row_full (board g) (1 - 1) = false \/
               row_full (board g) 1 = false).
  { destruct (row_full (board g) (1 - 1)) eqn:H0; [|auto].
    destruct (row_full (board g) 1) eqn:H1; [|auto].
    rewrite (clear_loop_diverges fuel 0 g Hl H0 H1) in E. discriminate. }
  pose proof (need_bounds 1 (board g) ltac:(consts; lia)) as Hn.
  destruct (clear_loop_total (fuel + CLEAR_FUEL) 1 0 g Hl
              ltac:(consts; lia) ltac:(lia)
              ltac:(unfold INT_MAX; consts; lia) Hj
              ltac:(unfold CLEAR_FUEL; consts; lia))
    as (g' & E' & Hl' & Hpost).
  rewrite (clear_loop_mono fuel (fuel + CLEAR_FUEL) 1 0 g r ltac:(lia) E) in E'.
  apply Ok_inj in E'. subst r. cbn [fst snd].
  split; [apply Z.add_0_l|]. split; [exact Hl'|].
  apply Hpost. left. intros; lia.
Qed.

Lemma clear_loop_fine (fuel : nat) :
  forall (i cl : Z) (g : game), fine (fun _ => True) (clear_loop fuel i cl g).
Proof.
  induction fuel as [|fuel IH]; intros i cl g.
  - simpl. destruct (i <? B_ROWS - 2); exact I.
  - destruct (Z.lt_ge_cases i (B_ROWS - 2)) as [Hlt|Hge].
    + destruct (row_full (board g) i) eqn:Hf.
      * destruct (clear_loop_hit fuel i cl g Hlt Hf) as (g4 & _ & _ & _ & _ & ->).
        apply IH.
      * rewrite clear_loop_skip by assumption. apply IH.
    + rewrite clear_loop_done by exact Hge. exact I.
Qed.

(** ** A lock completes at most four rows *)

Lemma full_rows_after_place (b b1 : Board) (s p v : Z) :
  length b = Z.to_nat B_SIZE -> Forall in_board (cells s p) ->
  place b s p v = Ok b1 -> no_full_row b ->
  (length (full_rows b1) <= 4)%nat.
Proof.
  intros Hl Hc Hp Hn.
  change 4%nat with (length (map (fun j => j / B_COLS) (cells s p))).
  apply submseteq_length, NoDup_submseteq.
  - apply NoDup_ListNoDup, List.NoDup_filter, NoDup_ListNoDup, NoDup_seqZ.
  - intros r Hr. apply list_elem_of_In, filter_In in Hr as [Hr Hf].
    apply list_elem_of_In, elem_of_seqZ in Hr.
    destruct (decide (r ∈ map (fun j => j / B_COLS) (cells s p)))
      as [|Hnot]; [assumption|exfalso].
    assert (E : row_full b1 r = row_full b r).
    { apply row_full_ext. intros x Hx.
      destruct (get_place b b1 s p v (r * B_COLS + x) Hl Hc Hp
                  ltac:(consts; lia)) as [_ ->].
      match goal with |- (if ?t then _ else _) = _ => destruct t eqn:Et end;
        [|reflexivity].
      exfalso. apply Hnot. apply list_elem_of_In, in_map_iff.
      exists (r * B_COLS + x). split.
      - apply (coords_div_mod r x). consts. lia.
      - unfold cells. cbn [In]. lia. }
    rewrite Hn in E by (consts; lia). congruence.
Qed.

(** ** The lock, and one iteration of the loop *)

Lemma score_total (cl : Z) (g : game) :
  0 <= cl <= 4 -> exists g2, score cl g = Ok (Next g2).
Proof.
  intros H. destruct (score cl g) as [f|e] eqn:E.
  - destruct (score_never_breaks _ _ _ E) as [g2 ->]. eauto.
  - exfalso. unfold score in E. destruct (0 <? cl); [|discriminate].
    destruct (score_table !! Z.to_nat cl) eqn:El.
    + match type of E with
      | (if ?t then _ else _) = _ => destruct t
      end; discriminate.
    + apply lookup_ge_None in El. cbn in El. lia.
Qed.

Lemma spawn_cell_row (b : Board) : get b 17 = 0 -> row_full b 1 = false.
Proof.
  intros H. destruct (row_full b 1) eqn:E; [|reflexivity].
  unfold row_full in E. rewrite forallb_forall in E.
  specialize (E 5 ltac:(apply In_COLS; consts; lia)).
  change (1 * B_COLS + 5) with 17 in E. rewrite H in E. discriminate.
Qed.

Lemma lock_sound (fuel : nat) (g : game) :
  sound g -> fine (fun r => flow_sound (snd r)) (lock fuel g).
Proof.
  intros Hs. pose proof Hs as (Hg & Hn & Hco & Hpk).
  pose proof Hg as ([Hl Ht] & Hp & Ha & Hfit & Hk).
  unfold lock.
  pose proof (anchor_cells_in_board _ _ Hp Ha) as Hc.
  destruct (place_fits_framed _ _ _ (color g) Hl Ht Hc Hfit)
    as (b1 & E1 & Hl1 & Ht1). rewrite E1. cbn [rbind].
  pose proof (clear_loop_fine fuel 1 0 (set_board b1 g)) as Hfine.
  destruct (clear_loop fuel 1 0 (set_board b1 g)) as [[cl g1]|[|]] eqn:E2;
    cbn [rbind fst snd]; [|exact Hfine|exact I].
  destruct (clear_loop_result fuel (set_board b1 g) (cl, g1) Hl1 E2)
    as (Hcl & _ & Hpost).
  cbn [fst snd board set_board] in Hcl, Hpost.
  pose proof (full_rows_after_place _ _ _ _ _ Hl Hc E1 Hn) as H4.
  apply clear_loop_framed in E2 as [Hf1 Hk1]; [|split; assumption|lia].
  cbn [fst snd peek_shape set_board] in Hf1, Hk1.
  destruct (score_total cl g1 ltac:(lia)) as [g2 E3]. rewrite E3.
  cbn [rbind].
  apply score_keeps in E3 as (Hb2 & Hk2 & _).
  destruct (update_total g2) as (k & gu & E4). rewrite E4.
  cbn [rbind fst snd].
  apply update_keeps in E4 as (Hbu & _ & _ & Hku & _).
  destruct (next_shape (set_c k gu)) as [s g4] eqn:E5.
  pose proof (next_shape_colour _ _ _ E5) as [Hc4 Hp4].
  apply next_shape_spec in E5 as (Hbs & Hk4 & Hb4 & _);
    [|unfold peek_ok; cbn; rewrite Hku, Hk2, Hk1; exact Hk].
  cbn [board set_c] in Hb4.
  assert (Hbb : board g4 = board g1) by congruence.
  assert (Hf4 : framed g4).
  { unfold framed. rewrite Hbb. exact Hf1. }
  cbn [board shape pos set_pos set_shape].
  destruct (fits_in_anchor_total (board g4) s 17 (proj1 Hf4)
              (base_shape_ptr _ Hbs) spawn_anchor_ok) as [v E6].
  rewrite E6. cbn [rbind]. destruct v.
  - cbn. unfold sound. cbn [board shape color peek_shape set_pos set_shape].
    split; [exact (conj Hf4 (conj (base_shape_ptr _ Hbs)
                     (conj spawn_anchor_ok (conj E6 Hk4))))|].
    split; [|split; assumption].
    destruct Hpost as [Hpost|Hpost]; [rewrite Hbb; exact Hpost|].
    apply fits_anchor_empty in E6 as [_ E6].
    apply spawn_cell_row in E6. congruence.
  - cbn [stdin set_pos set_shape].
    pose proof (wait_replay_fine (stdin g4)) as Hw.
    destruct (wait_replay (stdin g4)) as [w|[|]]; cbn [rbind];
      [|exact Hw|exact I].
    cbn [c set_c].
    destruct (fst w =? keys KEY_QUIT); cbn; [exact I|].
    apply init_sound. exact Hk4.
Qed.

Lemma tick_sound (fuel : nat) (g : game) :
  sound g -> fine (fun r => flow_sound (snd r)) (tick fuel g).
Proof.
  intros Hs. unfold tick. destruct (c g <? 0); [|exact Hs].
  pose proof Hs as (Hg & _). pose proof Hg as ([Hl Ht] & Hp & Ha & _).
  destruct (fits_in_near (board g) (shape g) (pos g) (pos g + B_COLS)
              Hl Ht Hp Ha ltac:(auto)) as [v E].
  rewrite E. cbn [rbind]. destruct v; [|apply lock_sound, Hs].
  cbn. apply (sound_same g); [exact Hs| |unfold same_board; cbn; auto].
  apply good_move; auto.
Qed.

Lemma step_sound (fuel : nat) (g : game) :
  sound g -> fine (fun r => outcome_sound (snd r)) (step fuel g).
Proof.
  intros Hs. unfold step.
  apply (fine_bind _ _ _ _ (tick_sound fuel g Hs)).
  intros [cl fl] Hfl. cbn [fst snd] in *.
  destruct fl as [g1|g1|g1]; try exact Hfl.
  apply (fine_bind _ _ _ _ (keys_phase_sound g1 Hfl)).
  intros fl2 [Hfl2 _].
  destruct fl2 as [g2|g2|g2]; try exact Hfl2.
  destruct (redraw_sound g2 Hfl2) as (g3 & -> & Hs3 & _). exact Hs3.
Qed.

Lemma run_sound (fuel n : nat) :
  forall g : game, sound g -> fine outcome_sound (run fuel n g).
Proof.
  induction n as [|n IH]; intros g Hs; simpl; [exact Hs|].
  apply (fine_bind _ _ _ _ (step_sound fuel g Hs)).
  intros [cl o] Ho. cbn [fst snd] in *.
  destruct o as [g1|g1|g1]; [apply IH, Ho|apply IH, Ho|exact I].
Qed.

Lemma play_sound (fuel n : nat) :
  forall g : game,
  sound g -> fine (fun r => outcome_sound (snd r)) (play fuel n g).
Proof.
  induction n as [|n IH]; intros g Hs; simpl; [exact Hs|].
  apply (fine_bind _ _ _ _ (step_sound fuel g Hs)).
  intros [cl o] Ho. cbn [fst snd] in *.
  destruct o as [g1|g1|g1]; [|exact Ho|exact I].
  apply (fine_bind _ _ _ _ (IH g1 Ho)). intros r Hr. exact Hr.
Qed.

Lemma start_sound (input : list Z) (rnd : list nat) :
  sound (start input rnd).
Proof. apply init_sound. exact I. Qed.

(** ** The game as a whole *)

(** The five fields of a catalog entry are elements of the array [shapes]. *)
Lemma shape_ptr_in_shapes (s k : Z) :
  shape_ptr s -> 0 <= k <= 4 -> 0 <= s + k < Z.of_nat (length shapes).
Proof.
  intros (j & Hj & ->) Hk. change (Z.of_nat (length shapes)) with 95.
  revert Hj. consts. lia.
Qed.

(** X1. Whatever the keys and the random numbers, a session of any length has
    gone on or ended, or it waits for ever in one of its loops: no access of
    [fits_in] or [place] to [board] and no read of [score_table] is outside
    the array.  The board keeps its [B_SIZE] cells, which the row loops of
    the line-clear code rely on.  At the head of the loop the four cells of
    the piece are cells of the board; [shape], the two pointers that the
    rotation keys make of it, and [peek_shape] point at the first field of a
    catalog entry, so that the fields [s[0]] to [s[4]] read through them are
    elements of [shapes]. *)
Theorem game_stays_in_arrays (fuel n : nat) (input : list Z)
        (rnd : list nat) :
  run fuel n (start input rnd) = Err Diverges \/
  exists o,
    run fuel n (start input rnd) = Ok o /\
    length (board (state_of o)) = Z.to_nat B_SIZE /\
    match o with
    | Exited _ => True
    | Running g | Restarted g =>
        Forall in_board (cells (shape g) (pos g)) /\
        Forall (fun s => shape_ptr s /\
                         forall k, 0 <= k <= 4 ->
                           0 <= s + k < Z.of_nat (length shapes))
               [shape g; 5 * sh (shape g) 0;
                5 * find_prev (Z.quot (shape g) 5)] /\
        exists pk, peek_shape g = Some pk /\ base_ptr pk /\
                   forall k, 0 <= k <= 4 ->
                     0 <= pk + k < Z.of_nat (length shapes)
    end.
Proof.
  pose proof (run_sound fuel n _ (start_sound input rnd)) as H.
  destruct (run fuel n (start input rnd)) as [o|[|]] eqn:E;
    [|contradiction|auto].
  right. exists o. split; [reflexivity|].
  pose proof (run_good _ _ _ _ (start_good input rnd) E) as Hg.
  split; [apply (outcome_framed o Hg)|].
  assert (Hst : forall g, sound g ->
    Forall in_board (cells (shape g) (pos g)) /\
    Forall (fun s => shape_ptr s /\
                     forall k, 0 <= k <= 4 ->
                       0 <= s + k < Z.of_nat (length shapes))
           [shape g; 5 * sh (shape g) 0;
            5 * find_prev (Z.quot (shape g) 5)] /\
    exists pk, peek_shape g = Some pk /\ base_ptr pk /\
               forall k, 0 <= k <= 4 ->
                 0 <= pk + k < Z.of_nat (length shapes)).
  { intros g ((_ & Hp & Ha & _ & Hk) & _ & _ & Hpk).
    split; [exact (anchor_cells_in_board _ _ Hp Ha)|].
    split.
    - pose proof Hp as (j & Hj & Hs).
      assert (H1 : shape_ptr (5 * sh (shape g) 0)).
      { rewrite Hs. exists (sh (5 * j) 0).
        split; [apply (catalog_links j Hj)|reflexivity]. }
      assert (H2 : shape_ptr (5 * find_prev (Z.quot (shape g) 5))).
      { rewrite Hs, quot_5. exists (find_prev j).
        split; [apply (catalog_links j Hj)|reflexivity]. }
      repeat apply Forall_cons; try apply Forall_nil;
        (split; [assumption|intros k Hk'; now apply shape_ptr_in_shapes]).
    - unfold peek_ok in Hk. destruct (peek_shape g) as [pk|]; [|contradiction].
      exists pk. split; [reflexivity|]. split; [exact Hk|].
      intros k Hk'. apply shape_ptr_in_shapes; [|exact Hk'].
      apply base_shape_ptr, Hk. }
  destruct o as [g|g|g]; [apply Hst, H|apply Hst, H|exact I].
Qed.

(** X2. At the head of the loop no row of the playing field is full: a lock
    that leaves a full row behind ends the game. *)
Theorem running_game_has_no_full_row (fuel n : nat) (input : list Z)
        (rnd : list nat) (g : game) (r : Z) :
  run fuel n (start input rnd) = Ok (Running g) ->
  1 <= r <= B_ROWS - 3 -> row_full (board g) r = false.
Proof.
  pose proof (run_sound fuel n _ (start_sound input rnd)) as H.
  intros E. rewrite E in H. apply H.
Qed.

Lemma running_game_has_no_full_row_witness :
  row_full (board (state_of (snd (demo 46)))) 20 = false.
Proof.
  apply (running_game_has_no_full_row CLEAR_FUEL 46 demo_input demo_rand).
  - vm_compute. reflexivity.
  - unfold B_ROWS. lia.
Defined.

Lemma free_cell_in_field (b : Board) (j : Z) :
  tagged frame_cell b -> in_board j -> get b j = 0 ->
  exists row col, j = row * B_COLS + col /\
                  0 <= row <= B_ROWS - 3 /\ 1 <= col <= B_COLS - 2.
Proof.
  intros Ht Hj He. destruct (index_coords j Hj) as (E & Hr & Hc).
  exists (j / B_COLS), (j mod B_COLS). split; [exact E|].
  destruct (frame_cell j) eqn:Ef.
  - exfalso. exact (tagged_nonzero b j Ht Ef He).
  - rewrite E, frame_cell_at in Ef by assumption. consts. lia.
Qed.

(** X3. The piece never crosses the walls or the floor and never overlaps what
    is locked: at the head of the loop its four cells are empty cells of
    rows 0 to [B_ROWS - 3] and columns 1 to [B_COLS - 2]. *)
Theorem piece_stays_in_field (fuel n : nat) (input : list Z)
        (rnd : list nat) (g : game) :
  run fuel n (start input rnd) = Ok (Running g) ->
  Forall (fun j => get (board g) j = 0 /\
                   exists row col, j = row * B_COLS + col /\
                     0 <= row <= B_ROWS - 3 /\ 1 <= col <= B_COLS - 2)
         (cells (shape g) (pos g)).
Proof.
  pose proof (run_sound fuel n _ (start_sound input rnd)) as H.
  intros E. rewrite E in H. destruct H as (Hg & _).
  destruct Hg as ([Hl Ht] & Hp & Ha & Hfit & _).
  pose proof (anchor_cells_in_board _ _ Hp Ha) as Hc.
  destruct (fits_cells_empty _ _ _ Hl Hc Hfit) as (E0 & E1 & E2 & E3).
  unfold cells in *.
  apply Forall_cons_1 in Hc as [H0 Hc]. apply Forall_cons_1 in Hc as [H1 Hc].
  apply Forall_cons_1 in Hc as [H2 Hc]. apply Forall_cons_1 in Hc as [H3 _].
  repeat apply Forall_cons; try apply Forall_nil;
    (split; [assumption|]); apply (free_cell_in_field (board g));
    assumption.
Qed.

Lemma piece_stays_in_field_witness :
  Forall (fun j => get (board (state_of (snd (late_game 190)))) j = 0 /\
                   exists row col, j = row * B_COLS + col /\
                     0 <= row <= B_ROWS - 3 /\ 1 <= col <= B_COLS - 2)
         (cells (shape (state_of (snd (late_game 190))))
                (pos (state_of (snd (late_game 190))))).
Proof.
  apply (piece_stays_in_field CLEAR_FUEL 190 late_input late_rand).
  vm_compute. reflexivity.
Defined.

(** X4. The colour of the piece is always the one that the catalog gives to its
    shape, also after rotations; the preview is always one of the seven
    entries that [next_shape] draws. *)
Theorem colour_follows_shape (fuel n : nat) (input : list Z)
        (rnd : list nat) (g : game) :
  run fuel n (start input rnd) = Ok (Running g) ->
  color g = sh (shape g) 4 /\
  exists pk, peek_shape g = Some pk /\ base_ptr pk.
Proof.
  pose proof (run_sound fuel n _ (start_sound input rnd)) as H.
  intros E. rewrite E in H. destruct H as (Hg & _ & Hc & Hp).
  split; [exact Hc|].
  destruct Hg as (_ & _ & _ & _ & Hk). unfold peek_ok in Hk.
  destruct (peek_shape g) as [pk|]; [eauto|contradiction].
Qed.

Lemma colour_follows_shape_witness :
  color (state_of (snd (late_game 190))) = sh (shape (state_of (snd (late_game 190)))) 4 /\
  exists pk, peek_shape (state_of (snd (late_game 190))) = Some pk /\ base_ptr pk.
Proof.
  apply (colour_follows_shape CLEAR_FUEL 190 late_input late_rand).
  vm_compute. reflexivity.
Defined.

(** X5. An iteration without a lock leaves the board as it is: the piece is on
    the board only while [update] displays it. *)
Theorem board_changes_only_at_lock (fuel n : nat) (input : list Z)
        (rnd : list nat) (g g' : game) (cl : Z) :
  run fuel n (start input rnd) = Ok (Running g) ->
  step fuel g = Ok (cl, Running g') ->
  0 <= c g \/ fits_in (board g) (shape g) (pos g + B_COLS) = Ok true ->
  board g' = board g /\ cl = 0.
Proof.
  pose proof (run_sound fuel n _ (start_sound input rnd)) as H.
  intros E. rewrite E in H. cbn in H. intros Es Hno.
  assert (Ht : exists g1, tick fuel g = Ok (0, Next g1) /\ sound g1 /\
                          same_board g g1).
  { unfold tick. destruct (Z.ltb_spec (c g) 0) as [Hc|Hc].
    - destruct Hno as [Hno|Hno]; [lia|]. rewrite Hno. cbn [rbind].
      eexists. split; [reflexivity|].
      assert (Hsb : same_board g (set_pos (pos g + B_COLS) g))
        by (unfold same_board; cbn; auto).
      split; [|exact Hsb].
      apply (sound_same g); [exact H| |exact Hsb].
      apply good_move; [apply H|auto|exact Hno].
    - eauto using same_board_refl. }
  destruct Ht as (g1 & Et & Hs1 & Hb1).
  unfold step in Es. rewrite Et in Es. cbn [rbind fst snd] in Es.
  pose proof (keys_phase_sound g1 Hs1) as Hk.
  destruct (keys_phase g1) as [[g2|g2|g2]|]; cbn [rbind] in Es;
    try discriminate.
  cbn in Hk. destruct Hk as [Hs2 Hb2]. specialize (Hb2 g2 eq_refl).
  destruct (redraw_sound g2 Hs2) as (g3 & Er & _ & Hb3).
  rewrite Er in Es. cbn [rbind] in Es. injection Es as <- <-.
  split; [|reflexivity].
  apply (same_board_trans _ _ _ (same_board_trans _ _ _ Hb1 Hb2) Hb3).
Qed.

Lemma board_changes_only_at_lock_witness :
  board (state_of (snd (demo 4))) = board (state_of (snd (demo 3))) /\
  nth 3 (fst (demo 4)) 7 = 0.
Proof.
  apply (board_changes_only_at_lock CLEAR_FUEL 3 demo_input demo_rand
           (state_of (snd (demo 3))) (state_of (snd (demo 4)))
           (nth 3 (fst (demo 4)) 7)).
  - vm_compute. reflexivity.
  - vm_compute. reflexivity.
  - left. vm_compute. discriminate.
Defined.

(** X6. The drop key: the piece falls straight down, through positions where it
    fits, to the first one from which it cannot fall further; the board and
    the shape are unchanged, and a point is counted for each row of the
    fall. *)
Theorem drop_lands_piece (fuel n : nat) (input : list Z) (rnd : list nat)
        (g : game) :
  run fuel n (start input rnd) = Ok (Running g) ->
  exists k g',
    0 <= k /\ on_drop g = Ok g' /\
    pos g' = pos g + k * B_COLS /\ shape g' = shape g /\
    board g' = board g /\
    (forall j, 1 <= j <= k ->
       fits_in (board g) (shape g) (pos g + j * B_COLS) = Ok true) /\
    fits_in (board g) (shape g) (pos g + (k + 1) * B_COLS) = Ok false /\
    (LONG_MIN <= points g -> points g + (B_ROWS - 3) <= LONG_MAX ->
     points g' = points g + k).
Proof.
  pose proof (run_sound fuel n _ (start_sound input rnd)) as H.
  intros E. rewrite E in H. destruct H as (Hg & _).
  destruct Hg as ([Hl Ht] & Hp & (row & col & Hf & Hpos) & _).
  destruct (drop_loop_spec (board g) (shape g) Hl Ht Hp
              (length (board g)) row col (points g) Hf)
    as (k & pts' & Hk & Ed & Hall & Hlast & Hpts).
  { rewrite Hl. destruct Hf. consts. lia. }
  rewrite <- Hpos in Ed.
  exists k, (set_pos ((row + k) * B_COLS + col)
               (set_score (level g) pts' (lines_cleared g) g)).
  split; [lia|]. split; [unfold on_drop; rewrite Ed; reflexivity|].
  cbn [pos shape board points set_pos set_score].
  split; [lia|]. split; [reflexivity|]. split; [reflexivity|].
  split; [|split].
  - intros j Hj. rewrite Hpos.
    replace (row * B_COLS + col + j * B_COLS) with ((row + j) * B_COLS + col)
      by lia.
    apply Hall, Hj.
  - rewrite Hpos.
    replace (row * B_COLS + col + (k + 1) * B_COLS)
      with ((row + k + 1) * B_COLS + col) by lia.
    exact Hlast.
  - intros H1 H2. apply Hpts; [exact H1|]. destruct Hf. lia.
Qed.

Lemma drop_lands_piece_witness :
  exists k g',
    0 <= k /\ on_drop (state_of (snd (demo 3))) = Ok g' /\
    pos g' = pos (state_of (snd (demo 3))) + k * B_COLS /\
    shape g' = shape (state_of (snd (demo 3))) /\
    board g' = board (state_of (snd (demo 3))) /\
    (forall j, 1 <= j <= k ->
       fits_in (board (state_of (snd (demo 3)))) (shape (state_of (snd (demo 3))))
               (pos (state_of (snd (demo 3))) + j * B_COLS) = Ok true) /\
    fits_in (board (state_of (snd (demo 3)))) (shape (state_of (snd (demo 3))))
            (pos (state_of (snd (demo 3))) + (k + 1) * B_COLS) = Ok false /\
    (LONG_MIN <= points (state_of (snd (demo 3))) ->
     points (state_of (snd (demo 3))) + (B_ROWS - 3) <= LONG_MAX ->
     points g' = points (state_of (snd (demo 3))) + k).
Proof.
  apply (drop_lands_piece CLEAR_FUEL 3 demo_input demo_rand).
  vm_compute. reflexivity.
Defined.

(** X7. One clear-cycle ends exactly when rows 0 and 1 are not both full, and
    then within [CLEAR_FUEL] iterations, with the number of full rows among
    the scanned ones as its count; with both rows full it goes on for
    ever. *)
Theorem clear_cycle_ends_iff (g : game) :
  length (board g) = Z.to_nat B_SIZE ->
  (row_full (board g) 0 && row_full (board g) 1 = true ->
   forall fuel, clear_loop fuel 1 0 g = Err Diverges) /\
  (row_full (board g) 0 && row_full (board g) 1 = false ->
   forall fuel, (CLEAR_FUEL <= fuel)%nat ->
   exists g', clear_loop fuel 1 0 g
              = Ok (Z.of_nat (length (full_rows (board g))), g')).
Proof.
  intros Hl. split.
  - intros H fuel. apply andb_true_iff in H as [H0 H1].
    apply clear_loop_diverges; assumption.
  - intros H fuel Hfuel.
    pose proof (need_bounds 1 (board g) ltac:(consts; lia)) as Hn.
    destruct (clear_loop_total fuel 1 0 g Hl
                ltac:(consts; lia) ltac:(lia)
                ltac:(unfold INT_MAX; consts; lia))
      as (g' & E & _).
    + apply andb_false_iff in H. exact H.
    + unfold CLEAR_FUEL in Hfuel. consts. lia.
    + exists g'. rewrite E. reflexivity.
Qed.

Lemma clear_cycle_ends_iff_witness :
  (row_full (board (game_on board_top_full)) 0
   && row_full (board (game_on board_top_full)) 1 = true ->
   forall fuel, clear_loop fuel 1 0 (game_on board_top_full) = Err Diverges) /\
  (row_full (board (game_on board_top_full)) 0
   && row_full (board (game_on board_top_full)) 1 = false ->
   forall fuel, (CLEAR_FUEL <= fuel)%nat ->
   exists g', clear_loop fuel 1 0 (game_on board_top_full)
              = Ok (Z.of_nat (length (full_rows (board (game_on board_top_full)))), g')).
Proof.
  apply (clear_cycle_ends_iff (game_on board_top_full)).
  vm_compute. reflexivity.
Defined.

Lemma set_pos_back (g : game) (p : Z) : set_pos (pos g) (set_pos p g) = g.
Proof. destruct g. reflexivity. Qed.

(** X8. A move to the left that fits is undone by the key for the right, and
    the other way round. *)
Theorem left_and_right_are_inverse (g : game) :
  fits_in (board g) (shape g) (pos g) = Ok true ->
  (fits_in (board g) (shape g) (pos g - 1) = Ok true ->
   exists g1, on_left g = Ok g1 /\ pos g1 = pos g - 1 /\ on_right g1 = Ok g) /\
  (fits_in (board g) (shape g) (pos g + 1) = Ok true ->
   exists g1, on_right g = Ok g1 /\ pos g1 = pos g + 1 /\ on_left g1 = Ok g).
Proof.
  intros Hfit. split; intros Hm.
  - exists (set_pos (pos g - 1) g).
    split; [unfold on_left; rewrite Hm; reflexivity|].
    split; [reflexivity|].
    unfold on_right. cbn [board shape pos set_pos].
    replace (pos g - 1 + 1) with (pos g) by lia. rewrite Hfit. cbn [rbind].
    now rewrite set_pos_back.
  - exists (set_pos (pos g + 1) g).
    split; [unfold on_right; rewrite Hm; reflexivity|].
    split; [reflexivity|].
    unfold on_left. cbn [board shape pos set_pos].
    replace (pos g + 1 - 1) with (pos g) by lia. rewrite Hfit. cbn [rbind].
    now rewrite set_pos_back.
Qed.

Lemma left_and_right_are_inverse_witness :
  (exists g1, on_left (game_at 0 17) = Ok g1 /\
              pos g1 = pos (game_at 0 17) - 1 /\
              on_right g1 = Ok (game_at 0 17)) /\
  (exists g1, on_right (game_at 0 17) = Ok g1 /\
              pos g1 = pos (game_at 0 17) + 1 /\
              on_left g1 = Ok (game_at 0 17)).
Proof.
  destruct (left_and_right_are_inverse (game_at 0 17)) as [HL HR].
  - vm_compute. reflexivity.
  - split; [apply HL|apply HR]; vm_compute; reflexivity.
Defined.

(** X9. The restart key: the iteration ends in [init], which empties the board
    and resets the score, the level and the position; the first piece of
    the new game is the preview of the old one, and no input is read. *)
Theorem restart_keeps_preview (fuel : nat) (g : game) (pk : Z) :
  c g = keys KEY_RESTART -> peek_shape g = Some pk ->
  exists g',
    step fuel g = Ok (0, Restarted g') /\
    board g' = init_board /\ level g' = 1 /\ points g' = 0 /\
    lines_cleared g' = 0 /\ pos g' = 17 /\ c g' = 0 /\
    shape g' = pk /\ color g' = sh pk 4 /\ stdin g' = stdin g.
Proof.
  intros Hc Hp. exists (init g). split.
  - unfold step, tick. rewrite Hc. cbn [Z.ltb keys]. 
    change (keys KEY_RESTART <? 0) with false. cbn [rbind fst snd].
    unfold keys_phase, when. rewrite Hc.
    change (keys KEY_RESTART =? keys KEY_LEFT) with false. cbn [rbind].
    rewrite Hc.
    change (keys KEY_RESTART =? keys KEY_ROTATE) with false. cbn [rbind].
    rewrite Hc.
    change (keys KEY_RESTART =? keys KEY_RROTATE) with false. cbn [rbind].
    rewrite Hc.
    change (keys KEY_RESTART =? keys KEY_RIGHT) with false. cbn [rbind].
    rewrite Hc.
    change (keys KEY_RESTART =? keys KEY_DROP) with false. cbn [rbind].
    rewrite Hc, Z.eqb_refl. reflexivity.
  - unfold init, next_shape, draw_peek, rand.
    destruct g as [b sp co pk' pc l p lcl cc po inp rn].
    cbn in Hp. subst pk'. cbn. destruct rn; cbn; repeat split.
Qed.

Lemma restart_keeps_preview_witness :
  exists g',
    step CLEAR_FUEL (set_c (keys KEY_RESTART) (game_at 0 17))
    = Ok (0, Restarted g') /\
    board g' = init_board /\ level g' = 1 /\ points g' = 0 /\
    lines_cleared g' = 0 /\ pos g' = 17 /\ c g' = 0 /\
    shape g' = 0 /\ color g' = sh 0 4 /\
    stdin g' = stdin (set_c (keys KEY_RESTART) (game_at 0 17)).
Proof.
  apply (restart_keeps_preview CLEAR_FUEL
           (set_c (keys KEY_RESTART) (game_at 0 17)) 0); reflexivity.
Defined.

(** X10. The board loop of [init], whose counter runs down while its pointer runs
    up, draws the two side columns and the two bottom rows in the border
    colour and empties every other cell, the top row included. *)
Theorem init_draws_frame (row col : Z) :
  0 <= row < B_ROWS -> 0 <= col < B_COLS ->
  get init_board (row * B_COLS + col)
  = if (col =? 0) || (col =? B_COLS - 1) || (B_ROWS - 2 <=? row)
    then BORDER else 0.
Proof.
  intros Hr Hc.
  assert (H : forallb (fun i =>
                get init_board i
                =? (if (i mod B_COLS =? 0) || (i mod B_COLS =? B_COLS - 1)
                       || (B_ROWS - 2 <=? i / B_COLS) then BORDER else 0))
              (seqZ 0 B_SIZE) = true) by (vm_compute; reflexivity).
  pose proof (forallb_seqZ _ _ _ H (row * B_COLS + col) ltac:(consts; lia))
    as Hi.
  cbv beta in Hi. destruct (coords_div_mod row col Hc) as [-> ->] in Hi.
  lia.
Qed.

Lemma init_draws_frame_witness :
  get init_board (0 * B_COLS + 5)
  = if (5 =? 0) || (5 =? B_COLS - 1) || (B_ROWS - 2 <=? 0)
    then BORDER else 0.
Proof.
  apply (init_draws_frame 0 5); unfold B_ROWS, B_COLS; lia.
Defined.

(** ** A game that does not end *)






(** ** The display *)

Lemma show_cell_spec (dx dy : Z) (src : Board) (y x : Z)
      (acc : Board * list drawn) :
  0 <= y * B_COLS + x < Z.of_nat (length (fst acc)) ->
  let r := show_cell dx dy src y acc x in
  length (fst r) = length (fst acc) /\
  (forall j, 0 <= j ->
     get (fst r) j = if j =? y * B_COLS + x then get src j
                     else get (fst acc) j) /\
  snd r = snd acc ++ (if changed src (fst acc) y x
                      then [draw (x * 2 + dx) (dy + y)
                                 (get src (y * B_COLS + x))]
                      else []).
Proof.
  intros Hi. unfold show_cell, changed. cbv zeta.
  destruct (Z.eqb_spec (get src (y * B_COLS + x) - get (fst acc) (y * B_COLS + x)) 0)
    as [E|E].
  - assert (E' : get src (y * B_COLS + x) = get (fst acc) (y * B_COLS + x))
      by lia.
    rewrite E', Z.eqb_refl. cbn [negb]. rewrite app_nil_r.
    split; [reflexivity|]. split; [|reflexivity].
    intros j Hj. destruct (Z.eqb_spec j (y * B_COLS + x)) as [->|]; auto.
  - destruct (Z.eqb_spec (get src (y * B_COLS + x))
                (get (fst acc) (y * B_COLS + x))); [lia|].
    cbn [fst snd negb]. split; [apply length_set|]. split; [|reflexivity].
    intros j Hj. rewrite get_set by lia.
    destruct (Z.eqb_spec j (y * B_COLS + x)) as [->|]; auto.
Qed.

Lemma show_cells_spec (dx dy : Z) (src : Board) (y : Z) :
  0 <= y ->
  forall (xs : list Z) (acc : Board * list drawn),
  NoDup xs -> Forall (fun x => 0 <= x < B_COLS) xs ->
  (y + 1) * B_COLS <= Z.of_nat (length (fst acc)) ->
  let r := foldl (show_cell dx dy src y) acc xs in
  length (fst r) = length (fst acc) /\
  (forall j, 0 <= j ->
     get (fst r) j = if existsb (fun x => j =? y * B_COLS + x) xs
                     then get src j else get (fst acc) j) /\
  snd r = snd acc
          ++ map (fun x => draw (x * 2 + dx) (dy + y) (get src (y * B_COLS + x)))
                 (List.filter (changed src (fst acc) y) xs).
Proof.
  intros Hy. induction xs as [|x xs IH]; intros acc Hnd Hxs Hl.
  - cbn. rewrite app_nil_r. auto.
  - apply list.NoDup_cons in Hnd as [Hx Hnd].
    apply Forall_cons_1 in Hxs as [Hx0 Hxs].
    destruct (show_cell_spec dx dy src y x acc ltac:(consts; lia))
      as (L1 & G1 & O1).
    cbv zeta in L1, G1, O1. cbn [foldl].
    destruct (IH (show_cell dx dy src y acc x) Hnd Hxs ltac:(rewrite L1; lia))
      as (L2 & G2 & O2).
    cbv zeta in L2, G2, O2. cbv zeta.
    split; [congruence|]. split.
    + intros j Hj. rewrite G2, G1 by exact Hj. cbn [existsb].
      destruct (j =? y * B_COLS + x); cbn [orb];
        destruct (existsb (fun x0 => j =? y * B_COLS + x0) xs); reflexivity.
    + rewrite O2, O1. cbn [List.filter].
      assert (Hsame :
        List.filter (changed src (fst (show_cell dx dy src y acc x)) y) xs
        = List.filter (changed src (fst acc) y) xs).
      { apply filter_ext_in. intros x' Hx'. unfold changed.
        rewrite G1 by (rewrite Forall_forall in Hxs;
                       specialize (Hxs x' Hx'); consts; lia).
        destruct (Z.eqb_spec (y * B_COLS + x') (y * B_COLS + x)); [|reflexivity].
        exfalso. apply Hx. apply list_elem_of_In.
        replace x with x' by lia. exact Hx'. }
      rewrite Hsame.
      destruct (changed src (fst acc) y x); cbn [map app];
        rewrite <- ?app_assoc; reflexivity.
Qed.

Lemma in_row_cols (y j : Z) :
  existsb (fun x => j =? y * B_COLS + x) (seqZ 0 B_COLS)
  = (y * B_COLS <=? j) && (j <? (y + 1) * B_COLS).
Proof.
  apply eq_true_iff_eq. rewrite existsb_exists, andb_true_iff. split.
  - intros (x & Hx & E). apply list_elem_of_In, elem_of_seqZ in Hx. lia.
  - intros H. exists (j - y * B_COLS). split; [|lia].
    apply list_elem_of_In, elem_of_seqZ. lia.
Qed.

Lemma show_row_spec (dx dy : Z) (src : Board) (y : Z)
      (acc : Board * list drawn) :
  0 <= y -> (y + 1) * B_COLS <= Z.of_nat (length (fst acc)) ->
  let r := show_row dx dy src acc y in
  length (fst r) = length (fst acc) /\
  (forall j, 0 <= j ->
     get (fst r) j = if (y * B_COLS <=? j) && (j <? (y + 1) * B_COLS)
                     then get src j else get (fst acc) j) /\
  snd r = snd acc ++ row_draws dx dy src (fst acc) y.
Proof.
  intros Hy Hl. unfold show_row, row_draws.
  destruct (show_cells_spec dx dy src y Hy (seqZ 0 B_COLS) acc
              (NoDup_seqZ _ _)) as (L & G & O); [|exact Hl|].
  { apply Forall_forall. intros x Hx.
    apply list_elem_of_In, elem_of_seqZ in Hx. lia. }
  cbv zeta in *. split; [exact L|]. split; [|exact O].
  intros j Hj. rewrite G by exact Hj. now rewrite in_row_cols.
Qed.

Lemma show_rows_gen (dx dy : Z) (src : Board) :
  forall (ys : list Z) (acc : Board * list drawn),
  NoDup ys ->
  Forall (fun y => 0 <= y /\ (y + 1) * B_COLS <= Z.of_nat (length (fst acc)))
         ys ->
  let r := foldl (show_row dx dy src) acc ys in
  length (fst r) = length (fst acc) /\
  (forall j, 0 <= j ->
     get (fst r) j
     = if existsb (fun y => (y * B_COLS <=? j) && (j <? (y + 1) * B_COLS)) ys
       then get src j else get (fst acc) j) /\
  snd r = snd acc ++ concat (map (row_draws dx dy src (fst acc)) ys).
Proof.
  induction ys as [|y ys IH]; intros acc Hnd Hys.
  - cbn. rewrite app_nil_r. auto.
  - apply list.NoDup_cons in Hnd as [Hy Hnd].
    apply Forall_cons_1 in Hys as [[Hy0 Hy1] Hys].
    destruct (show_row_spec dx dy src y acc Hy0 Hy1) as (L1 & G1 & O1).
    cbv zeta in L1, G1, O1. cbn [foldl].
    destruct (IH (show_row dx dy src acc y) Hnd) as (L2 & G2 & O2).
    { rewrite L1. exact Hys. }
    cbv zeta in L2, G2, O2. cbv zeta.
    split; [congruence|]. split.
    + intros j Hj. rewrite G2, G1 by exact Hj. cbn [existsb].
      destruct ((y * B_COLS <=? j) && (j <? (y + 1) * B_COLS)); cbn [orb];
        destruct (existsb _ ys); reflexivity.
    + rewrite O2, O1. cbn [map concat]. rewrite <- app_assoc. f_equal. f_equal.
      f_equal. apply map_ext_in. intros y' Hy'. unfold row_draws. f_equal.
      apply filter_ext_in. intros x Hx.
      apply list_elem_of_In, elem_of_seqZ in Hx. unfold changed.
      rewrite Forall_forall in Hys. destruct (Hys y' Hy') as [Hy'0 _].
      rewrite G1 by (consts; lia).
      destruct (Z.leb_spec (y * B_COLS) (y' * B_COLS + x));
        destruct (Z.ltb_spec (y' * B_COLS + x) ((y + 1) * B_COLS));
        cbn [andb]; try reflexivity.
      exfalso. apply Hy. apply list_elem_of_In.
      replace y with y' by (consts; lia). exact Hy'.
Qed.

Lemma in_shown_rows (j : Z) :
  existsb (fun y => (y * B_COLS <=? j) && (j <? (y + 1) * B_COLS))
          (seqZ 1 (B_ROWS - 2))
  = (SHOWN_FROM <=? j) && (j <? SHOWN_TO).
Proof.
  apply eq_true_iff_eq. rewrite existsb_exists, andb_true_iff. split.
  - intros (y & Hy & E). apply list_elem_of_In, elem_of_seqZ in Hy.
    unfold SHOWN_FROM, SHOWN_TO. consts. lia.
  - unfold SHOWN_FROM, SHOWN_TO. intros H. exists (j / B_COLS).
    assert (E : j = B_COLS * (j / B_COLS) + j mod B_COLS)
      by (apply Z.div_mod; consts; lia).
    pose proof (Z.mod_pos_bound j B_COLS ltac:(consts; lia)) as Hm.
    split; [apply list_elem_of_In, elem_of_seqZ|]; consts; lia.
Qed.

Lemma show_board_spec (b shadow : Board) :
  length shadow = Z.to_nat B_SIZE ->
  let r := show_board b shadow in
  length (fst r) = length shadow /\
  (forall j, 0 <= j ->
     get (fst r) j = if (SHOWN_FROM <=? j) && (j <? SHOWN_TO)
                     then get b j else get shadow j) /\
  snd r = concat (map (row_draws 28 0 b shadow) (seqZ 1 (B_ROWS - 2))).
Proof.
  intros Hl. unfold show_board, show_rows.
  destruct (show_rows_gen 28 0 b (seqZ 1 (B_ROWS - 2)) (shadow, [])
              (NoDup_seqZ _ _)) as (L & G & O).
  { apply Forall_forall. intros y Hy.
    apply list_elem_of_In, elem_of_seqZ in Hy. cbn [fst]. rewrite Hl.
    consts. lia. }
  cbv zeta in *. cbn [fst snd] in *. split; [exact L|]. split; [|exact O].
  intros j Hj. rewrite G by exact Hj. now rewrite in_shown_rows.
Qed.

Lemma concat_map_nil {A B : Type} (f : A -> list B) (l : list A) :
  (forall a, In a l -> f a = []) -> concat (map f l) = [].
Proof.
  induction l as [|a l IH]; intros H; [reflexivity|]. cbn.
  rewrite (H a) by (left; reflexivity). apply IH. intros; apply H. now right.
Qed.

Lemma shown_cell (y x : Z) :
  1 <= y <= B_ROWS - 2 -> 0 <= x < B_COLS ->
  (SHOWN_FROM <=? y * B_COLS + x) && (y * B_COLS + x <? SHOWN_TO) = true.
Proof.
  intros Hy Hx. unfold SHOWN_FROM, SHOWN_TO. apply andb_true_iff.
  split; [apply Z.leb_le|apply Z.ltb_lt]; consts; lia.
Qed.

(** X12. After the display loop the shadow holds the board in the rows shown, 1 to
    [B_ROWS - 2]; the first and the last row of the shadow are not touched. *)
Theorem show_board_syncs (b shadow : Board) :
  length shadow = Z.to_nat B_SIZE ->
  length (fst (show_board b shadow)) = length shadow /\
  (forall y x, 1 <= y <= B_ROWS - 2 -> 0 <= x < B_COLS ->
     get (fst (show_board b shadow)) (y * B_COLS + x)
     = get b (y * B_COLS + x)) /\
  (forall y x, y = 0 \/ y = B_ROWS - 1 -> 0 <= x < B_COLS ->
     get (fst (show_board b shadow)) (y * B_COLS + x)
     = get shadow (y * B_COLS + x)).
Proof.
  intros Hl. destruct (show_board_spec b shadow Hl) as (L & G & _).
  cbv zeta in *. split; [exact L|]. split.
  - intros y x Hy Hx.
    rewrite G by (unfold B_ROWS, B_COLS in *; lia).
    rewrite shown_cell by assumption. reflexivity.
  - intros y x Hy Hx.
    rewrite G by (unfold B_ROWS, B_COLS in *; lia).
    unfold SHOWN_FROM, SHOWN_TO.
    destruct (Z.leb_spec B_COLS (y * B_COLS + x));
      destruct (Z.ltb_spec (y * B_COLS + x) ((B_ROWS - 1) * B_COLS));
      cbn [andb]; try reflexivity.
    exfalso. unfold B_ROWS, B_COLS in *. lia.
Qed.

Lemma show_board_syncs_witness :
  length (fst (show_board init_board (repeat 0 276)))
  = length (repeat 0 276) /\
  (forall y x, 1 <= y <= B_ROWS - 2 -> 0 <= x < B_COLS ->
     get (fst (show_board init_board (repeat 0 276))) (y * B_COLS + x)
     = get init_board (y * B_COLS + x)) /\
  (forall y x, y = 0 \/ y = B_ROWS - 1 -> 0 <= x < B_COLS ->
     get (fst (show_board init_board (repeat 0 276))) (y * B_COLS + x)
     = get (repeat 0 276) (y * B_COLS + x)).
Proof.
  apply (show_board_syncs init_board (repeat 0 276)). reflexivity.
Defined.

(** X13. What the display loop draws: the cells of rows 1 to [B_ROWS - 2] that
    differ from the shadow it was given, row by row and from left to right,
    each in the colour of the board at column [2 * x + 28] of line [y]. *)
Theorem show_board_draws_changes (b shadow : Board) :
  length shadow = Z.to_nat B_SIZE ->
  snd (show_board b shadow)
  = concat (map (row_draws 28 0 b shadow) (seqZ 1 (B_ROWS - 2))).
Proof. intros Hl. apply (show_board_spec b shadow Hl). Qed.

Lemma show_board_draws_changes_witness :
  snd (show_board init_board (repeat 0 276))
  = concat (map (row_draws 28 0 init_board (repeat 0 276))
                (seqZ 1 (B_ROWS - 2))).
Proof.
  apply (show_board_draws_changes init_board (repeat 0 276)). reflexivity.
Defined.

Lemma filter_none {A : Type} (f : A -> bool) (l : list A) :
  (forall a, In a l -> f a = false) -> List.filter f l = [].
Proof.
  induction l as [|a l IH]; intros H; [reflexivity|]. cbn.
  rewrite (H a) by (left; reflexivity). apply IH. intros; apply H. now right.
Qed.

Lemma pair_eq {A B : Type} (p : A * B) (a : A) (b : B) :
  fst p = a -> snd p = b -> p = (a, b).
Proof. destruct p. cbn. congruence. Qed.

(** X14. Displaying the same board once more draws nothing and leaves the shadow
    as it is. *)
Theorem show_board_twice (b shadow : Board) :
  length shadow = Z.to_nat B_SIZE ->
  show_board b (fst (show_board b shadow)) = (fst (show_board b shadow), []).
Proof.
  intros Hl. destruct (show_board_spec b shadow Hl) as (L & G & _).
  destruct (show_board_spec b (fst (show_board b shadow)) (eq_trans L Hl))
    as (L2 & G2 & O2).
  apply pair_eq.
  - apply board_ext; [exact L2|]. intros j Hj.
    rewrite G2 by apply Hj. rewrite G by apply Hj.
    destruct ((SHOWN_FROM <=? j) && (j <? SHOWN_TO)); reflexivity.
  - rewrite O2. apply concat_map_nil. intros y Hy.
    apply list_elem_of_In, elem_of_seqZ in Hy. unfold row_draws.
    rewrite filter_none; [reflexivity|]. intros x Hx.
    apply list_elem_of_In, elem_of_seqZ in Hx. unfold changed.
    rewrite G by (unfold B_ROWS, B_COLS in *; lia).
    rewrite shown_cell by lia. rewrite Z.eqb_refl. reflexivity.
Qed.

Lemma show_board_twice_witness :
  show_board init_board (fst (show_board init_board (repeat 0 276)))
  = (fst (show_board init_board (repeat 0 276)), []).
Proof.
  apply (show_board_twice init_board (repeat 0 276)). reflexivity.
Defined.

(** X15. Everything is drawn inside the window of the board: on lines 1 to
    [B_ROWS - 2], at an even column from 28 to 50.  Row 0 of the board is
    never shown. *)
Theorem show_board_window (b shadow : Board) :
  length shadow = Z.to_nat B_SIZE ->
  Forall (fun d => 1 <= line d <= B_ROWS - 2 /\
                   exists x, 0 <= x < B_COLS /\ column d = x * 2 + 28 /\
                             code d = bgcode (get b (line d * B_COLS + x)))
         (snd (show_board b shadow)).
Proof.
  intros Hl. rewrite (show_board_draws_changes b shadow Hl).
  apply Forall_forall. intros d Hd.
  apply in_concat in Hd as (ds & Hds & Hd).
  apply in_map_iff in Hds as (y & <- & Hy).
  apply list_elem_of_In, elem_of_seqZ in Hy.
  unfold row_draws in Hd. apply in_map_iff in Hd as (x & <- & Hx).
  apply filter_In in Hx as [Hx _].
  apply list_elem_of_In, elem_of_seqZ in Hx.
  cbn [line column code draw]. split; [lia|].
  exists x. rewrite Z.add_0_l. split; [lia|]. split; reflexivity.
Qed.

Lemma show_board_window_witness :
  Forall (fun d => 1 <= line d <= B_ROWS - 2 /\
                   exists x, 0 <= x < B_COLS /\ column d = x * 2 + 28 /\
                             code d = bgcode (get init_board (line d * B_COLS + x)))
         (snd (show_board init_board (repeat 0 276))).
Proof.
  apply (show_board_window init_board (repeat 0 276)). reflexivity.
Defined.

(** ** The preview *)

Lemma wr_Ok (b b' : Board) (i v : Z) :
  wr b i v = Ok b' -> 0 <= i < Z.of_nat (length b) /\ b' = set b i v.
Proof.
  unfold wr, set.
  destruct (Z.leb_spec 0 i); destruct (Z.ltb_spec i (Z.of_nat (length b)));
    cbn [andb]; try discriminate.
  intros [= <-]. auto.
Qed.

(** The seven shapes that [next_shape] draws, anchored at cell
    [2 * B_COLS + 1] of the preview, lie in its first four rows. *)
Lemma base_cells_in_preview (pk : Z) :
  base_ptr pk ->
  Forall (fun j => 0 <= j < 4 * B_COLS) (cells pk (2 * B_COLS + 1)).
Proof.
  intros (k & Hk & ->).
  assert (H : forallb (fun k => forallb (fun j => (0 <=? j) && (j <? 4 * B_COLS))
                                  (cells (5 * k) (2 * B_COLS + 1)))
                      (seqZ 0 7) = true) by (vm_compute; reflexivity).
  pose proof (forallb_seqZ _ _ _ H k ltac:(lia)) as Hk'. cbv beta in Hk'.
  rewrite forallb_forall in Hk'. apply Forall_forall. intros j Hj.
  specialize (Hk' j Hj). lia.
Qed.

Lemma preview_of_spec (pk pc : Z) :
  Forall (fun j => 0 <= j < PREVIEW_SIZE) (cells pk (2 * B_COLS + 1)) ->
  exists pv, preview_of pk pc = Ok pv /\
    length pv = Z.to_nat PREVIEW_SIZE /\
    forall j, 0 <= j ->
      get pv j = if existsb (fun i => j =? i) (cells pk (2 * B_COLS + 1)) then pc else 0.
Proof.
  intros Hc. unfold cells in Hc.
  apply Forall_cons_1 in Hc as [H0 Hc]. apply Forall_cons_1 in Hc as [H1 Hc].
  apply Forall_cons_1 in Hc as [H2 Hc]. apply Forall_cons_1 in Hc as [H3 _].
  set (z := repeat 0 (Z.to_nat PREVIEW_SIZE)).
  assert (Lz : length z = Z.to_nat PREVIEW_SIZE) by apply repeat_length.
  assert (Gz : forall j, get z j = 0).
  { intros j. unfold get, z.
    destruct (repeat 0 (Z.to_nat PREVIEW_SIZE) !! Z.to_nat j) as [v|] eqn:E;
      [|reflexivity].
    apply list_elem_of_lookup_2, list_elem_of_In, repeat_spec in E.
    now subst. }
  unfold preview_of, place. fold z.
  rewrite wr_set by lia. cbn [rbind].
  rewrite wr_set by (rewrite !length_set; lia). cbn [rbind].
  rewrite wr_set by (rewrite !length_set; lia). cbn [rbind].
  rewrite wr_set by (rewrite !length_set; lia).
  eexists. split; [reflexivity|]. split; [now rewrite !length_set|].
  intros j Hj. rewrite !get_set by (rewrite ?length_set; lia). rewrite Gz.
  unfold cells. cbn [existsb].
  destruct (j =? 2 * B_COLS + 1); destruct (j =? 2 * B_COLS + 1 + sh pk 1);
    destruct (j =? 2 * B_COLS + 1 + sh pk 2);
    destruct (j =? 2 * B_COLS + 1 + sh pk 3); reflexivity.
Qed.

Lemma in_preview_rows (j : Z) :
  existsb (fun y => (y * B_COLS <=? j) && (j <? (y + 1) * B_COLS)) (seqZ 0 4)
  = (0 <=? j) && (j <? 4 * B_COLS).
Proof.
  apply eq_true_iff_eq. rewrite existsb_exists, andb_true_iff. split.
  - intros (y & Hy & E). apply list_elem_of_In, elem_of_seqZ in Hy.
    unfold B_COLS in *. lia.
  - intros H. exists (j / B_COLS).
    assert (E : j = B_COLS * (j / B_COLS) + j mod B_COLS)
      by (apply Z.div_mod; unfold B_COLS; lia).
    pose proof (Z.mod_pos_bound j B_COLS ltac:(unfold B_COLS; lia)) as Hm.
    split; [apply list_elem_of_In, elem_of_seqZ|]; unfold B_COLS in *; lia.
Qed.

(** With one of the seven shapes as preview, the preview block stays inside
    its two arrays, and the four rows it compares hold the whole shape: the
    four cells in the colour [pcolor], every other cell empty. *)
Lemma show_preview_base (g : game) (pk : Z) (shadow_preview : Board) :
  peek_shape g = Some pk -> base_ptr pk ->
  length shadow_preview = Z.to_nat PREVIEW_SIZE ->
  exists sp' ds,
    show_preview g shadow_preview = Ok (sp', ds) /\
    length sp' = Z.to_nat PREVIEW_SIZE /\
    Forall (fun j => 0 <= j < 4 * B_COLS) (cells pk (2 * B_COLS + 1)) /\
    forall j, 0 <= j < 4 * B_COLS ->
      get sp' j = if existsb (fun i => j =? i) (cells pk (2 * B_COLS + 1))
                  then pcolor g else 0.
Proof.
  intros Hpk Hb Hl.
  pose proof (base_cells_in_preview pk Hb) as Hc.
  destruct (preview_of_spec pk (pcolor g)) as (pv & E & Lp & Gp).
  { eapply Forall_impl; [|exact Hc]. cbv beta.
    unfold PREVIEW_SIZE, B_COLS. intros; lia. }
  unfold show_preview. rewrite Hpk, E. cbn [rbind].
  destruct (show_rows_gen (26 + 28) 5 pv (seqZ 0 4) (shadow_preview, [])
              (NoDup_seqZ _ _)) as (L & G & _).
  { apply Forall_forall. intros y Hy.
    apply list_elem_of_In, elem_of_seqZ in Hy. cbn [fst]. rewrite Hl.
    unfold PREVIEW_SIZE, B_COLS. lia. }
  eexists _, _. split; [f_equal; apply surjective_pairing|].
  unfold show_rows. split; [rewrite L; exact Hl|]. split; [exact Hc|].
  intros j Hj. rewrite G by lia. rewrite in_preview_rows.
  replace ((0 <=? j) && (j <? 4 * B_COLS)) with true by lia.
  apply Gp. lia.
Qed.

(** X16. In a game the preview block of [update] stays inside its arrays and
    shows the whole next piece: the preview is one of the seven shapes, and
    after the block the four rows compared hold its four cells in the colour
    [pcolor] and nothing else. *)
Theorem preview_shows_next_piece (fuel n : nat) (input : list Z)
        (rnd : list nat) (g : game) (shadow_preview : Board) :
  run fuel n (start input rnd) = Ok (Running g) ->
  length shadow_preview = Z.to_nat PREVIEW_SIZE ->
  exists pk sp' ds,
    peek_shape g = Some pk /\
    show_preview g shadow_preview = Ok (sp', ds) /\
    length sp' = Z.to_nat PREVIEW_SIZE /\
    Forall (fun j => 0 <= j < 4 * B_COLS) (cells pk (2 * B_COLS + 1)) /\
    forall j, 0 <= j < 4 * B_COLS ->
      get sp' j = if existsb (fun i => j =? i) (cells pk (2 * B_COLS + 1))
                  then pcolor g else 0.
Proof.
  pose proof (run_sound fuel n _ (start_sound input rnd)) as H.
  intros E Hl. rewrite E in H. destruct H as (Hg & _ & _ & Hp).
  destruct Hg as (_ & _ & _ & _ & Hk). unfold peek_ok in Hk.
  destruct (peek_shape g) as [pk|] eqn:Epk; [|contradiction].
  destruct (show_preview_base g pk shadow_preview Epk Hk Hl)
    as (sp' & ds & H1 & H2 & H3 & H4).
  exists pk, sp', ds. auto.
Qed.

Lemma preview_shows_next_piece_witness :
  exists pk sp' ds,
    peek_shape (state_of (snd (demo 3))) = Some pk /\
    show_preview (state_of (snd (demo 3))) (repeat 0 120) = Ok (sp', ds) /\
    length sp' = Z.to_nat PREVIEW_SIZE /\
    Forall (fun j => 0 <= j < 4 * B_COLS) (cells pk (2 * B_COLS + 1)) /\
    forall j, 0 <= j < 4 * B_COLS ->
      get sp' j = if existsb (fun i => j =? i) (cells pk (2 * B_COLS + 1))
                  then pcolor (state_of (snd (demo 3))) else 0.
Proof.
  apply (preview_shows_next_piece CLEAR_FUEL 3 demo_input demo_rand).
  - vm_compute. reflexivity.
  - reflexivity.
Defined.

Lemma wrap_int_cases (x : Z) :
  exists k, wrap_int x = x + k * 4294967296 /\ INT_MIN <= wrap_int x <= INT_MAX.
Proof.
  unfold wrap_int, wrap, INT_MIN, INT_MAX.
  change (2 ^ (32 - 1)) with 2147483648. change (2 ^ 32) with 4294967296.
  change (2 ^ 31) with 2147483648.
  pose proof (Z.div_mod (x + 2147483648) 4294967296 ltac:(lia)) as E.
  pose proof (Z.mod_pos_bound (x + 2147483648) 4294967296 ltac:(lia)) as B.
  set (q := (x + 2147483648) / 4294967296) in *.
  set (m := (x + 2147483648) mod 4294967296) in *.
  exists (- q). split; lia.
Qed.

Lemma alarm_divisor (lv : Z) :
  1 <= lv <= 299 -> wrap_int (3000 - wrap_int (10 * lv)) = 3000 - 10 * lv.
Proof.
  intros H. rewrite (wrap_int_id (10 * lv)) by (unfold INT_MIN, INT_MAX; lia).
  apply wrap_int_id. unfold INT_MIN, INT_MAX. lia.
Qed.

Lemma alarm_value (signo lv h : Z) :
  1 <= lv <= 299 -> 0 <= h <= LONG_MAX -> signo <> 0 ->
  alarm_handler signo lv h = Some (h - h / (3000 - 10 * lv)) /\
  0 <= h / (3000 - 10 * lv) <= h.
Proof.
  intros Hlv Hh Hs. unfold alarm_handler.
  destruct (Z.eqb_spec signo 0); [contradiction|].
  rewrite alarm_divisor by exact Hlv.
  destruct (Z.eqb_spec (3000 - 10 * lv) 0); [lia|].
  rewrite Z.quot_div_nonneg by lia.
  assert (Hq : 0 <= h / (3000 - 10 * lv) <= h).
  { split; [apply Z.div_pos; lia|].
    apply Z.div_le_upper_bound; [lia|]. nia. }
  rewrite (wrap_long_id (h / _)) by (unfold LONG_MIN, LONG_MAX in *; lia).
  rewrite wrap_long_id by (unfold LONG_MIN, LONG_MAX in *; lia).
  auto.
Qed.

(** X17. Below level 300 a tick shortens the delay, by one part in
    [3000 - 10 * level]; the delay stays where it is once it is below that
    number, and it does not fall below [2999 - 10 * level]. *)
Theorem alarm_speeds_up (signo lv h : Z) :
  1 <= lv <= 299 -> 0 <= h <= LONG_MAX -> signo <> 0 ->
  exists h',
    alarm_handler signo lv h = Some h' /\
    h' = h - h / (3000 - 10 * lv) /\ h' <= h /\
    (3000 - 10 * lv <= h -> h' < h) /\
    (h < 3000 - 10 * lv -> h' = h) /\
    (2999 - 10 * lv <= h -> 2999 - 10 * lv <= h').
Proof.
  intros Hlv Hh Hs.
  destruct (alarm_value signo lv h Hlv Hh Hs) as [E Hq].
  exists (h - h / (3000 - 10 * lv)). split; [exact E|].
  split; [reflexivity|]. split; [lia|].
  set (d := 3000 - 10 * lv) in *. assert (Hd : 0 < d) by (unfold d; lia).
  pose proof (Z.div_mod h d ltac:(lia)) as Edm.
  pose proof (Z.mod_pos_bound h d Hd) as Hm.
  split; [|split].
  - intros Hge. assert (1 <= h / d); [|lia].
    apply Z.div_le_lower_bound; lia.
  - intros Hlt. rewrite Z.div_small by lia. lia.
  - intros Hge. replace (2999 - 10 * lv) with (d - 1) in * by (unfold d; lia).
    destruct (Z.eq_dec (h / d) 0) as [E0|E0]; [rewrite E0 in *; lia|].
    assert (1 <= h / d) by lia. nia.
Qed.

Lemma alarm_speeds_up_witness :
  exists h',
    alarm_handler 14 1 500000 = Some h' /\
    h' = 500000 - 500000 / (3000 - 10 * 1) /\ h' <= 500000 /\
    (3000 - 10 * 1 <= 500000 -> h' < 500000) /\
    (500000 < 3000 - 10 * 1 -> h' = 500000) /\
    (2999 - 10 * 1 <= 500000 -> 2999 - 10 * 1 <= h').
Proof.
  apply (alarm_speeds_up 14 1 500000).
  - lia.
  - unfold LONG_MAX. lia.
  - lia.
Defined.

(** X18. With a level from 1 to [INT_MAX], the handler divides by zero at level
    300 and at no other level. *)
Theorem alarm_fails_at_level_300 (signo lv h : Z) :
  1 <= lv <= INT_MAX ->
  alarm_handler signo lv h = None <-> lv = 300.
Proof.
  intros Hlv. unfold alarm_handler. split.
  - destruct (Z.eqb_spec (wrap_int (3000 - wrap_int (10 * lv))) 0) as [E|];
      [|discriminate].
    intros _.
    destruct (wrap_int_cases (10 * lv)) as (k1 & E1 & B1).
    destruct (wrap_int_cases (3000 - wrap_int (10 * lv))) as (k2 & E2 & B2).
    unfold INT_MIN, INT_MAX in *. lia.
  - intros ->. reflexivity.
Qed.

Lemma alarm_fails_at_level_300_witness :
  alarm_handler 14 300 499833 = None <-> 300 = 300.
Proof.
  apply (alarm_fails_at_level_300 14 300 499833). unfold INT_MAX. lia.
Defined.

Lemma alarms_bounds (calls : list (Z * Z)) (h0 : Z) :
  Forall (fun c => 1 <= snd c <= 299) calls -> 9 <= h0 <= 500000 ->
  exists h, alarms calls h0 = Some h /\ 9 <= h <= 500000.
Proof.
  revert h0. induction calls as [|[signo lv] calls IH]; intros h0 Hc Hh.
  - exists h0. auto.
  - apply Forall_cons_1 in Hc as [Hlv Hc]. cbn [snd] in Hlv. cbn [alarms].
    assert (E : exists h, alarm_handler signo lv h0 = Some h /\ 9 <= h <= 500000).
    { destruct (Z.eq_dec signo 0) as [->|Hs].
      - destruct (alarm_speeds_up 1 lv 500000 Hlv
                    ltac:(unfold LONG_MAX; lia) ltac:(lia))
          as (h & E & _ & Hle & _ & _ & Hfl).
        exists h. split; [|lia].
        unfold alarm_handler in *. cbn [Z.eqb] in *. exact E.
      - destruct (alarm_speeds_up signo lv h0 Hlv
                    ltac:(unfold LONG_MAX; lia) Hs)
          as (h & E & _ & Hle & _ & Hsame & Hfl).
        exists h. split; [exact E|].
        destruct (Z.lt_ge_cases h0 (3000 - 10 * lv)); lia. }
    destruct E as (h & -> & Hh'). apply IH; assumption.
Qed.

(** X19. After the call with [signo = 0] that [sig_init] and [init] make, and
    below level 300, the delay of the timer stays between 9 microseconds and
    half a second, whatever calls follow: it never becomes 0, which would
    disarm the timer. *)
Theorem alarms_keep_timer_armed (lv0 h0 : Z) (calls : list (Z * Z)) :
  1 <= lv0 <= 299 -> Forall (fun c => 1 <= snd c <= 299) calls ->
  exists h, alarms ((0, lv0) :: calls) h0 = Some h /\ 9 <= h <= 500000.
Proof.
  intros Hlv Hc. cbn [alarms].
  destruct (alarm_speeds_up 1 lv0 500000 Hlv
              ltac:(unfold LONG_MAX; lia) ltac:(lia))
    as (h & E & _ & Hle & _ & _ & Hfl).
  assert (E' : alarm_handler 0 lv0 h0 = Some h) by exact E.
  rewrite E'. apply alarms_bounds; [exact Hc|lia].
Qed.

Lemma alarms_keep_timer_armed_witness :
  exists h, alarms [(0, 1); (14, 1); (14, 2); (0, 2); (14, 299)] 0 = Some h /\
            9 <= h <= 500000.
Proof.
  apply (alarms_keep_timer_armed 1 0 [(14, 1); (14, 2); (0, 2); (14, 299)]).
  - lia.
  - repeat constructor; cbn; lia.
Defined.

(** ** The file of the high scores *)

Lemma substring_all (s : string) (n : nat) :
  (String.length s <= n)%nat -> substring 0 n s = s.
Proof.
  revert n. induction s as [|a s IH]; intros n H.
  - destruct n; reflexivity.
  - destruct n as [|n]; cbn in *; [lia|]. rewrite IH by lia. reflexivity.
Qed.

Lemma snprintf_fits (size : nat) (s : string) :
  (size <=? snd (snprintf size s))%nat = false -> fst (snprintf size s) = s.
Proof.
  unfold snprintf. cbn [fst snd]. intros H. apply Nat.leb_gt in H.
  apply substring_all. lia.
Qed.

Lemma given_Some (v : option string) :
  given v = true <-> exists s, v = Some s /\ s <> EmptyString.
Proof.
  destruct v as [[|a s]|]; cbn; split; try discriminate.
  - intros (s & [= <-] & H). contradiction.
  - intros _. eexists. split; [reflexivity|discriminate].
  - intros _. reflexivity.
  - intros (s & [=] & _).
Qed.

Section HighScoreFacts.

Variable PATH_MAX : nat.
Variable mkdir : string -> mkdir_result.

Lemma init_high_score_file_value (xdg home : option string) (base : string) :
  (if given xdg then xdg else if given home then home else None) = Some base ->
  let dir := (if given xdg then base ++ "/games"
              else base ++ "/.local/state/games")%string in
  wanted_dir xdg home dir.
Proof.
  intros E dir. subst dir. destruct (given xdg) eqn:Gx.
  - left. exists base. apply given_Some in Gx as (s & -> & Hs).
    injection E as <-. auto.
  - right. split; [exact Gx|]. destruct (given home) eqn:Gh;
      [|discriminate].
    exists base. apply given_Some in Gh as (s & -> & Hs).
    injection E as <-. auto.
Qed.

(** X20. The function returns exactly when the environment names a directory,
    the path of the score file in it is shorter than [PATH_MAX], and
    [mkdir] makes the directory or finds it; the two paths stored are then
    the whole paths, nothing of them is cut off. *)
Theorem high_score_paths (xdg home : option string) (sd hf : string) :
  init_high_score_file PATH_MAX mkdir xdg home = HsPaths sd hf <->
  wanted_dir xdg home sd /\ hf = (sd ++ "/tetris.scores")%string /\
  (String.length hf < PATH_MAX)%nat /\ mkdir sd <> MkdirFailed.
Proof.
  unfold init_high_score_file. split.
  - destruct (if given xdg then xdg else if given home then home else None)
      as [base|] eqn:E; [|discriminate].
    pose proof (init_high_score_file_value xdg home base E) as Hw.
    cbv zeta in Hw.
    set (dir := (if given xdg then base ++ "/games"
                 else base ++ "/.local/state/games")%string) in *.
    cbv zeta.
    destruct (PATH_MAX <=? snd (snprintf PATH_MAX dir))%nat eqn:E1;
      [discriminate|].
    rewrite (snprintf_fits _ _ E1).
    destruct (mkdir dir) eqn:Em; try discriminate;
      (destruct (PATH_MAX <=? snd (snprintf PATH_MAX (dir ++ "/tetris.scores")))%nat
         eqn:E2; [discriminate|]);
      rewrite (snprintf_fits _ _ E2); intros [= <- <-];
      (split; [exact Hw|]); (split; [reflexivity|]);
      (split; [apply Nat.leb_gt in E2; exact E2|]);
      rewrite Em; discriminate.
  - intros (Hw & -> & Hlen & Hm).
    assert (E : exists base,
              (if given xdg then xdg else if given home then home else None)
              = Some base /\
              sd = (if given xdg then base ++ "/games"
                    else base ++ "/.local/state/games")%string).
    { destruct Hw as [(base & -> & Hb & ->)|(Gx & base & -> & Hb & ->)].
      - exists base. destruct base; [contradiction|]. cbn. auto.
      - exists base. rewrite Gx. destruct base; [contradiction|]. cbn. auto. }
    destruct E as (base & -> & <-). cbv zeta.
    assert (L : (String.length (sd ++ "/tetris.scores")
                 = String.length sd + 14)%nat).
    { clear. induction sd as [|a s IH]; cbn; [reflexivity|].
      now rewrite IH. }
    assert (E1 : (PATH_MAX <=? snd (snprintf PATH_MAX sd))%nat = false).
    { apply Nat.leb_gt. cbn [snprintf snd]. lia. }
    rewrite E1, (snprintf_fits _ _ E1).
    assert (E2 : (PATH_MAX <=? snd (snprintf PATH_MAX (sd ++ "/tetris.scores")))%nat
                 = false).
    { apply Nat.leb_gt. cbn [snprintf snd]. lia. }
    rewrite E2, (snprintf_fits _ _ E2).
    destruct (mkdir sd); [reflexivity|reflexivity|contradiction].
Qed.

(** X21. The program gives up for want of a directory exactly when both
    variables are unset or empty. *)
Theorem high_score_no_home (xdg home : option string) :
  init_high_score_file PATH_MAX mkdir xdg home = HsExit NoHome <->
  given xdg = false /\ given home = false.
Proof.
  unfold init_high_score_file. split.
  - destruct (given xdg) eqn:Gx.
    + apply given_Some in Gx as (s & -> & _). cbv zeta.
      repeat match goal with
             | |- context [if ?t then _ else _] => destruct t
             | |- context [match ?t with MkdirOk => _ | _ => _ end] =>
                 destruct t
             end; discriminate.
    + destruct (given home) eqn:Gh; [|auto].
      apply given_Some in Gh as (s & -> & _). cbv zeta.
      repeat match goal with
             | |- context [if ?t then _ else _] => destruct t
             | |- context [match ?t with MkdirOk => _ | _ => _ end] =>
                 destruct t
             end; discriminate.
  - intros [-> ->]. reflexivity.
Qed.

End HighScoreFacts.

(** ** The terminal *)

(** X22. When [stdin] is a terminal, [tty_init] succeeds and hides the cursor; the
    modes in force are the old ones without the bits of [ICANON] and [ECHO],
    with [c_cc[VMIN] = 1], [c_cc[VTIME] = 0] and every other entry of [c_cc]
    as it was; [tty_exit] then puts back exactly the modes that [tty_init]
    found and shows the cursor.  [VMIN] and [VTIME] are two different
    indices of the array [c_cc]. *)
Theorem tty_exit_restores (ICANON ECHO : Z) (VMIN VTIME : nat)
        (t : tty) (m : termios) :
  attrs t = Some m ->
  VMIN <> VTIME ->
  (VMIN < length (c_cc m))%nat -> (VTIME < length (c_cc m))%nat ->
  exists m',
    tty_init ICANON ECHO VMIN VTIME t = (0, Tty (Some m') false m true) /\
    c_iflag m' = c_iflag m /\ c_oflag m' = c_oflag m /\
    c_cflag m' = c_cflag m /\
    (forall n, 0 <= n ->
       Z.testbit (c_lflag m') n
       = Z.testbit (c_lflag m) n
         && negb (Z.testbit ICANON n || Z.testbit ECHO n)) /\
    c_cc m' !! VMIN = Some 1 /\ c_cc m' !! VTIME = Some 0 /\
    length (c_cc m') = length (c_cc m) /\
    (forall i : nat, i <> VMIN -> i <> VTIME -> c_cc m' !! i = c_cc m !! i) /\
    tty_exit (Tty (Some m') false m true) = (0, Tty (Some m) true m true).
Proof.
  intros E Hne Hmin Htime. unfold tty_init. rewrite E.
  eexists. split; [reflexivity|].
  cbn [c_iflag c_oflag c_cflag c_lflag c_cc].
  split; [reflexivity|]. split; [reflexivity|]. split; [reflexivity|].
  split.
  { intros n Hn. rewrite !Z.land_spec, !Z.lnot_spec by exact Hn.
    destruct (Z.testbit (c_lflag m) n); destruct (Z.testbit ICANON n);
      destruct (Z.testbit ECHO n); reflexivity. }
  split.
  { rewrite list_lookup_insert_ne by auto.
    apply list_lookup_insert_eq. exact Hmin. }
  split.
  { apply list_lookup_insert_eq. rewrite length_insert. exact Htime. }
  split; [now rewrite !length_insert|].
  split; [|reflexivity].
  intros i H1 H2. now rewrite !list_lookup_insert_ne by auto.
Qed.

Lemma tty_exit_restores_witness :
  exists m',
    tty_init 2 8 6 5 (Tty (Some (Termios 0 0 0 10 (repeat 4 32))) true
                          (Termios 0 0 0 0 []) false)
    = (0, Tty (Some m') false (Termios 0 0 0 10 (repeat 4 32)) true) /\
    c_iflag m' = 0 /\ c_oflag m' = 0 /\ c_cflag m' = 0 /\
    (forall n, 0 <= n ->
       Z.testbit (c_lflag m') n
       = Z.testbit 10 n && negb (Z.testbit 2 n || Z.testbit 8 n)) /\
    c_cc m' !! 6%nat = Some 1 /\ c_cc m' !! 5%nat = Some 0 /\
    length (c_cc m') = 32%nat /\
    (forall i : nat, i <> 6%nat -> i <> 5%nat ->
       c_cc m' !! i = repeat 4 32 !! i) /\
    tty_exit (Tty (Some m') false (Termios 0 0 0 10 (repeat 4 32)) true)
    = (0, Tty (Some (Termios 0 0 0 10 (repeat 4 32))) true
              (Termios 0 0 0 10 (repeat 4 32)) true).
Proof.
  apply (tty_exit_restores 2 8 6 5
           (Tty (Some (Termios 0 0 0 10 (repeat 4 32))) true
                (Termios 0 0 0 0 []) false)).
  - reflexivity.
  - discriminate.
  - cbn. lia.
  - cbn. lia.
Defined.

(** ** The pieces of a game *)

Lemma next_shape_some (g : game) (pk : Z) (r : nat) (rs : list nat) :
  peek_shape g = Some pk -> rand_src g = r :: rs ->
  exists g', next_shape g = (pk, g') /\
    peek_shape g' = Some (drawn_shape r) /\ rand_src g' = rs.
Proof.
  intros Hp Hr. unfold next_shape, draw_peek, rand. rewrite Hp, Hr.
  eexists. split; [reflexivity|]. cbn. auto.
Qed.

Lemma deal_some (n : nat) :
  forall (g : game) (pk : Z),
  peek_shape g = Some pk -> (n <= length (rand_src g))%nat ->
  fst (deal n g) = take n (pk :: map drawn_shape (rand_src g)) /\
  peek_shape (snd (deal n g))
  = Some (nth n (pk :: map drawn_shape (rand_src g)) 0) /\
  rand_src (snd (deal n g)) = drop n (rand_src g).
Proof.
  induction n as [|n IH]; intros g pk Hp Hl.
  - cbn. auto.
  - destruct (rand_src g) as [|r rs] eqn:Hr; [cbn in Hl; lia|].
    destruct (next_shape_some g pk r rs Hp Hr) as (g' & E & Hp' & Hr').
    cbn [deal]. rewrite E.
    destruct (IH g' (drawn_shape r) Hp' ltac:(rewrite Hr'; cbn in Hl; lia))
      as (A1 & A2 & A3).
    destruct (deal n g') as [ss g2]. cbn [fst snd] in *.
    rewrite Hr' in *. cbn [map take nth drop]. rewrite A1. auto.
Qed.

(** X23. The pieces of a game come in the order of the random numbers: from the
    first call on, the calls of [next_shape] return the entries drawn from
    the first, the second, ... random number, and the preview is the entry
    drawn from the next one. *)
Theorem pieces_follow_rand (n : nat) (g : game) :
  peek_shape g = None -> (n + 2 <= length (rand_src g))%nat ->
  fst (deal (S n) g) = map drawn_shape (take (S n) (rand_src g)) /\
  peek_shape (snd (deal (S n) g))
  = Some (drawn_shape (nth (S n) (rand_src g) 0%nat)) /\
  rand_src (snd (deal (S n) g)) = drop (S n + 1) (rand_src g).
Proof.
  intros Hp Hl.
  destruct (rand_src g) as [|r0 [|r1 rs]] eqn:Hr; cbn in Hl; try lia.
  assert (E : exists g', next_shape g = (drawn_shape r0, g') /\
                peek_shape g' = Some (drawn_shape r1) /\ rand_src g' = rs).
  { unfold next_shape, draw_peek, rand. rewrite Hp, Hr. cbn.
    eexists. split; [reflexivity|]. cbn. auto. }
  destruct E as (g' & E & Hp' & Hr').
  cbn [deal]. rewrite E.
  destruct (deal_some n g' (drawn_shape r1) Hp' ltac:(rewrite Hr'; lia))
    as (A1 & A2 & A3).
  destruct (deal n g') as [ss g2]. cbn [fst snd] in *.
  rewrite Hr' in *. rewrite A1, A2, A3.
  replace (S n + 1)%nat with (S (S n)) by lia.
  change (take (S n) (r0 :: r1 :: rs)) with (r0 :: take n (r1 :: rs)).
  change (nth (S n) (r0 :: r1 :: rs) 0%nat) with (nth n (r1 :: rs) 0%nat).
  change (drop (S (S n)) (r0 :: r1 :: rs)) with (drop n rs).
  change (drawn_shape r1 :: map drawn_shape rs)
    with (map drawn_shape (r1 :: rs)).
  split; [|split; [|reflexivity]].
  - cbn [map]. f_equal. now rewrite <- firstn_map.
  - f_equal. change 0 with (drawn_shape 0%nat). apply map_nth.
Qed.

Lemma pieces_follow_rand_witness :
  fst (deal 2 (Game init_board 0 0 None 0 1 0 0 0 17 [] [6; 3; 9; 4]%nat))
  = map drawn_shape (take 2 [6; 3; 9; 4]%nat) /\
  peek_shape (snd (deal 2 (Game init_board 0 0 None 0 1 0 0 0 17 []
                                [6; 3; 9; 4]%nat)))
  = Some (drawn_shape (nth 2 [6; 3; 9; 4]%nat 0%nat)) /\
  rand_src (snd (deal 2 (Game init_board 0 0 None 0 1 0 0 0 17 []
                              [6; 3; 9; 4]%nat)))
  = drop (2 + 1) [6; 3; 9; 4]%nat.
Proof.
  apply (pieces_follow_rand 1
           (Game init_board 0 0 None 0 1 0 0 0 17 [] [6; 3; 9; 4]%nat)).
  - reflexivity.
  - cbn. lia.
Defined.

(** ** The two waits *)

(** X24. The pause ends at the first [p]; the characters before it are thrown
    away, and without a [p] the program waits for ever. *)
Theorem wait_pause_spec (pre rest : list Z) :
  Forall (fun k => k <> keys KEY_PAUSE) pre ->
  wait_pause (pre ++ keys KEY_PAUSE :: rest) = Ok rest /\
  wait_pause pre = Err Diverges.
Proof.
  induction pre as [|k pre IH]; intros H.
  - cbn [app wait_pause]. rewrite Z.sub_diag. auto.
  - apply Forall_cons_1 in H as [Hk H]. cbn [app wait_pause].
    destruct (Z.eqb_spec (k - keys KEY_PAUSE) 0); [lia|]. auto.
Qed.

Lemma wait_pause_spec_witness :
  wait_pause ([keys KEY_QUIT; EOF] ++ keys KEY_PAUSE :: [keys KEY_LEFT])
  = Ok [keys KEY_LEFT] /\
  wait_pause [keys KEY_QUIT; EOF] = Err Diverges.
Proof.
  apply (wait_pause_spec [keys KEY_QUIT; EOF] [keys KEY_LEFT]).
  repeat constructor; vm_compute; discriminate.
Defined.

(** X25. The wait after a lost game ends at the first character that is NUL, [q]
    or [r], which it returns; the characters before it are thrown away, and
    without such a character the program waits for ever. *)
Theorem wait_replay_spec (pre rest : list Z) (k : Z) :
  Forall (fun k' => ends_wait k' = false) pre -> ends_wait k = true ->
  wait_replay (pre ++ k :: rest) = Ok (k, rest) /\
  wait_replay pre = Err Diverges.
Proof.
  intros H Hk. induction pre as [|k' pre IH].
  - cbn [app wait_replay]. unfold ends_wait in Hk.
    destruct (k =? 0); [auto|]. cbn [orb] in Hk. rewrite Hk. auto.
  - apply Forall_cons_1 in H as [Hk' H]. cbn [app wait_replay].
    unfold ends_wait in Hk'.
    destruct (k' =? 0); [discriminate|]. cbn [orb] in Hk'. rewrite Hk'.
    auto.
Qed.

Lemma wait_replay_spec_witness :
  wait_replay ([keys KEY_LEFT; EOF] ++ 0 :: [keys KEY_QUIT])
  = Ok (0, [keys KEY_QUIT]) /\
  wait_replay [keys KEY_LEFT; EOF] = Err Diverges.
Proof.
  apply (wait_replay_spec [keys KEY_LEFT; EOF] [keys KEY_QUIT] 0).
  - repeat constructor.
  - reflexivity.
Defined.

(* ===================================================================== *)
(** * The points of a game *)

(** ** The occupied cells of the field *)















(** ** The points stay within the budget *)

























(** ** C9: the overflow guard *)


(** Every later game of a session is a game that [main] starts, of the input
    and the random numbers that are left. *)
Lemma init_is_start (g : game) (k : nat) :
  peek_shape g = Some (5 * Z.of_nat k) -> (k < 7)%nat ->
  init g = start (stdin g) (k :: rand_src g).
Proof.
  intros Hp Hk. unfold start, init, next_shape, draw_peek, rand.
  destruct g as [b sp co pk pc lv p lcl cc po inp rn]. cbn in Hp |- *.
  rewrite Hp.
  assert (E : Z.rem (Z.of_nat k) 7 * 5 = 5 * Z.of_nat k).
  { rewrite Z.rem_small by lia. lia. }
  destruct rn as [|r rn]; cbn; rewrite E; reflexivity.
Qed.



